(** * Pocket Wayback Machine: the capture-decision pipeline

    A shallow embedding of the service worker ([sw.ts]) and of the
    IndexedDB layer ([db.ts]): URL policy, wildcard denylist, the per-tab
    navigation debounce state machine, the dwell-timer continuation and the
    settings commands, followed by the properties established about them. *)

From Stdlib Require Import ZArith String Ascii List Bool Lia.
From Stdlib.Strings Require Byte.
From Stdlib Require QArith Qround.
From stdpp Require Import gmap strings list sorting.

Local Open Scope string_scope.
Local Open Scope list_scope.
Local Open Scope Z_scope.

(** ** Exceptions

    A rejected promise or a thrown [Error] carries a message. *)

Inductive Exc (A : Type) : Type :=
| Ok (a : A)
| Throw (msg : string).
Arguments Ok {A} a.
Arguments Throw {A} msg.

(** ** The fragment of ECMAScript regular expressions reached by [sw.ts]

    [wildcardToRegExp] builds a pattern source and hands it to
    [new RegExp].  The sources it can build only contain the assertions
    [^] and [$], identity escapes of syntax characters, ordinary pattern
    characters and the quantifier [*].  [RegExp_new] parses that fragment
    (plus the dot) and reports the syntax errors of the ECMAScript grammar;
    strings are sequences of 8-bit code units. *)

Module JSRegExp.

Inductive atom : Type :=
| Lit (c : ascii)
| AnyChar.

Inductive term : Type :=
| Bol
| Eol
| One (a : atom)
| Many (a : atom).

Definition RegExp : Type := list term.

Definition mem_ascii (c : ascii) (set : string) : bool :=
  existsb (Ascii.eqb c) (list_ascii_of_string set).

(** SyntaxCharacter :: one of ^ $ \ . * + ? ( ) [ ] { } | *)
Definition isSyntaxCharacter (c : ascii) : bool :=
  mem_ascii c "^$\.*+?()[]{}|".

(** Syntax characters that open constructs outside the fragment. *)
Definition isUnmodelled (c : ascii) : bool :=
  mem_ascii c "+?()[]{}|".

(** LineTerminator code units below 256: LF and CR. *)
Definition isLineTerminator (c : ascii) : bool :=
  (Ascii.eqb c "010" || Ascii.eqb c "013")%char.

(** Left-to-right parse; [acc] holds the terms read so far, newest
    first.  A [*] needs an unquantified atom right before it. *)
Fixpoint parse (src : string) (acc : list term) : Exc RegExp :=
  match src with
  | EmptyString => Ok (rev acc)
  | String c rest =>
      if Ascii.eqb c "\" then
        match rest with
        | EmptyString => Throw "\ at end of pattern"
        | String d rest' =>
            if isSyntaxCharacter d then parse rest' (One (Lit d) :: acc)
            else Throw "unmodelled escape"
        end
      else if Ascii.eqb c "*" then
        match acc with
        | One a :: acc' => parse rest (Many a :: acc')
        | _ => Throw "Nothing to repeat"
        end
      else if Ascii.eqb c "^" then parse rest (Bol :: acc)
      else if Ascii.eqb c "$" then parse rest (Eol :: acc)
      else if Ascii.eqb c "." then parse rest (One AnyChar :: acc)
      else if isUnmodelled c then Throw "unmodelled syntax"
      else parse rest (One (Lit c) :: acc)
  end.

Definition RegExp_new (src : string) : Exc RegExp := parse src [].

(** The sources on which [RegExp_new] is the ECMAScript parser: every
    backslash escapes a syntax character and no unmodelled syntax
    character stands unescaped. *)
Fixpoint inFragment (src : string) : bool :=
  match src with
  | EmptyString => true
  | String c rest =>
      if Ascii.eqb c "\" then
        match rest with
        | EmptyString => true
        | String d rest' => isSyntaxCharacter d && inFragment rest'
        end
      else negb (isUnmodelled c) && inFragment rest
  end.

Definition atom_matches (a : atom) (c : ascii) : bool :=
  match a with
  | Lit d => Ascii.eqb d c
  | AnyChar => negb (isLineTerminator c)
  end.

(** Backtracking matcher: can [ts] match a prefix of [s]?  [at_start]
    tells whether [s] is the whole input. *)
Fixpoint match_here (ts : list term) (at_start : bool) (s : string) : bool :=
  match ts with
  | [] => true
  | Bol :: ts' => at_start && match_here ts' at_start s
  | Eol :: ts' =>
      match s with
      | EmptyString => match_here ts' at_start s
      | String _ _ => false
      end
  | One a :: ts' =>
      match s with
      | EmptyString => false
      | String c s' => atom_matches a c && match_here ts' false s'
      end
  | Many a :: ts' =>
      (fix star (at_start : bool) (s : string) {struct s} : bool :=
         match_here ts' at_start s
         || match s with
            | EmptyString => false
            | String c s' => atom_matches a c && star false s'
            end) at_start s
  end.

(** [re.test(s)] without flags: a match may start at any index. *)
Fixpoint search (ts : list term) (at_start : bool) (s : string) {struct s} : bool :=
  match_here ts at_start s
  || match s with
     | EmptyString => false
     | String _ s' => search ts false s'
     end.

Definition test (re : RegExp) (s : string) : bool := search re true s.

End JSRegExp.

(** ** Platform

    What the browser supplies and the repository does not define: the URL
    parser, the SHA-256 digest, the UUID generator, and which external
    calls fail. *)

Record URL : Type := mkURL { protocol : string; host : string }.

Inductive Op : Type :=
| OpTabsGet
| OpPutVisit
| OpPurgeVisits
| OpExecuteScript
| OpSendMessage
| OpGetVersions
| OpPutPageVersion.

Class Platform : Type := {
  (** [new URL(s)]: [None] when the constructor throws. *)
  URL_parse : string -> option URL;
  (** [crypto.subtle.digest("SHA-256", utf8 s)], as bytes. *)
  subtle_digest : string -> list Byte.byte;
  (** The [n]-th value returned by [crypto.randomUUID()]. *)
  randomUUID : nat -> string;
  (** Whether the [n]-th external call of the run, being an [op], rejects. *)
  fault : Op -> nat -> bool
}.

(** ** Settings and URL policy (sw.ts) *)

Record Settings : Type := mkSettings {
  enabled : bool;
  minStayMs : Z;
  disabledHosts : list string;
  disabledUrlPatterns : list string
}.

Section UrlPolicy.
Context `{Platform}.

Definition isHttpUrl (url : string) : bool :=
  match URL_parse url with
  | Some u => String.eqb (protocol u) "http:" || String.eqb (protocol u) "https:"
  | None => false
  end.

Definition hostOf (url : string) : string :=
  match URL_parse url with
  | Some u => host u
  | None => ""
  end.

Definition toUrlKey (url : string) : string := url.

End UrlPolicy.

(** [/[.+?^${}()|[\]\\]/]: the characters the first [replace] escapes.
    The star is not among them. *)
Definition isEscapedMeta (c : ascii) : bool :=
  JSRegExp.mem_ascii c ".+?^${}()|[]\".

(** [pattern.replace(/[.+?^${}()|[\]\\]/g, "\\$&")] *)
Fixpoint escapeMeta (s : string) : string :=
  match s with
  | EmptyString => EmptyString
  | String c s' =>
      if isEscapedMeta c then String "\" (String c (escapeMeta s'))
      else String c (escapeMeta s')
  end.

(** [escaped.replace(/\\\*/g, ".*")]: every backslash directly followed
    by a star becomes dot-star, scanning left to right. *)
Fixpoint replaceBackslashStar (s : string) : string :=
  match s with
  | EmptyString => EmptyString
  | String c s' =>
      match s' with
      | String d s'' =>
          if Ascii.eqb c "\" && Ascii.eqb d "*"
          then String "." (String "*" (replaceBackslashStar s''))
          else String c (replaceBackslashStar s')
      | EmptyString => String c EmptyString
      end
  end.

Definition regexStr (pattern : string) : string :=
  "^" +:+ replaceBackslashStar (escapeMeta pattern) +:+ "$".

Definition wildcardToRegExp (pattern : string) : Exc JSRegExp.RegExp :=
  JSRegExp.RegExp_new (regexStr pattern).

(** The [try]/[catch] inside the loop swallows whatever
    [wildcardToRegExp] throws and moves on to the next pattern. *)
Fixpoint urlMatchesPatterns (url : string) (patterns : list string) : Exc bool :=
  match patterns with
  | [] => Ok false
  | p :: rest =>
      match wildcardToRegExp p with
      | Ok re => if JSRegExp.test re url then Ok true else urlMatchesPatterns url rest
      | Throw _ => urlMatchesPatterns url rest
      end
  end.

(** [shouldArchiveUrl] once the settings have been read. *)
Section Eligibility.
Context `{Platform}.

Definition nonEmpty (s : string) : bool := negb (String.eqb s "").

Definition includes (x : string) (l : list string) : bool :=
  existsb (String.eqb x) l.

Definition unwrap (r : Exc bool) : bool :=
  match r with Ok b => b | Throw _ => false end.

Definition eligible (url : string) (settings : Settings) : bool :=
  if negb (isHttpUrl url) then false
  else if negb (enabled settings) then false
  else if nonEmpty (hostOf url) && includes (hostOf url) (disabledHosts settings) then false
  else if negb (length (disabledUrlPatterns settings) =? 0)%nat
          && unwrap (urlMatchesPatterns url (disabledUrlPatterns settings)) then false
  else true.

End Eligibility.

(** ** Arrays and sets of the host language *)

(** [Array.prototype.sort] is stable; insertion from the right is the
    stable sort for the order [le]. *)
Fixpoint insert_by {A} (le : A -> A -> bool) (x : A) (l : list A) : list A :=
  match l with
  | [] => [x]
  | y :: l' => if le x y then x :: l else y :: insert_by le x l'
  end.

Definition sort_by {A} (le : A -> A -> bool) (l : list A) : list A :=
  foldr (insert_by le) [] l.

(** The relation decided by a boolean order. *)
Definition rel_of {A} (le : A -> A -> bool) : relation A := fun a b => le a b = true.

(** [arr.sort()] on strings: ascending by code units. *)
Definition Array_sort (arr : list string) : list string := sort_by String.leb arr.

(** A [Set] of strings, as its elements in insertion order. *)
Definition Set_has (x : string) (s : list string) : bool := includes x s.
Definition Set_add (x : string) (s : list string) : list string :=
  if Set_has x s then s else s ++ [x].
Definition Set_delete (x : string) (s : list string) : list string :=
  filter (fun y => y <> x) s.
Definition Set_new (l : list string) : list string :=
  fold_left (fun s x => Set_add x s) l [].

(** Strictly ascending: sorted and without duplicates. *)
Fixpoint sortedDedup (l : list string) : bool :=
  match l with
  | a :: (b :: _) as t => String.ltb a b && sortedDedup t
  | _ => true
  end.

(** ** Archive store (db.ts)

    An object store is a map from primary key to record; cursors and
    [getAll] visit records in ascending key order. *)

Record PageVersion : Type := mkPageVersion {
  versionId : string;
  pv_url : string;
  pv_urlKey : string;
  title : string;
  capturedAt : Z;
  hash : string;
  contentType : string;
  html : string
}.

Record Visit : Type := mkVisit {
  visitId : string;
  v_url : string;
  v_urlKey : string;
  visitAt : Z;
  transitionType : string;
  v_tabId : Z
}.

Module Db.

Definition key_leb {V} (a b : string * V) : bool := String.leb a.1 b.1.

(** The records of a store in primary-key order. *)
Definition records {V} (store : gmap string V) : list (string * V) :=
  sort_by key_leb (map_to_list store).

Definition putPageVersion (version : PageVersion)
    (pages : gmap string PageVersion) : gmap string PageVersion :=
  <[versionId version := version]> pages.

(** [index("by_urlKey").getAll(urlKey)] *)
Definition by_urlKey_getAll (urlKey : string)
    (pages : gmap string PageVersion) : list PageVersion :=
  filter (fun p => pv_urlKey p = urlKey) (snd <$> records pages).

Definition newestFirst (a b : PageVersion) : bool := capturedAt b <=? capturedAt a.

(** [all.sort((a, b) => b.capturedAt - a.capturedAt)] *)
Definition getVersionsByUrlKey (urlKey : string)
    (pages : gmap string PageVersion) : list PageVersion :=
  sort_by newestFirst (by_urlKey_getAll urlKey pages).

Definition putVisit (visit : Visit) (visits : gmap string Visit) : gmap string Visit :=
  <[visitId visit := visit]> visits.

Definition visitAt_leb (a b : string * Visit) : bool :=
  (visitAt a.2 <? visitAt b.2) || ((visitAt a.2 =? visitAt b.2) && String.leb a.1 b.1).

(** [index("by_visitAt").openCursor(IDBKeyRange.upperBound(cutoffMs, true))]:
    the entries with [visitAt < cutoffMs], in index order. *)
Definition by_visitAt_below (cutoffMs : Z) (visits : gmap string Visit)
    : list (string * Visit) :=
  sort_by visitAt_leb (filter (fun kv => visitAt kv.2 < cutoffMs) (map_to_list visits)).

(** The cursor loop: [cursor.delete(); cursor.continue()]. *)
Definition purgeVisitsOlderThan (cutoffMs : Z) (visits : gmap string Visit)
    : gmap string Visit :=
  fold_left (fun store kv => delete kv.1 store) (by_visitAt_below cutoffMs visits) visits.

End Db.

(** ** The world the service worker runs in *)

(** What is kept under [pw_settings] in [chrome.storage.local]; any field
    may be missing. *)
Record StoredSettings : Type := mkStored {
  s_enabled : option bool;
  s_minStayMs : option Z;
  s_disabledHosts : option (list string);
  s_disabledUrlPatterns : option (list string)
}.

(** The content script's answer to [PW_GET_SNAPSHOT]. *)
Record Reply : Type := mkReply {
  ok : bool;
  r_title : option string;
  r_html : option string;
  r_error : option string
}.

(** A browser tab: its current URL (if visible to the extension) and what
    its content script would answer ([None]: no answer, [undefined]). *)
Record Tab : Type := mkTab {
  tab_url : option string;
  tab_reply : option Reply
}.

(** [timerId] is the handle [setTimeout] returned: a positive integer,
    so the test [st?.timerId] of [clearTabState] holds whenever the entry
    exists. *)
Record NavState : Type := mkNavState {
  nav_url : string;
  completedAt : Z;
  errored : bool;
  timerId : positive
}.

(** The closure handed to [setTimeout] by [onCompleted]. *)
Record TimerTask : Type := mkTask {
  task_tabId : Z;
  task_url : string;
  task_delay : Z
}.

(** Observable calls, oldest first. *)
Inductive Effect : Type :=
| ETabsGet (tabId : Z) (succeeded : bool)
| EPutVisit (visit : Visit) (succeeded : bool)
| EPurgeVisits (cutoff : Z) (succeeded : bool)
| EExecuteScript (tabId : Z) (succeeded : bool)
| ESendMessage (tabId : Z) (succeeded : bool)
| EGetVersions (urlKey : string) (succeeded : bool)
| EPutPageVersion (version : PageVersion) (succeeded : bool)
| ESetTimeout (id : positive) (task : TimerTask)
| EClearTimeout (id : positive).

Record World : Type := mkWorld {
  pw_settings : option StoredSettings;      (* chrome.storage.local *)
  pages : gmap string PageVersion;          (* IndexedDB store "pages" *)
  visits : gmap string Visit;               (* IndexedDB store "visits" *)
  navByTab : gmap Z NavState;
  erroredTabUrl : gmap Z string;
  timers : gmap positive TimerTask;         (* pending timeouts *)
  nextTimer : positive;                     (* next timeout handle *)
  tabs : gmap Z Tab;                        (* the browser's open tabs *)
  clock : Z;                                (* Date.now() *)
  uuids : nat;                              (* UUIDs drawn so far *)
  tick : nat;                               (* external calls made so far *)
  trace : list Effect
}.

Definition with_pw_settings (x : option StoredSettings) (w : World) : World :=
  mkWorld x (pages w) (visits w) (navByTab w) (erroredTabUrl w) (timers w)
          (nextTimer w) (tabs w) (clock w) (uuids w) (tick w) (trace w).
Definition with_pages (x : gmap string PageVersion) (w : World) : World :=
  mkWorld (pw_settings w) x (visits w) (navByTab w) (erroredTabUrl w) (timers w)
          (nextTimer w) (tabs w) (clock w) (uuids w) (tick w) (trace w).
Definition with_visits (x : gmap string Visit) (w : World) : World :=
  mkWorld (pw_settings w) (pages w) x (navByTab w) (erroredTabUrl w) (timers w)
          (nextTimer w) (tabs w) (clock w) (uuids w) (tick w) (trace w).
Definition with_navByTab (x : gmap Z NavState) (w : World) : World :=
  mkWorld (pw_settings w) (pages w) (visits w) x (erroredTabUrl w) (timers w)
          (nextTimer w) (tabs w) (clock w) (uuids w) (tick w) (trace w).
Definition with_erroredTabUrl (x : gmap Z string) (w : World) : World :=
  mkWorld (pw_settings w) (pages w) (visits w) (navByTab w) x (timers w)
          (nextTimer w) (tabs w) (clock w) (uuids w) (tick w) (trace w).
Definition with_timers (x : gmap positive TimerTask) (w : World) : World :=
  mkWorld (pw_settings w) (pages w) (visits w) (navByTab w) (erroredTabUrl w) x
          (nextTimer w) (tabs w) (clock w) (uuids w) (tick w) (trace w).
Definition with_nextTimer (x : positive) (w : World) : World :=
  mkWorld (pw_settings w) (pages w) (visits w) (navByTab w) (erroredTabUrl w) (timers w)
          x (tabs w) (clock w) (uuids w) (tick w) (trace w).
Definition with_tabs (x : gmap Z Tab) (w : World) : World :=
  mkWorld (pw_settings w) (pages w) (visits w) (navByTab w) (erroredTabUrl w) (timers w)
          (nextTimer w) x (clock w) (uuids w) (tick w) (trace w).
Definition with_clock (x : Z) (w : World) : World :=
  mkWorld (pw_settings w) (pages w) (visits w) (navByTab w) (erroredTabUrl w) (timers w)
          (nextTimer w) (tabs w) x (uuids w) (tick w) (trace w).
Definition with_uuids (x : nat) (w : World) : World :=
  mkWorld (pw_settings w) (pages w) (visits w) (navByTab w) (erroredTabUrl w) (timers w)
          (nextTimer w) (tabs w) (clock w) x (tick w) (trace w).
Definition with_tick (x : nat) (w : World) : World :=
  mkWorld (pw_settings w) (pages w) (visits w) (navByTab w) (erroredTabUrl w) (timers w)
          (nextTimer w) (tabs w) (clock w) (uuids w) x (trace w).
Definition emit (e : Effect) (w : World) : World :=
  mkWorld (pw_settings w) (pages w) (visits w) (navByTab w) (erroredTabUrl w) (timers w)
          (nextTimer w) (tabs w) (clock w) (uuids w) (tick w) (trace w ++ [e]).

(** ** Asynchronous code: state and exceptions

    An [async] function is a state transformer that either returns or
    throws.  A handler runs to completion before the next event is
    delivered, and the clock stands still while it runs.  The same
    handlers with the places where they are suspended, and the turns in
    which they interleave, are in the part on [Async] further down. *)

Definition M (A : Type) : Type := World -> Exc A * World.

Definition ret {A} (a : A) : M A := fun w => (Ok a, w).
Definition throw {A} (msg : string) : M A := fun w => (Throw msg, w).
Definition bind {A B} (m : M A) (k : A -> M B) : M B :=
  fun w => match m w with
           | (Ok a, w') => k a w'
           | (Throw msg, w') => (Throw msg, w')
           end.
Definition try_catch {A} (body : M A) (handler : string -> M A) : M A :=
  fun w => match body w with
           | (Ok a, w') => (Ok a, w')
           | (Throw msg, w') => handler msg w'
           end.
Definition try_finally {A} (body : M A) (cleanup : World -> World) : M A :=
  fun w => match body w with
           | (r, w') => (r, cleanup w')
           end.
Definition lift {A} (r : Exc A) : M A := fun w => (r, w).
Definition modify (f : World -> World) : M unit := fun w => (Ok tt, f w).
Definition gets {A} (f : World -> A) : M A := fun w => (Ok (f w), w).

(** A listener drops the promise of its [async] body. *)
Definition run (m : M unit) (w : World) : World := (m w).2.

Notation "'let*' x ':=' m 'in' k" := (bind m (fun x => k))
  (at level 10, x name, m at level 100, k at level 200).
Notation "m ';;' k" := (bind m (fun _ => k))
  (at level 100, k at level 200, right associativity).

(** ** The service worker (sw.ts) *)

Record Snapshot : Type := mkSnapshot { snap_title : string; snap_html : string }.

Record LogVisitArgs : Type := mkLogVisitArgs {
  a_tabId : Z;
  a_url : string;
  a_urlKey : string;
  a_transitionType : option string
}.

(** The commands used below; [PW_UNKNOWN] is a message of a type the
    listener does not know. *)
Inductive Message : Type :=
| PW_GET_SETTINGS
| PW_TOGGLE_ENABLED
| PW_TOGGLE_HOST (url : option string)
| PW_UNKNOWN.

Inductive Response : Type :=
| RespOk (settings : Settings)
| RespError (error : string).

Inductive Event : Type :=
| Committed (frameId tabId : Z) (url : string)
| ErrorOccurred (frameId tabId : Z) (url : string)
| Completed (frameId tabId : Z) (url : string)
| TabRemoved (tabId : Z)
| TimerFired (id : positive)
| MessageReceived (msg : Message).

(** [x || d] on a possibly missing string. *)
Definition orDefault (x : option string) (d : string) : string :=
  match x with
  | Some s => if String.eqb s "" then d else s
  | None => d
  end.

Definition hexDigit (n : N) : ascii :=
  match String.get (N.to_nat n) "0123456789abcdef" with
  | Some c => c
  | None => "0"%char
  end.

(** [b.toString(16)] for an element of a [Uint8Array]. *)
Definition toString16 (b : Byte.byte) : string :=
  let n := Byte.to_N b in
  if (n <? 16)%N then String (hexDigit n) EmptyString
  else String (hexDigit (n / 16)%N) (String (hexDigit (n mod 16)%N) EmptyString).

Fixpoint repeatChar (n : nat) (c : ascii) : string :=
  match n with
  | O => EmptyString
  | S n' => String c (repeatChar n' c)
  end.

Definition padStart (n : nat) (c : ascii) (s : string) : string :=
  repeatChar (n - String.length s) c +:+ s.

Section ServiceWorker.
Context `{Platform}.

Definition DAYS_30_MS : Z := 30 * 24 * 60 * 60 * 1000.

(** *** Platform calls *)

(** Every external call draws its outcome: [true] when it goes through. *)
Definition external (op : Op) : M bool :=
  fun w => (Ok (negb (fault op (tick w))), with_tick (S (tick w)) w).

Definition Date_now : M Z := gets clock.

Definition crypto_randomUUID : M string :=
  fun w => (Ok (randomUUID (uuids w)), with_uuids (S (uuids w)) w).

Definition chrome_tabs_get (tabId : Z) : M Tab :=
  let* fine := external OpTabsGet in
  let* tab := gets (fun w => tabs w !! tabId) in
  match tab with
  | Some t =>
      if fine then (modify (emit (ETabsGet tabId true)) ;; ret t)
      else (modify (emit (ETabsGet tabId false)) ;; throw "tabs.get failed")
  | None => modify (emit (ETabsGet tabId false)) ;; throw "No tab with id"
  end.

Definition chrome_scripting_executeScript (tabId : Z) : M unit :=
  let* fine := external OpExecuteScript in
  let* tab := gets (fun w => tabs w !! tabId) in
  match tab with
  | Some _ =>
      if fine then modify (emit (EExecuteScript tabId true))
      else (modify (emit (EExecuteScript tabId false)) ;; throw "Cannot access contents of the page")
  | None => modify (emit (EExecuteScript tabId false)) ;; throw "No tab with id"
  end.

Definition chrome_tabs_sendMessage (tabId : Z) : M (option Reply) :=
  let* fine := external OpSendMessage in
  let* tab := gets (fun w => tabs w !! tabId) in
  match tab with
  | Some t =>
      if fine then (modify (emit (ESendMessage tabId true)) ;; ret (tab_reply t))
      else (modify (emit (ESendMessage tabId false)) ;; throw "Could not establish connection")
  | None => modify (emit (ESendMessage tabId false)) ;; throw "Could not establish connection"
  end.

Definition setTimeout (task : TimerTask) : M positive :=
  fun w =>
    let id := nextTimer w in
    (Ok id, emit (ESetTimeout id task)
              (with_nextTimer (Pos.succ id) (with_timers (<[id := task]> (timers w)) w))).

Definition clearTimeout (id : positive) (w : World) : World :=
  emit (EClearTimeout id) (with_timers (delete id (timers w)) w).

(** *** db.ts, one transaction per call *)

Definition putVisit (visit : Visit) : M unit :=
  let* fine := external OpPutVisit in
  modify (emit (EPutVisit visit fine)) ;;
  if fine then modify (fun w => with_visits (Db.putVisit visit (visits w)) w)
  else throw "transaction aborted".

Definition purgeVisitsOlderThan (cutoffMs : Z) : M unit :=
  let* fine := external OpPurgeVisits in
  modify (emit (EPurgeVisits cutoffMs fine)) ;;
  if fine then modify (fun w => with_visits (Db.purgeVisitsOlderThan cutoffMs (visits w)) w)
  else throw "transaction aborted".

Definition putPageVersion (version : PageVersion) : M unit :=
  let* fine := external OpPutPageVersion in
  modify (emit (EPutPageVersion version fine)) ;;
  if fine then modify (fun w => with_pages (Db.putPageVersion version (pages w)) w)
  else throw "transaction aborted".

Definition getVersionsByUrlKey (urlKey : string) : M (list PageVersion) :=
  let* fine := external OpGetVersions in
  modify (emit (EGetVersions urlKey fine)) ;;
  if fine then gets (fun w => Db.getVersionsByUrlKey urlKey (pages w))
  else throw "request error".

(** *** sw.ts *)

Definition logVisit (args : LogVisitArgs) : M unit :=
  let* id := crypto_randomUUID in
  let* now := Date_now in
  let visit := {| visitId := id;
                  v_url := a_url args;
                  v_urlKey := a_urlKey args;
                  visitAt := now;
                  transitionType := orDefault (a_transitionType args) "";
                  v_tabId := a_tabId args |} in
  putVisit visit ;;
  let* now' := Date_now in
  let cutoff := now' - DAYS_30_MS in
  purgeVisitsOlderThan cutoff.

Definition normalize (stored : option StoredSettings) : Settings :=
  match stored with
  | Some s =>
      {| enabled := default true (s_enabled s);
         minStayMs := default 2000 (s_minStayMs s);
         disabledHosts := default [] (s_disabledHosts s);
         disabledUrlPatterns := default [] (s_disabledUrlPatterns s) |}
  | None => mkSettings true 2000 [] []
  end.

(** No call site of [chrome.storage.local] in [sw.ts] guards against its
    failure; reads and writes of the settings key go through. *)
Definition getSettings : M Settings := gets (fun w => normalize (pw_settings w)).

Definition setSettings (next : Settings) : M unit :=
  modify (with_pw_settings
            (Some {| s_enabled := Some (enabled next);
                     s_minStayMs := Some (minStayMs next);
                     s_disabledHosts := Some (disabledHosts next);
                     s_disabledUrlPatterns := Some (disabledUrlPatterns next) |})).

Definition shouldArchiveUrl (url : string) : M bool :=
  if negb (isHttpUrl url) then ret false
  else
    let* settings := getSettings in
    if negb (enabled settings) then ret false
    else
      let host := hostOf url in
      if nonEmpty host && includes host (disabledHosts settings) then ret false
      else
        let* matched :=
          (if (length (disabledUrlPatterns settings) =? 0)%nat then ret false
           else lift (urlMatchesPatterns url (disabledUrlPatterns settings))) in
        if matched then ret false else ret true.

(** The loop of [sha256Hex] over the digest bytes. *)
Definition hexOfBytes (bytes : list Byte.byte) : string :=
  fold_left (fun hex b => hex +:+ padStart 2 "0" (toString16 b)) bytes "".

Definition fingerprint (text : string) : string := hexOfBytes (subtle_digest text).

Definition sha256Hex (text : string) : M string := ret (fingerprint text).

Definition makeVersionId : M string := crypto_randomUUID.

Definition captureTabSnapshot (tabId : Z) : M Snapshot :=
  chrome_scripting_executeScript tabId ;;
  let* res := chrome_tabs_sendMessage tabId in
  match res with
  | Some r =>
      if ok r then
        ret {| snap_title := orDefault (r_title r) ""; snap_html := orDefault (r_html r) "" |}
      else throw (orDefault (r_error r) "Snapshot failed")
  | None => throw "Snapshot failed"
  end.

Definition archiveIfChanged (tabId : Z) (url : string) : M unit :=
  let* should := shouldArchiveUrl url in
  if negb should then ret tt
  else
    let* captured :=
      try_catch (let* s := captureTabSnapshot tabId in ret (Some s))
                (fun _ => ret None) in
    match captured with
    | None => ret tt
    | Some snap =>
        let urlKey := toUrlKey url in
        let* h := sha256Hex (snap_html snap) in
        let* versions := getVersionsByUrlKey urlKey in
        let latest := head versions in
        if match latest with Some l => String.eqb (hash l) h | None => false end
        then ret tt
        else
          let* versionId := makeVersionId in
          let* now := Date_now in
          putPageVersion {| versionId := versionId;
                            pv_url := url;
                            pv_urlKey := urlKey;
                            title := snap_title snap;
                            capturedAt := now;
                            hash := h;
                            contentType := "text/html";
                            html := snap_html snap |}
    end.

Definition clearTabState (tabId : Z) (w : World) : World :=
  let w1 := match navByTab w !! tabId with
            | Some st => clearTimeout (timerId st) w
            | None => w
            end in
  with_erroredTabUrl (delete tabId (erroredTabUrl w1))
    (with_navByTab (delete tabId (navByTab w1)) w1).

Definition onCommitted (frameId tabId : Z) (url : string) (w : World) : World :=
  if negb (frameId =? 0) then w
  else if negb (isHttpUrl url) then w
  else clearTabState tabId w.

Definition onErrorOccurred (frameId tabId : Z) (url : string) (w : World) : World :=
  if negb (frameId =? 0) then w
  else with_erroredTabUrl (<[tabId := url]> (erroredTabUrl w)) w.

(** The [try] block of the [setTimeout] callback with its [catch]. *)
Definition archiveAttempt (tabId : Z) (url : string) : M unit :=
  try_catch
    (let* tab := chrome_tabs_get tabId in
     if match tab_url tab with
        | Some u => String.eqb u "" || negb (String.eqb u url)
        | None => true
        end
     then ret tt
     else
       logVisit {| a_tabId := tabId; a_url := url; a_urlKey := toUrlKey url;
                   a_transitionType := Some "" |} ;;
       archiveIfChanged tabId url)
    (fun _ => ret tt).

(** The [setTimeout] callback: the attempt, then [finally]. *)
Definition archiveTimer (tabId : Z) (url : string) : M unit :=
  try_finally (archiveAttempt tabId url) (clearTabState tabId).

Definition onCompleted (frameId tabId : Z) (url : string) : M unit :=
  if negb (frameId =? 0) then ret tt
  else if negb (isHttpUrl url) then ret tt
  else
    let* settings := getSettings in
    let minStay := minStayMs settings in
    let* marked := gets (fun w => erroredTabUrl w !! tabId) in
    if match marked with Some u => String.eqb u url | None => false end
    then modify (clearTabState tabId)
    else
      let* should := shouldArchiveUrl url in
      if negb should then modify (clearTabState tabId)
      else
        let* id := setTimeout (mkTask tabId url minStay) in
        let* now := Date_now in
        modify (fun w => with_navByTab
                           (<[tabId := {| nav_url := url; completedAt := now;
                                          errored := false; timerId := id |}]> (navByTab w)) w).

Definition onRemoved (tabId : Z) (w : World) : World := clearTabState tabId w.

(** The host toggle of [PW_TOGGLE_HOST], from the stored list to the
    list written back. *)
Definition toggleHost (host : string) (hosts : list string) : list string :=
  let set := Set_new hosts in
  let set' := if nonEmpty host
              then (if Set_has host set then Set_delete host set else Set_add host set)
              else set in
  Array_sort set'.

Definition onMessage (msg : Message) : M Response :=
  match msg with
  | PW_GET_SETTINGS =>
      let* settings := getSettings in
      ret (RespOk settings)
  | PW_TOGGLE_ENABLED =>
      let* settings := getSettings in
      let settings' := mkSettings (negb (enabled settings)) (minStayMs settings)
                         (disabledHosts settings) (disabledUrlPatterns settings) in
      setSettings settings' ;;
      ret (RespOk settings')
  | PW_TOGGLE_HOST url =>
      let url := orDefault url "" in
      let host := hostOf url in
      let* settings := getSettings in
      let settings' := mkSettings (enabled settings) (minStayMs settings)
                         (toggleHost host (disabledHosts settings))
                         (disabledUrlPatterns settings) in
      setSettings settings' ;;
      ret (RespOk settings')
  | PW_UNKNOWN => ret (RespError "Unknown message")
  end.

(** The timeout [id] expires: it leaves the pending set and its callback
    runs. *)
Definition fireTimer (id : positive) (w : World) : World :=
  match timers w !! id with
  | Some task =>
      run (archiveTimer (task_tabId task) (task_url task))
          (with_timers (delete id (timers w)) w)
  | None => w
  end.

Definition step (e : Event) (w : World) : World :=
  match e with
  | Committed frameId tabId url => onCommitted frameId tabId url w
  | ErrorOccurred frameId tabId url => onErrorOccurred frameId tabId url w
  | Completed frameId tabId url => run (onCompleted frameId tabId url) w
  | TabRemoved tabId => onRemoved tabId w
  | TimerFired id => fireTimer id w
  | MessageReceived msg => (onMessage msg w).2
  end.

(** Events delivered one after the other, each to a handler that has run
    to its end before the next one arrives.  The deliveries in which a
    handler is suspended at an [await] while others run are those of
    [turns] below. *)
Definition steps (es : list Event) (w : World) : World :=
  fold_left (fun w e => step e w) es w.

End ServiceWorker.

(** ** Reading a trace *)

(** Read-write transactions on the archive store, attempted or completed. *)
Definition isStorageWrite (e : Effect) : bool :=
  match e with
  | EPutVisit _ _ | EPurgeVisits _ _ | EPutPageVersion _ _ => true
  | _ => false
  end.

(** The steps of snapshot capture and what follows it. *)
Definition isCaptureStep (e : Effect) : bool :=
  match e with
  | EExecuteScript _ _ | ESendMessage _ _ | EGetVersions _ _ | EPutPageVersion _ _ => true
  | _ => false
  end.

Definition isSetTimeout (e : Effect) : bool :=
  match e with
  | ESetTimeout _ _ => true
  | _ => false
  end.

Definition isClearTimeout (e : Effect) : bool :=
  match e with
  | EClearTimeout _ => true
  | _ => false
  end.

(** What [clearTabState] adds to the trace. *)
Definition cleared (tabId : Z) (w : World) : list Effect :=
  match navByTab w !! tabId with
  | Some st => [EClearTimeout (timerId st)]
  | None => []
  end.

(** Whether a pattern survives [new RegExp]. *)
Definition compiles (pattern : string) : bool :=
  match wildcardToRegExp pattern with
  | Ok _ => true
  | Throw _ => false
  end.

(** ** The wildcard contract

    The denylist contract in words: a star stands for any run of
    characters, every other character for itself, and the whole URL must
    be covered. *)
Module Contract.

Fixpoint wildcardMatch (pattern : list ascii) (url : list ascii) : bool :=
  match pattern with
  | [] => match url with [] => true | _ :: _ => false end
  | p :: pattern' =>
      if Ascii.eqb p "*" then
        (fix skip (url : list ascii) : bool :=
           wildcardMatch pattern' url
           || match url with
              | [] => false
              | _ :: url' => skip url'
              end) url
      else
        match url with
        | [] => false
        | c :: url' => Ascii.eqb p c && wildcardMatch pattern' url'
        end
  end.

Definition matches (pattern url : string) : bool :=
  wildcardMatch (list_ascii_of_string pattern) (list_ascii_of_string url).

End Contract.

(** ** A concrete platform for worked examples *)

Module Sample.

Fixpoint span (stop : ascii -> bool) (s : string) : string * string :=
  match s with
  | EmptyString => (EmptyString, EmptyString)
  | String c s' =>
      if stop c then (EmptyString, s)
      else let '(a, b) := span stop s' in (String c a, b)
  end.

Definition isAlpha (c : ascii) : bool :=
  let n := nat_of_ascii c in
  ((97 <=? n) && (n <=? 122) || (65 <=? n) && (n <=? 90))%nat.

Definition startsAlpha (s : string) : bool :=
  match s with
  | String c _ => isAlpha c
  | EmptyString => false
  end.

(** Absolute URLs of the shape [scheme://host...]; the host ends at the
    first slash, question mark or hash.  An http(s) URL needs a host. *)
Definition parseURL (s : string) : option URL :=
  let '(scheme, rest) := span (Ascii.eqb ":") s in
  match rest with
  | String _ (String "/" (String "/" after)) =>
      if startsAlpha scheme then
        let '(h, _) := span (fun c => JSRegExp.mem_ascii c "/?#") after in
        let proto := scheme +:+ ":" in
        if (String.eqb proto "http:" || String.eqb proto "https:") && String.eqb h ""
        then None
        else Some (mkURL proto h)
      else None
  | _ => None
  end.

(** A stand-in digest: the bytes of the text themselves. *)
Definition digest (text : string) : list Byte.byte := list_byte_of_string text.

Definition uuid (n : nat) : string := "uuid-" +:+ repeatChar n "i".

(** No external call fails. *)
Definition reliable : Platform :=
  {| URL_parse := parseURL; subtle_digest := digest; randomUUID := uuid;
     fault := fun _ _ => false |}.

(** Every call of kind [bad] fails. *)
Definition op_eqb (a b : Op) : bool :=
  match a, b with
  | OpTabsGet, OpTabsGet | OpPutVisit, OpPutVisit | OpPurgeVisits, OpPurgeVisits
  | OpExecuteScript, OpExecuteScript | OpSendMessage, OpSendMessage
  | OpGetVersions, OpGetVersions | OpPutPageVersion, OpPutPageVersion => true
  | _, _ => false
  end.

Definition failing (bad : Op) : Platform :=
  {| URL_parse := parseURL; subtle_digest := digest; randomUUID := uuid;
     fault := fun op _ => op_eqb op bad |}.

Definition settings0 : StoredSettings :=
  mkStored (Some true) (Some 2000) (Some []) (Some []).

Definition page (content : string) : Tab :=
  {| tab_url := Some "https://example.com/";
     tab_reply := Some (mkReply true (Some "Example") (Some content) None) |}.

(** Tab 1 shows [https://example.com/]; nothing is stored or tracked. *)
Definition fresh : World :=
  {| pw_settings := Some settings0;
     pages := ∅; visits := ∅;
     navByTab := ∅; erroredTabUrl := ∅;
     timers := ∅; nextTimer := 1%positive;
     tabs := {[ 1 := page "<html>A</html>" ]};
     clock := 1700000000000; uuids := 0; tick := 0; trace := [] |}.

(** Tab 1 has completed its navigation and its dwell timer is pending. *)
Definition dwelling : World :=
  step (H := reliable) (Completed 0 1 "https://example.com/") fresh.

(** The dwell timer fired once and the page was archived. *)
Definition archived : World := step (H := reliable) (TimerFired 1) dwelling.

(** The same page is loaded again, unchanged: timer 2 is pending. *)
Definition revisited : World :=
  steps (H := reliable)
    [Committed 0 1 "https://example.com/"; Completed 0 1 "https://example.com/"] archived.

(** While timer 1 is pending, tab 1 moves to another page. *)
Definition navigatedAway : World :=
  with_tabs {[ 1 := {| tab_url := Some "https://example.com/other"; tab_reply := None |} ]}
            dwelling.

(** While timer 1 is pending, archiving is switched off from the popup. *)
Definition switchedOff : World :=
  step (H := reliable) (MessageReceived PW_TOGGLE_ENABLED) dwelling.

(** While timer 1 is pending, the navigation of tab 1 is reported failed. *)
Definition failedLoad : World :=
  step (H := reliable) (ErrorOccurred 0 1 "https://example.com/") dwelling.

Definition localFile : string := "file:///home/user/notes.html".

(** A local file failed to load in tab 1. *)
Definition failedFile : World :=
  step (H := reliable) (ErrorOccurred 0 1 localFile) fresh.

(** Two hosts and one pattern are on the denylist. *)
Definition listed : World :=
  with_pw_settings
    (Some (mkStored (Some true) (Some 2000) (Some ["a.example"; "z.example"])
                    (Some ["https://private.example/*"])))
    fresh.

Definition visit0 : Visit :=
  {| visitId := "uuid-"; v_url := "https://example.com/";
     v_urlKey := "https://example.com/"; visitAt := 1700000000000;
     transitionType := ""; v_tabId := 1 |}.

Definition version0 : PageVersion :=
  {| versionId := "uuid-i"; pv_url := "https://example.com/";
     pv_urlKey := "https://example.com/"; title := "Example";
     capturedAt := 1700000000000; hash := "3c68746d6c3e413c2f68746d6c3e";
     contentType := "text/html"; html := "<html>A</html>" |}.

Definition task0 : TimerTask := mkTask 1 "https://example.com/" 2000.

End Sample.

(** * More of the service worker, the archive store and the popup *)

(** ** Numbers of the host language

    A number is a finite value (taken as a rational), an infinity or NaN. *)

Inductive Num : Type :=
| NaN
| PosInf
| NegInf
| Finite (q : QArith_base.Q).

Definition ofZ (z : Z) : Num := Finite (QArith_base.inject_Z z).

Definition Number_isFinite (x : Num) : bool :=
  match x with
  | Finite _ => true
  | _ => false
  end.

Definition Math_floor (x : Num) : Num :=
  match x with
  | Finite q => ofZ (Qround.Qfloor q)
  | _ => x
  end.

Definition Math_max (a b : Num) : Num :=
  match a, b with
  | NaN, _ | _, NaN => NaN
  | PosInf, _ | _, PosInf => PosInf
  | NegInf, x | x, NegInf => x
  | Finite p, Finite q => if QArith_base.Qle_bool p q then b else a
  end.

(** [a >= b]; false as soon as one side is NaN. *)
Definition Num_ge (a b : Num) : bool :=
  match a, b with
  | NaN, _ | _, NaN => false
  | PosInf, _ | _, NegInf => true
  | NegInf, _ | _, PosInf => false
  | Finite p, Finite q => QArith_base.Qle_bool q p
  end.

(** [a < b]; false as soon as one side is NaN. *)
Definition Num_lt (a b : Num) : bool :=
  match a, b with
  | NaN, _ | _, NaN => false
  | PosInf, _ | _, NegInf => false
  | NegInf, _ | _, PosInf => true
  | Finite p, Finite q => negb (QArith_base.Qle_bool q p)
  end.

(** The integer a number holds once it went through [Math.floor]. *)
Definition integerOf (x : Num) (otherwise : Z) : Z :=
  match x with
  | Finite q => Qround.Qfloor q
  | _ => otherwise
  end.

(** ** Strings of the host language *)

(** WhiteSpace and LineTerminator code units below 256: TAB, LF, VT, FF,
    CR, space and the no-break space. *)
Definition isWhiteSpace (c : ascii) : bool :=
  existsb (Nat.eqb (nat_of_ascii c)) [9; 10; 11; 12; 13; 32; 160]%nat.

Fixpoint trimStart (s : string) : string :=
  match s with
  | EmptyString => EmptyString
  | String c s' => if isWhiteSpace c then trimStart s' else s
  end.

Fixpoint trimEnd (s : string) : string :=
  match s with
  | EmptyString => EmptyString
  | String c s' =>
      match trimEnd s' with
      | EmptyString => if isWhiteSpace c then EmptyString else String c EmptyString
      | rest => String c rest
      end
  end.

Fixpoint allWhiteSpace (s : string) : bool :=
  match s with
  | EmptyString => true
  | String c s' => isWhiteSpace c && allWhiteSpace s'
  end.

(** [s.trim()] *)
Definition trim (s : string) : string := trimEnd (trimStart s).

(** [s.replaceAll(c, replacement)] for a one-character search string. *)
Fixpoint replaceAll (c : ascii) (replacement : string) (s : string) : string :=
  match s with
  | EmptyString => EmptyString
  | String d s' =>
      if Ascii.eqb d c then replacement +:+ replaceAll c replacement s'
      else String d (replaceAll c replacement s')
  end.

(** ** The remaining popup commands (sw.ts)

    Each function is the branch of the [onMessage] listener for its
    message type and returns what [sendResponse] receives. *)

(** [PW_SET_MIN_STAY_MS]; [v] is [Number(msg.minStayMs)]. *)
Definition onSetMinStayMs (v : Num) : M Response :=
  let* settings := getSettings in
  let settings' :=
    if Number_isFinite v
    then mkSettings (enabled settings)
           (integerOf (Math_max (ofZ 0) (Math_floor v)) (minStayMs settings))
           (disabledHosts settings) (disabledUrlPatterns settings)
    else settings in
  setSettings settings' ;;
  ret (RespOk settings').

(** [PW_ADD_URL_PATTERN] *)
Definition onAddUrlPattern (pattern : option string) : M Response :=
  let pattern := trim (orDefault pattern "") in
  let* settings := getSettings in
  (if nonEmpty pattern
   then
     let set := Set_add pattern (Set_new (disabledUrlPatterns settings)) in
     setSettings (mkSettings (enabled settings) (minStayMs settings)
                    (disabledHosts settings) (Array_sort set))
   else ret tt) ;;
  let* updated := getSettings in
  ret (RespOk updated).

(** [PW_REMOVE_URL_PATTERN] *)
Definition onRemoveUrlPattern (pattern : option string) : M Response :=
  let pattern := trim (orDefault pattern "") in
  let* settings := getSettings in
  let settings' :=
    mkSettings (enabled settings) (minStayMs settings) (disabledHosts settings)
      (filter (fun p => p <> pattern) (disabledUrlPatterns settings)) in
  setSettings settings' ;;
  ret (RespOk settings').

(** ** The rest of the archive store (db.ts)

    Each function is what its transaction does when it completes. *)

Definition getVersion (versionId : string) (pages : gmap string PageVersion)
    : option PageVersion :=
  pages !! versionId.

Definition deleteVersion (versionId : string) (pages : gmap string PageVersion)
    : gmap string PageVersion :=
  delete versionId pages.

Record VisitsPage : Type := mkVisitsPage {
  rows : list Visit;
  nextBefore : option Z
}.

(** Whether [visitAt] lies in the cursor's range: below the open upper
    bound, or anywhere when there is none. *)
Definition inCursorRange (before : option Num) (visitAt : Z) : bool :=
  match before with
  | Some bound => Num_lt (ofZ visitAt) bound
  | None => true
  end.

(** [index("by_visitAt").openCursor(range, "prev")]: the entries of the
    range from the greatest index key down. *)
Definition by_visitAt_prev (before : option Num) (visits : gmap string Visit)
    : list (string * Visit) :=
  reverse (sort_by Db.visitAt_leb
             (filter (fun kv => inCursorRange before (visitAt kv.2) = true)
                     (map_to_list visits))).

(** The cursor callback: stop at the end or once [rows.length >= limit],
    otherwise push the row and continue. *)
Fixpoint collectRows (limit : Num) (cursor : list (string * Visit)) (rows : list Visit)
    : list Visit :=
  match cursor with
  | [] => rows
  | kv :: rest =>
      if Num_ge (ofZ (Z.of_nat (length rows))) limit then rows
      else collectRows limit rest (rows ++ [kv.2])
  end.

(** [IDBKeyRange.upperBound] rejects NaN, which is not a valid key. *)
Definition getVisitsPage (limit before : option Num) (visits : gmap string Visit)
    : Exc VisitsPage :=
  let limit := Math_max (ofZ 1) (Math_floor (default (ofZ 50) limit)) in
  match before with
  | Some NaN => Throw "DataError"
  | _ =>
      let found := collectRows limit (by_visitAt_prev before visits) [] in
      Ok {| rows := found; nextBefore := visitAt <$> last found |}
  end.

(** ** The popup's markup escaping (popup.js) *)

Definition escapeHtml (s : option string) : string :=
  replaceAll "'" "&#039;"
    (replaceAll "034" "&quot;"
       (replaceAll ">" "&gt;"
          (replaceAll "<" "&lt;"
             (replaceAll "&" "&amp;" (orDefault s ""))))).

(** ** Shapes of wildcard patterns *)

Definition hasStar (pattern : string) : bool := JSRegExp.mem_ascii "*" pattern.

Definition startsWithStar (pattern : string) : bool :=
  match pattern with
  | String c _ => Ascii.eqb c "*"
  | EmptyString => false
  end.

Fixpoint hasDoubleStar (pattern : string) : bool :=
  match pattern with
  | EmptyString => false
  | String c rest =>
      match rest with
      | String d _ => (Ascii.eqb c "*" && Ascii.eqb d "*") || hasDoubleStar rest
      | EmptyString => false
      end
  end.

(** Every star has a character to repeat; [prev] tells whether one stands
    right before the pattern. *)
Fixpoint starsRepeatable (prev : bool) (pattern : string) : bool :=
  match pattern with
  | EmptyString => true
  | String c rest =>
      if Ascii.eqb c "*" then prev && starsRepeatable false rest
      else starsRepeatable true rest
  end.

(** One pattern against one URL, as in the body of the loop of
    [urlMatchesPatterns]. *)
Definition patternMatches (url pattern : string) : bool :=
  match wildcardToRegExp pattern with
  | Ok re => JSRegExp.test re url
  | Throw _ => false
  end.

Definition literalTerms (s : string) : list JSRegExp.term :=
  (fun c => JSRegExp.One (JSRegExp.Lit c)) <$> list_ascii_of_string s.

Definition isOk {A} (r : Exc A) : bool :=
  match r with
  | Ok _ => true
  | Throw _ => false
  end.

Definition headIsAtom (acc : list JSRegExp.term) : bool :=
  match acc with
  | JSRegExp.One _ :: _ => true
  | _ => false
  end.

(** ** Tracked timers *)

(** The timer an entry of [navByTab] holds is pending and is the one
    scheduled for that tab and URL. *)
Definition tracksTimer (w : World) (tabId : Z) (st : NavState) : bool :=
  match timers w !! timerId st with
  | Some task => (task_tabId task =? tabId) && String.eqb (task_url task) (nav_url st)
  | None => false
  end.

(** Every entry of [navByTab] tracks its timer, and the handles in use are
    below the next one [setTimeout] hands out. *)
Definition tracked (w : World) : Prop :=
  map_Forall (fun tabId st => tracksTimer w tabId st = true) (navByTab w)
  /\ map_Forall (fun id _ => (id < nextTimer w)%positive) (timers w).

(** ** Pages of the visit log *)

(** Not older than the row that follows. *)
Definition newerFirst (a b : Visit) : Prop := visitAt b <= visitAt a.

(** How many rows a page takes at most; [None] when the loop never stops
    on the count. *)
Definition pageSize (limit : option Num) : option nat :=
  match Math_max (ofZ 1) (Math_floor (default (ofZ 50) limit)) with
  | Finite q => Some (Z.to_nat (Qround.Qfloor q))
  | _ => None
  end.

(** ** Reading hex and markup back *)

(** The two characters [sha256Hex] appends for one byte. *)
Definition hexOfByte (b : Byte.byte) : string := padStart 2 "0" (toString16 b).

Definition isHexDigit (c : ascii) : bool := JSRegExp.mem_ascii c "0123456789abcdef".

Fixpoint allChars (p : ascii -> bool) (s : string) : bool :=
  match s with
  | EmptyString => true
  | String c s' => p c && allChars p s'
  end.

(** What the five [replaceAll] calls of [escapeHtml] make of one character. *)
Definition escapeChar (c : ascii) : string :=
  if Ascii.eqb c "&" then "&amp;"
  else if Ascii.eqb c "<" then "&lt;"
  else if Ascii.eqb c ">" then "&gt;"
  else if Ascii.eqb c "034" then "&quot;"
  else if Ascii.eqb c "'" then "&#039;"
  else String c EmptyString.

Fixpoint escapeChars (s : string) : string :=
  match s with
  | EmptyString => EmptyString
  | String c s' => escapeChar c +:+ escapeChars s'
  end.

(** The characters that open or close a tag or an attribute value. *)
Definition isMarkup (c : ascii) : bool :=
  Ascii.eqb c "<" || Ascii.eqb c ">" || Ascii.eqb c "034" || Ascii.eqb c "'".

(** The five [replaceAll] calls of [escapeHtml] on a text at hand. *)
Definition escapeAll (s : string) : string :=
  replaceAll "'" "&#039;"
    (replaceAll "034" "&quot;"
       (replaceAll ">" "&gt;"
          (replaceAll "<" "&lt;"
             (replaceAll "&" "&amp;" s)))).


(** Reads and writes of the pages store. *)
Definition touchesPages (e : Effect) : bool :=
  match e with
  | EGetVersions _ _ | EPutPageVersion _ _ => true
  | _ => false
  end.

(** * Handlers with their awaits

    [M] runs an [async] function in one piece.  In the browser a handler
    is suspended at every [await], and before it continues other
    listeners may run and other suspended handlers may continue.  [Async]
    keeps the places where a handler is suspended: a computation is over
    ([Return]), or runs a piece of synchronous code and goes on ([Sync]),
    or issues an operation, is suspended, and goes on in a later turn
    with the outcome ([Await]). *)

Inductive Async (A : Type) : Type :=
| Return (r : Exc A)
| Sync {X : Type} (op : M X) (k : Exc X -> Async A)
| Await {X : Type} (op : M X) (k : Exc X -> Async A).

Arguments Return {A} r.
Arguments Sync {A X} op k.
Arguments Await {A X} op k.

Fixpoint bindA {A B} (p : Async A) (f : A -> Async B) : Async B :=
  match p with
  | Return (Ok a) => f a
  | Return (Throw msg) => Return (Throw msg)
  | Sync op k => Sync op (fun r => bindA (k r) f)
  | Await op k => Await op (fun r => bindA (k r) f)
  end.

Fixpoint try_catchA {A} (body : Async A) (handler : string -> Async A) : Async A :=
  match body with
  | Return (Ok a) => Return (Ok a)
  | Return (Throw msg) => handler msg
  | Sync op k => Sync op (fun r => try_catchA (k r) handler)
  | Await op k => Await op (fun r => try_catchA (k r) handler)
  end.

Fixpoint try_finallyA {A} (body : Async A) (cleanup : World -> World) : Async A :=
  match body with
  | Return r => Sync (modify cleanup) (fun _ => Return r)
  | Sync op k => Sync op (fun r => try_finallyA (k r) cleanup)
  | Await op k => Await op (fun r => try_finallyA (k r) cleanup)
  end.

(** Synchronous code. *)
Definition sync {X} (op : M X) : Async X := Sync op Return.

(** [await] of a promise of the platform: the operation is issued, and the
    handler goes on in a later turn. *)
Definition await {X} (op : M X) : Async X := Await op Return.

(** [await] of a call to an [async] function of the file: the callee runs
    with its own awaits, and the caller goes on in a later turn, with the
    value returned or the error thrown. *)
Fixpoint awaitCall {A} (callee : Async A) : Async A :=
  match callee with
  | Return r => Await (lift r) Return
  | Sync op k => Sync op (fun r => awaitCall (k r))
  | Await op k => Await op (fun r => awaitCall (k r))
  end.

Notation "'let!' x ':=' p 'in' k" := (bindA p (fun x => k))
  (at level 10, x name, p at level 100, k at level 200).
Notation "p ';;!' k" := (bindA p (fun _ => k))
  (at level 100, k at level 200, right associativity).

(** A handler run in one piece. *)
Fixpoint complete {A} (p : Async A) (w : World) : Exc A * World :=
  match p with
  | Return r => (r, w)
  | Sync op k => let (r, w') := op w in complete (k r) w'
  | Await op k => let (r, w') := op w in complete (k r) w'
  end.

(** One turn of a handler: it runs until it is over or suspended; what is
    returned is the rest of it. *)
Fixpoint advance {A} (p : Async A) (w : World) : Async A * World :=
  match p with
  | Return r => (Return r, w)
  | Sync op k => let (r, w') := op w in advance (k r) w'
  | Await op k => let (r, w') := op w in (k r, w')
  end.

Section Turns.
Context `{Platform}.

(** ** db.ts *)

(** [await openDb()]; a database that cannot be opened shows as the
    failure of the transaction. *)
Definition openDb : Async unit := Return (Ok tt).

Definition putVisitA (visit : Visit) : Async unit :=
  awaitCall openDb ;;! await (putVisit visit).

Definition purgeVisitsOlderThanA (cutoffMs : Z) : Async unit :=
  awaitCall openDb ;;! await (purgeVisitsOlderThan cutoffMs).

Definition putPageVersionA (version : PageVersion) : Async unit :=
  awaitCall openDb ;;! await (putPageVersion version).

Definition getVersionsByUrlKeyA (urlKey : string) : Async (list PageVersion) :=
  awaitCall openDb ;;! await (getVersionsByUrlKey urlKey).

(** ** sw.ts *)

Definition logVisitA (args : LogVisitArgs) : Async unit :=
  let! id := sync crypto_randomUUID in
  let! now := sync Date_now in
  let visit := {| visitId := id;
                  v_url := a_url args;
                  v_urlKey := a_urlKey args;
                  visitAt := now;
                  transitionType := orDefault (a_transitionType args) "";
                  v_tabId := a_tabId args |} in
  awaitCall (putVisitA visit) ;;!
  let! now' := sync Date_now in
  let cutoff := now' - DAYS_30_MS in
  awaitCall (purgeVisitsOlderThanA cutoff).

Definition getSettingsA : Async Settings := await getSettings.

Definition setSettingsA (next : Settings) : Async unit := await (setSettings next).

Definition shouldArchiveUrlA (url : string) : Async bool :=
  if negb (isHttpUrl url) then Return (Ok false)
  else
    let! settings := awaitCall getSettingsA in
    if negb (enabled settings) then Return (Ok false)
    else
      let host := hostOf url in
      if nonEmpty host && includes host (disabledHosts settings) then Return (Ok false)
      else
        let! matched :=
          sync (if (length (disabledUrlPatterns settings) =? 0)%nat then ret false
                else lift (urlMatchesPatterns url (disabledUrlPatterns settings))) in
        if matched then Return (Ok false) else Return (Ok true).

Definition sha256HexA (text : string) : Async string := await (sha256Hex text).

Definition captureTabSnapshotA (tabId : Z) : Async Snapshot :=
  await (chrome_scripting_executeScript tabId) ;;!
  let! res := await (chrome_tabs_sendMessage tabId) in
  match res with
  | Some r =>
      if ok r then
        Return (Ok {| snap_title := orDefault (r_title r) "";
                      snap_html := orDefault (r_html r) "" |})
      else Return (Throw (orDefault (r_error r) "Snapshot failed"))
  | None => Return (Throw "Snapshot failed")
  end.

Definition archiveIfChangedA (tabId : Z) (url : string) : Async unit :=
  let! should := awaitCall (shouldArchiveUrlA url) in
  if negb should then Return (Ok tt)
  else
    let! captured :=
      try_catchA (let! s := awaitCall (captureTabSnapshotA tabId) in Return (Ok (Some s)))
                 (fun _ => Return (Ok None)) in
    match captured with
    | None => Return (Ok tt)
    | Some snap =>
        let urlKey := toUrlKey url in
        let! h := awaitCall (sha256HexA (snap_html snap)) in
        let! versions := awaitCall (getVersionsByUrlKeyA urlKey) in
        let latest := head versions in
        if match latest with Some l => String.eqb (hash l) h | None => false end
        then Return (Ok tt)
        else
          let! versionId := sync makeVersionId in
          let! now := sync Date_now in
          awaitCall (putPageVersionA {| versionId := versionId;
                                        pv_url := url;
                                        pv_urlKey := urlKey;
                                        title := snap_title snap;
                                        capturedAt := now;
                                        hash := h;
                                        contentType := "text/html";
                                        html := snap_html snap |})
    end.

(** The [try] block of the [setTimeout] callback with its [catch]. *)
Definition archiveAttemptA (tabId : Z) (url : string) : Async unit :=
  try_catchA
    (let! tab := await (chrome_tabs_get tabId) in
     if match tab_url tab with
        | Some u => String.eqb u "" || negb (String.eqb u url)
        | None => true
        end
     then Return (Ok tt)
     else
       awaitCall (logVisitA {| a_tabId := tabId; a_url := url; a_urlKey := toUrlKey url;
                               a_transitionType := Some "" |}) ;;!
       awaitCall (archiveIfChangedA tabId url))
    (fun _ => Return (Ok tt)).

(** The [setTimeout] callback: the attempt, then [finally]. *)
Definition archiveTimerA (tabId : Z) (url : string) : Async unit :=
  try_finallyA (archiveAttemptA tabId url) (clearTabState tabId).

Definition onCompletedA (frameId tabId : Z) (url : string) : Async unit :=
  if negb (frameId =? 0) then Return (Ok tt)
  else if negb (isHttpUrl url) then Return (Ok tt)
  else
    let! settings := awaitCall getSettingsA in
    let minStay := minStayMs settings in
    let! marked := sync (gets (fun w => erroredTabUrl w !! tabId)) in
    if match marked with Some u => String.eqb u url | None => false end
    then sync (modify (clearTabState tabId))
    else
      let! should := awaitCall (shouldArchiveUrlA url) in
      if negb should then sync (modify (clearTabState tabId))
      else
        let! id := sync (setTimeout (mkTask tabId url minStay)) in
        let! now := sync Date_now in
        sync (modify (fun w => with_navByTab
                                 (<[tabId := {| nav_url := url; completedAt := now;
                                                errored := false; timerId := id |}]>
                                    (navByTab w)) w)).

Definition onMessageA (msg : Message) : Async Response :=
  match msg with
  | PW_GET_SETTINGS =>
      let! settings := awaitCall getSettingsA in
      Return (Ok (RespOk settings))
  | PW_TOGGLE_ENABLED =>
      let! settings := awaitCall getSettingsA in
      let settings' := mkSettings (negb (enabled settings)) (minStayMs settings)
                         (disabledHosts settings) (disabledUrlPatterns settings) in
      awaitCall (setSettingsA settings') ;;!
      Return (Ok (RespOk settings'))
  | PW_TOGGLE_HOST url =>
      let url := orDefault url "" in
      let host := hostOf url in
      let! settings := awaitCall getSettingsA in
      let settings' := mkSettings (enabled settings) (minStayMs settings)
                         (toggleHost host (disabledHosts settings))
                         (disabledUrlPatterns settings) in
      awaitCall (setSettingsA settings') ;;!
      Return (Ok (RespOk settings'))
  | PW_UNKNOWN => Return (Ok (RespError "Unknown message"))
  end.

Definition onSetMinStayMsA (v : Num) : Async Response :=
  let! settings := awaitCall getSettingsA in
  let settings' :=
    if Number_isFinite v
    then mkSettings (enabled settings)
           (integerOf (Math_max (ofZ 0) (Math_floor v)) (minStayMs settings))
           (disabledHosts settings) (disabledUrlPatterns settings)
    else settings in
  awaitCall (setSettingsA settings') ;;!
  Return (Ok (RespOk settings')).

Definition onAddUrlPatternA (pattern : option string) : Async Response :=
  let pattern := trim (orDefault pattern "") in
  let! settings := awaitCall getSettingsA in
  (if nonEmpty pattern
   then
     let set := Set_add pattern (Set_new (disabledUrlPatterns settings)) in
     awaitCall (setSettingsA (mkSettings (enabled settings) (minStayMs settings)
                                (disabledHosts settings) (Array_sort set)))
   else Return (Ok tt)) ;;!
  let! updated := awaitCall getSettingsA in
  Return (Ok (RespOk updated)).

Definition onRemoveUrlPatternA (pattern : option string) : Async Response :=
  let pattern := trim (orDefault pattern "") in
  let! settings := awaitCall getSettingsA in
  let settings' :=
    mkSettings (enabled settings) (minStayMs settings) (disabledHosts settings)
      (filter (fun p => p <> pattern) (disabledUrlPatterns settings)) in
  awaitCall (setSettingsA settings') ;;!
  Return (Ok (RespOk settings')).

(** The timer [id] expires: it leaves the pending set, and its callback,
    if it was pending, is what runs. *)
Definition expire (id : positive) : M (option TimerTask) :=
  fun w => match timers w !! id with
           | Some task => (Ok (Some task), with_timers (delete id (timers w)) w)
           | None => (Ok None, w)
           end.

(** What happens from outside: an event of the browser reaches the
    service worker, or one of the remaining popup commands does; time
    passes and tabs change; the archive page deletes a version. *)
Inductive Arrival : Type :=
| Browser (e : Event)
| SetMinStayMs (v : Num)
| AddUrlPattern (pattern : option string)
| RemoveUrlPattern (pattern : option string)
| Elsewhere (tabs : gmap Z Tab) (now : Z)
| ArchivePageDeletes (versionId : string).

(** The listener an arrival starts.  A listener's own promise is dropped. *)
Definition listener (a : Arrival) : Async unit :=
  match a with
  | Browser (Committed frameId tabId url) => sync (modify (onCommitted frameId tabId url))
  | Browser (ErrorOccurred frameId tabId url) =>
      sync (modify (onErrorOccurred frameId tabId url))
  | Browser (Completed frameId tabId url) => onCompletedA frameId tabId url
  | Browser (TabRemoved tabId) => sync (modify (onRemoved tabId))
  | Browser (TimerFired id) =>
      let! task := sync (expire id) in
      match task with
      | Some task => archiveTimerA (task_tabId task) (task_url task)
      | None => Return (Ok tt)
      end
  | Browser (MessageReceived msg) => onMessageA msg ;;! Return (Ok tt)
  | SetMinStayMs v => onSetMinStayMsA v ;;! Return (Ok tt)
  | AddUrlPattern pattern => onAddUrlPatternA pattern ;;! Return (Ok tt)
  | RemoveUrlPattern pattern => onRemoveUrlPatternA pattern ;;! Return (Ok tt)
  | Elsewhere tabs now => sync (modify (fun w => with_tabs tabs (with_clock now w)))
  | ArchivePageDeletes versionId =>
      sync (modify (fun w => with_pages (deleteVersion versionId (pages w)) w))
  end.

(** The service worker between two turns: its world and the handlers that
    are suspended, finished ones included. *)
Record System : Type := mkSystem {
  sys_world : World;
  sys_suspended : list (Async unit)
}.

(** A turn of the event loop: a listener starts and runs up to its first
    suspension, or a suspended handler goes on up to its next one. *)
Inductive Turn : Type :=
| Arrive (a : Arrival)
| Continue (i : nat).

Definition turn (t : Turn) (s : System) : System :=
  match t with
  | Arrive a =>
      let (rest, w') := advance (listener a) (sys_world s) in
      mkSystem w' (sys_suspended s ++ [rest])
  | Continue i =>
      match sys_suspended s !! i with
      | Some p =>
          let (rest, w') := advance p (sys_world s) in
          mkSystem w' (<[i := rest]> (sys_suspended s))
      | None => s
      end
  end.

Definition turns (ts : list Turn) (s : System) : System :=
  fold_left (fun s t => turn t s) ts s.

End Turns.

(** ** Timers and the tabs that hold them *)

(** The timer an entry of [navByTab] holds, while it is pending, is the one
    scheduled for that tab and URL. *)
Definition ownsTimer (w : World) (tabId : Z) (st : NavState) : bool :=
  match timers w !! timerId st with
  | Some task => (task_tabId task =? tabId) && String.eqb (task_url task) (nav_url st)
  | None => true
  end.

(** Every tab owns the timer it holds, and all handles in use, pending or
    held by a tab, are below the next one [setTimeout] hands out. *)
Definition tabsOwnTimers (w : World) : Prop :=
  map_Forall (fun tabId st => ownsTimer w tabId st = true
                              /\ (timerId st < nextTimer w)%positive) (navByTab w)
  /\ map_Forall (fun id _ => (id < nextTimer w)%positive) (timers w).

(** ** What holds at every suspension *)

(** [p], started in [w], reaches each of its suspensions in a world with
    [I] and ends in one with [Q], provided [I] holds whenever it goes on. *)
Fixpoint wp (I : World -> Prop) {A} (p : Async A) (Q : Exc A -> World -> Prop)
    (w : World) : Prop :=
  match p with
  | Return r => Q r w
  | Sync op k => let (r, w') := op w in wp I (k r) Q w'
  | Await op k => let (r, w') := op w in I w' /\ forall w'', I w'' -> wp I (k r) Q w''
  end.

(** Every operation of [p] keeps [I]. *)
Fixpoint gentle (I : World -> Prop) {A} (p : Async A) : Prop :=
  match p with
  | Return _ => True
  | Sync op k => (forall w, I w -> I (op w).2) /\ forall r, gentle I (k r)
  | Await op k => (forall w, I w -> I (op w).2) /\ forall r, gentle I (k r)
  end.

(** An operation that leaves timers and [navByTab] alone. *)
Definition quiet {X} (op : M X) : Prop :=
  forall w, navByTab (op w).2 = navByTab w
            /\ timers (op w).2 = timers w
            /\ nextTimer (op w).2 = nextTimer w.

(** Run without a suspension, [p] is [m]. *)
Definition inOnePiece {A} (p : Async A) (m : M A) : Prop := forall w, complete p w = m w.


(** ** Further sample data *)

(** A visit of the sample page at a given time. *)
Definition visitAtTime (id : string) (at_ : Z) : Visit :=
  mkVisit id "https://example.com/" "https://example.com/" at_ "" 1.

(** Three visits, 100 time units apart. *)
Definition threeVisits : gmap string Visit :=
  <[ "c" := visitAtTime "c" 300 ]>
    (<[ "b" := visitAtTime "b" 200 ]> (<[ "a" := visitAtTime "a" 100 ]> ∅)).

(** The sample page is loaded again five seconds after it was archived. *)
Definition laterVisit : World := with_clock 1700000005000 Sample.revisited.

(** The same page is loaded again with other content: timer 2 is pending,
    the stored version has the old content. *)
Definition changedPage : World :=
  with_tabs {[ 1 := Sample.page "<html>B</html>" ]} Sample.revisited.

(** * Properties *)

(** ** The order on strings used by [Array.prototype.sort] *)



Lemma ascii_compare_Lt a b : Ascii.compare a b = Lt <-> (N_of_ascii a < N_of_ascii b)%N.
Proof. unfold Ascii.compare. apply N.compare_lt_iff. Qed.

Lemma ascii_compare_Eq a b : Ascii.compare a b = Eq <-> a = b.
Proof.
  split; [apply Ascii.compare_eq_iff|].
  intros ->. unfold Ascii.compare. apply N.compare_refl.
Qed.

Lemma string_compare_refl s : String.compare s s = Eq.
Proof.
  induction s as [|c s IH]; [done|]. simpl.
  by rewrite (proj2 (ascii_compare_Eq c c) eq_refl).
Qed.

Lemma string_compare_Lt_trans a b c :
  String.compare a b = Lt -> String.compare b c = Lt -> String.compare a c = Lt.
Proof.
  revert b c. induction a as [|x a IH]; intros [|y b] [|z c]; simpl; try done.
  destruct (Ascii.compare x y) eqn:Hxy; try done.
  - apply ascii_compare_Eq in Hxy as ->.
    destruct (Ascii.compare y z); try done. apply IH.
  - intros _. destruct (Ascii.compare y z) eqn:Hyz; try done.
    + apply ascii_compare_Eq in Hyz as <-. by rewrite Hxy.
    + intros _. apply ascii_compare_Lt in Hxy. apply ascii_compare_Lt in Hyz.
      assert (Hxz : Ascii.compare x z = Lt).
      { apply ascii_compare_Lt. eapply N.lt_trans; eassumption. }
      by rewrite Hxz.
Qed.

Lemma leb_cases a b : String.leb a b = true <-> a = b \/ String.ltb a b = true.
Proof.
  unfold String.leb, String.ltb.
  destruct (String.compare a b) eqn:E; split; try done; auto.
  - intros _. left. by apply String.compare_eq_iff.
  - intros [->|?]; [|done]. by rewrite string_compare_refl in E.
Qed.

Lemma ltb_irrefl a : String.ltb a a = false.
Proof. unfold String.ltb. by rewrite string_compare_refl. Qed.

Lemma ltb_trans a b c :
  String.ltb a b = true -> String.ltb b c = true -> String.ltb a c = true.
Proof.
  unfold String.ltb.
  destruct (String.compare a b) eqn:E1; try done.
  destruct (String.compare b c) eqn:E2; try done.
  by rewrite (string_compare_Lt_trans _ _ _ E1 E2).
Qed.

Lemma ltb_leb a b : String.ltb a b = true -> String.leb a b = true.
Proof. intros. apply leb_cases. by right. Qed.

#[local] Instance leb_transitive : Transitive (rel_of String.leb).
Proof.
  intros a b c [->|Hab]%leb_cases [->|Hbc]%leb_cases; apply leb_cases; auto.
  right. by eapply ltb_trans.
Qed.

#[local] Instance leb_antisymmetric : AntiSymm (=) (rel_of String.leb).
Proof. intros a b. apply String.leb_antisym. Qed.

#[local] Instance leb_is_total : Total (rel_of String.leb).
Proof. intros a b. apply String.leb_total. Qed.

(** ** The stable sort *)

Section SortBy.
Context {A : Type} (le : A -> A -> bool).

Lemma insert_by_Permutation x l : insert_by le x l ≡ₚ x :: l.
Proof.
  induction l as [|y l IH]; simpl; [done|].
  destruct (le x y); [done|]. rewrite IH. apply Permutation_swap.
Qed.

Lemma sort_by_Permutation l : sort_by le l ≡ₚ l.
Proof.
  induction l as [|x l IH]; simpl; [done|].
  unfold sort_by in *. simpl. by rewrite insert_by_Permutation, IH.
Qed.

Lemma elem_of_sort_by x l : x ∈ sort_by le l <-> x ∈ l.
Proof. by rewrite sort_by_Permutation. Qed.

Lemma insert_by_HdRel a x l :
  (rel_of le) a x -> HdRel (rel_of le) a l -> HdRel (rel_of le) a (insert_by le x l).
Proof.
  intros Hax Hl. destruct l as [|y l]; simpl; [by constructor|].
  destruct (le x y); constructor; [done|]. by inversion Hl.
Qed.

Lemma insert_by_Sorted `{!Total (rel_of le)} x l :
  Sorted (rel_of le) l -> Sorted (rel_of le) (insert_by le x l).
Proof.
  induction 1 as [|y l Hl IH Hhd]; simpl; [by repeat constructor|].
  destruct (le x y) eqn:Hxy.
  - constructor; [by constructor|]. by constructor.
  - constructor; [done|]. apply insert_by_HdRel; [|done].
    destruct (total (rel_of le) x y) as [Hc|Hc]; [|done]. unfold rel_of in Hc. congruence.
Qed.

Lemma sort_by_Sorted `{!Total (rel_of le)} l : Sorted (rel_of le) (sort_by le l).
Proof.
  induction l as [|x l IH]; [constructor|].
  unfold sort_by in *. simpl. by apply insert_by_Sorted.
Qed.

(** Inserting in front of a list whose head it precedes. *)
Lemma insert_by_head x l : HdRel (rel_of le) x l -> insert_by le x l = x :: l.
Proof. destruct 1 as [|y l Hxy]; simpl; [done|]. unfold rel_of in Hxy. by rewrite Hxy. Qed.

Lemma sort_by_sorted_id l : Sorted (rel_of le) l -> sort_by le l = l.
Proof.
  induction 1 as [|x l Hl IH Hhd]; [done|].
  unfold sort_by in *. simpl. rewrite IH. by apply insert_by_head.
Qed.

End SortBy.

Lemma Array_sort_unique (l s : list string) :
  Sorted (rel_of String.leb) s -> s ≡ₚ l -> Array_sort l = s.
Proof.
  intros Hs Hp. apply (Sorted_unique (rel_of String.leb)); [apply (sort_by_Sorted String.leb)|done|].
  unfold Array_sort. by rewrite sort_by_Permutation.
Qed.

Lemma sortedDedup_cons a l :
  sortedDedup (a :: l) = true <-> HdRel (fun x y => String.ltb x y = true) a l /\ sortedDedup l = true.
Proof.
  destruct l as [|b l]; simpl.
  - split; [intros _; split; [constructor|done]|done].
  - rewrite andb_true_iff. split.
    + intros [? ?]. split; [by constructor|done].
    + intros [Hh ?]. split; [by inversion Hh|done].
Qed.

Lemma sortedDedup_Sorted l :
  sortedDedup l = true <-> Sorted (fun x y => String.ltb x y = true) l.
Proof.
  induction l as [|a l IH]; [split; [constructor|done]|].
  rewrite sortedDedup_cons, IH. split.
  - intros [? ?]. by constructor.
  - intros Hs. by inversion Hs.
Qed.

(** ** Sets of hosts *)


Lemma includes_elem_of x l : includes x l = true <-> x ∈ l.
Proof.
  unfold includes. rewrite existsb_exists, list_elem_of_In. split.
  - intros (y & Hy & ->%String.eqb_eq). done.
  - intros Hx. exists x. by rewrite String.eqb_refl.
Qed.

Lemma includes_not_elem_of x l : includes x l = false <-> x ∉ l.
Proof. rewrite <- includes_elem_of. by destruct (includes x l). Qed.

Lemma Set_add_NoDup x s : NoDup s -> NoDup (Set_add x s).
Proof.
  intros Hs. unfold Set_add, Set_has. destruct (includes x s) eqn:E; [done|].
  apply includes_not_elem_of in E. apply NoDup_app. repeat split; [done| |apply NoDup_singleton].
  intros y Hy ->%list_elem_of_singleton. done.
Qed.

Lemma elem_of_Set_add y x s : y ∈ Set_add x s <-> y = x \/ y ∈ s.
Proof.
  unfold Set_add, Set_has. destruct (includes x s) eqn:E.
  - apply includes_elem_of in E. split; [by right|]. by intros [->|?].
  - rewrite elem_of_app, list_elem_of_singleton. tauto.
Qed.

Lemma Set_fold_NoDup l acc :
  NoDup acc -> NoDup (fold_left (fun s x => Set_add x s) l acc).
Proof. revert acc. induction l as [|x l IH]; intros acc Hacc; simpl; [done|]. by apply IH, Set_add_NoDup. Qed.

Lemma elem_of_Set_fold y l acc :
  y ∈ fold_left (fun s x => Set_add x s) l acc <-> y ∈ acc \/ y ∈ l.
Proof.
  revert acc. induction l as [|x l IH]; intros acc; simpl.
  - rewrite elem_of_nil. tauto.
  - rewrite IH, elem_of_Set_add, elem_of_cons. tauto.
Qed.

Lemma Set_fold_fresh l acc :
  NoDup (acc ++ l) -> fold_left (fun s x => Set_add x s) l acc = acc ++ l.
Proof.
  revert acc. induction l as [|x l IH]; intros acc Hnd; simpl; [by rewrite app_nil_r|].
  assert (Hx : includes x acc = false).
  { apply includes_not_elem_of. apply NoDup_app in Hnd as (_ & Hd & _).
    intros Hin. apply (Hd x Hin). by left. }
  unfold Set_add at 2, Set_has. rewrite Hx.
  rewrite IH; [by rewrite <- app_assoc|]. by rewrite <- app_assoc.
Qed.

Lemma Set_new_NoDup l : NoDup (Set_new l).
Proof. apply Set_fold_NoDup. constructor. Qed.

Lemma elem_of_Set_new y l : y ∈ Set_new l <-> y ∈ l.
Proof. unfold Set_new. rewrite elem_of_Set_fold, elem_of_nil. tauto. Qed.

Lemma Set_new_id l : NoDup l -> Set_new l = l.
Proof. intros. unfold Set_new. by rewrite Set_fold_fresh. Qed.

Lemma Set_delete_NoDup x s : NoDup s -> NoDup (Set_delete x s).
Proof. apply NoDup_filter. Qed.

Lemma Sorted_ltb_leb l :
  Sorted (fun x y => String.ltb x y = true) l -> Sorted (rel_of String.leb) l.
Proof.
  induction 1 as [|a l Hl IH Hhd]; constructor; [done|].
  destruct Hhd; constructor. by apply ltb_leb.
Qed.

Lemma Sorted_ltb_NoDup l :
  Sorted (fun x y => String.ltb x y = true) l -> NoDup l.
Proof.
  intros Hs. apply Sorted_StronglySorted in Hs; [|intros a b c; apply ltb_trans].
  induction Hs as [|a l Hl IH Hall]; constructor; [|done].
  intros Hin. rewrite Forall_forall in Hall. specialize (Hall a Hin).
  by rewrite ltb_irrefl in Hall.
Qed.

Lemma Sorted_leb_NoDup_ltb l :
  Sorted (rel_of String.leb) l -> NoDup l -> Sorted (fun x y => String.ltb x y = true) l.
Proof.
  induction 1 as [|a l Hl IH Hhd]; intros Hnd; [constructor|].
  apply NoDup_cons in Hnd as [Ha Hnd]. constructor; [by apply IH|].
  destruct Hhd as [|b l' Hab]; constructor.
  apply leb_cases in Hab as [->|?]; [|done]. exfalso. apply Ha. by left.
Qed.

Lemma Array_sort_sortedDedup l : NoDup l -> sortedDedup (Array_sort l) = true.
Proof.
  intros Hnd. apply sortedDedup_Sorted, Sorted_leb_NoDup_ltb.
  - apply (sort_by_Sorted String.leb).
  - unfold Array_sort. by rewrite sort_by_Permutation.
Qed.

Lemma Array_sort_sorted_id l : sortedDedup l = true -> Array_sort l = l.
Proof.
  intros Hs%sortedDedup_Sorted%Sorted_ltb_leb. by apply (sort_by_sorted_id String.leb).
Qed.

Lemma filter_ne_absent (x : string) (l : list string) : x ∉ l -> filter (fun y => y <> x) l = l.
Proof.
  induction l as [|a l IH]; intros Hx; [done|].
  apply not_elem_of_cons in Hx as [Hne Hx].
  rewrite filter_cons_True by congruence. by rewrite IH.
Qed.

Lemma filter_ne_present (x : string) (l : list string) :
  NoDup l -> x ∈ l -> l ≡ₚ filter (fun y => y <> x) l ++ [x].
Proof.
  induction l as [|a l IH]; intros Hnd Hx; [by apply elem_of_nil in Hx|].
  apply NoDup_cons in Hnd as [Ha Hnd].
  destruct (decide (a = x)) as [->|Hne].
  - rewrite filter_cons_False by (intros Hf; by apply Hf).
    rewrite filter_ne_absent by done. by rewrite Permutation_app_comm.
  - rewrite filter_cons_True by done. simpl. f_equiv. apply IH; [done|].
    apply elem_of_cons in Hx as [?|?]; congruence.
Qed.

Lemma toggleHost_sortedDedup host hosts : sortedDedup (toggleHost host hosts) = true.
Proof.
  unfold toggleHost. apply Array_sort_sortedDedup.
  destruct (nonEmpty host); [|apply Set_new_NoDup].
  destruct (Set_has host (Set_new hosts)).
  - apply Set_delete_NoDup, Set_new_NoDup.
  - apply Set_add_NoDup, Set_new_NoDup.
Qed.

Lemma toggleHost_twice host hosts :
  sortedDedup hosts = true -> toggleHost host (toggleHost host hosts) = hosts.
Proof.
  intros Hs.
  assert (Hlt := proj1 (sortedDedup_Sorted _) Hs).
  assert (Hnd := Sorted_ltb_NoDup _ Hlt).
  assert (Hle := Sorted_ltb_leb _ Hlt).
  pose proof (toggleHost_sortedDedup host hosts) as Hs1.
  assert (Hnd1 : NoDup (toggleHost host hosts))
    by (by apply Sorted_ltb_NoDup, sortedDedup_Sorted).
  unfold toggleHost at 1. rewrite (Set_new_id _ Hnd1).
  apply Array_sort_unique; [done|].
  unfold toggleHost in *. rewrite (Set_new_id _ Hnd) in *.
  destruct (nonEmpty host); [|by rewrite Array_sort_sorted_id].
  unfold Set_add, Set_delete, Set_has in *.
  destruct (includes host hosts) eqn:Hin.
  - apply includes_elem_of in Hin.
    assert (Hout : includes host (Array_sort (filter (fun y => y <> host) hosts)) = false).
    { apply includes_not_elem_of. unfold Array_sort. rewrite elem_of_sort_by.
      rewrite list_elem_of_filter. by intros [Hf _]. }
    rewrite Hout. unfold Array_sort. rewrite sort_by_Permutation.
    by apply filter_ne_present.
  - apply includes_not_elem_of in Hin.
    assert (Hout : includes host (Array_sort (hosts ++ [host])) = true).
    { apply includes_elem_of. unfold Array_sort. rewrite elem_of_sort_by.
      rewrite elem_of_app, list_elem_of_singleton. by right. }
    rewrite Hout. unfold Array_sort. rewrite sort_by_Permutation.
    rewrite filter_app, filter_ne_absent by done.
    rewrite filter_cons_False by (intros Hf; by apply Hf). by rewrite filter_nil, app_nil_r.
Qed.

Lemma orDefault_id s : orDefault (Some s) "" = s.
Proof. unfold orDefault. by destruct (String.eqb_spec s "") as [->|]. Qed.

(** With a host at hand the toggle flips its membership. *)
Lemma toggleHost_flips host hosts :
  nonEmpty host = true ->
  includes host (toggleHost host hosts) = negb (includes host hosts).
Proof.
  intros Hh. unfold toggleHost. rewrite Hh. unfold Set_has.
  destruct (includes host hosts) eqn:Hin; cbn [negb].
  - assert (Hs : includes host (Set_new hosts) = true)
      by (apply includes_elem_of, elem_of_Set_new; by apply includes_elem_of).
    rewrite Hs. apply includes_not_elem_of. unfold Array_sort, Set_delete.
    rewrite elem_of_sort_by, list_elem_of_filter. by intros [Hne _].
  - assert (Hs : includes host (Set_new hosts) = false).
    { apply includes_not_elem_of. rewrite elem_of_Set_new. by apply includes_not_elem_of. }
    rewrite Hs. apply includes_elem_of. unfold Array_sort.
    rewrite elem_of_sort_by, elem_of_Set_add. by left.
Qed.

(** ** The archive store *)

Lemma fold_delete_lookup {V} (l : list (string * V)) (store : gmap string V) k :
  fold_left (fun s kv => delete kv.1 s) l store !! k
  = if decide (k ∈ l.*1) then None else store !! k.
Proof.
  revert store. induction l as [|[k' v] l IH]; intros store; cbn [fold_left].
  - rewrite fmap_nil. case_decide as Hin; [|done]. by apply elem_of_nil in Hin.
  - rewrite IH, fmap_cons. cbn [fst]. destruct (decide (k ∈ l.*1)) as [Hin|Hout].
    + case_decide as Hout; [done|].
      exfalso. apply Hout. by apply list_elem_of_further.
    + destruct (decide (k = k')) as [->|Hne].
      * rewrite lookup_delete_eq. case_decide as Hout'; [done|].
        exfalso. apply Hout'. apply list_elem_of_here.
      * rewrite lookup_delete_ne by done. case_decide as Hin; [|done].
        apply elem_of_cons in Hin as [?|?]; done.
Qed.

Lemma elem_of_by_visitAt_below cutoff (visits : gmap string Visit) k :
  k ∈ (Db.by_visitAt_below cutoff visits).*1
  <-> exists v, visits !! k = Some v /\ visitAt v < cutoff.
Proof.
  unfold Db.by_visitAt_below. rewrite sort_by_Permutation.
  rewrite list_elem_of_fmap. split.
  - intros ([k' v] & -> & [Hlt Hin%elem_of_map_to_list]%list_elem_of_filter). eauto.
  - intros (v & Hk & Hlt). exists (k, v). split; [done|].
    apply list_elem_of_filter. split; [done|]. by apply elem_of_map_to_list.
Qed.

Lemma purge_lookup cutoff (visits : gmap string Visit) k :
  Db.purgeVisitsOlderThan cutoff visits !! k
  = match visits !! k with
    | Some v => if visitAt v <? cutoff then None else Some v
    | None => None
    end.
Proof.
  unfold Db.purgeVisitsOlderThan. rewrite fold_delete_lookup.
  destruct (decide _) as [Hin|Hout].
  - apply elem_of_by_visitAt_below in Hin as (v & -> & Hlt).
    by rewrite (proj2 (Z.ltb_lt _ _) Hlt).
  - destruct (visits !! k) as [v|] eqn:Hk; [|done].
    destruct (visitAt v <? cutoff) eqn:Hc; [|done].
    exfalso. apply Hout, elem_of_by_visitAt_below. exists v. split; [done|]. by apply Z.ltb_lt.
Qed.


Section SortHead.
Context {A : Type} (le : A -> A -> bool).
Context `{!Total (rel_of le), !Transitive (rel_of le)}.

Lemma sort_by_head x l :
  head (sort_by le l) = Some x -> x ∈ l /\ forall y, y ∈ l -> le x y = true.
Proof.
  intros Hhd.
  pose proof (sort_by_Sorted le l) as Hs.
  apply Sorted_StronglySorted in Hs; [|done].
  destruct (sort_by le l) as [|x' s] eqn:Es; simplify_eq/=.
  split.
  - rewrite <- (sort_by_Permutation le l), Es. apply list_elem_of_here.
  - intros y Hy. rewrite <- (sort_by_Permutation le l), Es in Hy.
    apply StronglySorted_inv in Hs as [_ Hall]. rewrite Forall_forall in Hall.
    apply elem_of_cons in Hy as [->|Hy]; [|by apply Hall].
    destruct (total (rel_of le) x x); done.
Qed.
End SortHead.

#[local] Instance newestFirst_total : Total (rel_of Db.newestFirst).
Proof. intros a b. unfold rel_of, Db.newestFirst. rewrite !Z.leb_le. lia. Qed.

#[local] Instance newestFirst_trans : Transitive (rel_of Db.newestFirst).
Proof. intros a b c. unfold rel_of, Db.newestFirst. rewrite !Z.leb_le. lia. Qed.

Lemma elem_of_getVersionsByUrlKey key (pages : gmap string PageVersion) p :
  p ∈ Db.getVersionsByUrlKey key pages
  <-> pv_urlKey p = key /\ exists k, pages !! k = Some p.
Proof.
  unfold Db.getVersionsByUrlKey, Db.by_urlKey_getAll, Db.records.
  rewrite sort_by_Permutation, list_elem_of_filter, sort_by_Permutation, list_elem_of_fmap.
  split.
  - intros [Hk ([k p'] & -> & Hin%elem_of_map_to_list)]. eauto.
  - intros [Hk (k & Hin)]. split; [done|]. exists (k, p). split; [done|].
    by apply elem_of_map_to_list.
Qed.

(** The version [archiveIfChanged] compares against is a stored version
    of the key with the greatest [capturedAt]; there is none exactly when
    the key has no stored version. *)
Lemma latest_version_newest key (pages : gmap string PageVersion) :
  match head (Db.getVersionsByUrlKey key pages) with
  | Some l =>
      pv_urlKey l = key /\ (exists k, pages !! k = Some l)
      /\ forall k p, pages !! k = Some p -> pv_urlKey p = key -> capturedAt p <= capturedAt l
  | None => forall k p, pages !! k = Some p -> pv_urlKey p <> key
  end.
Proof.
  destruct (head _) as [l|] eqn:Hhd.
  - unfold Db.getVersionsByUrlKey in Hhd.
    apply (sort_by_head Db.newestFirst) in Hhd as [Hin Hmax].
    assert (Hl : l ∈ Db.getVersionsByUrlKey key pages)
      by (unfold Db.getVersionsByUrlKey; by rewrite sort_by_Permutation).
    apply elem_of_getVersionsByUrlKey in Hl as [Hk Hst]. repeat split; [done..|].
    intros k p Hp Hpk.
    assert (Hp' : p ∈ Db.getVersionsByUrlKey key pages)
      by (apply elem_of_getVersionsByUrlKey; eauto).
    unfold Db.getVersionsByUrlKey in Hp'. rewrite sort_by_Permutation in Hp'.
    specialize (Hmax p Hp'). unfold Db.newestFirst in Hmax. by apply Z.leb_le.
  - intros k p Hp Hpk.
    assert (Hp' : p ∈ Db.getVersionsByUrlKey key pages)
      by (apply elem_of_getVersionsByUrlKey; eauto).
    destruct (Db.getVersionsByUrlKey key pages); [|done]. by apply elem_of_nil in Hp'.
Qed.

(** ** Wildcard patterns *)

(** Induction that also supplies the hypothesis for the tail of the tail,
    as the two-character steps of [replace] and of the parser need. *)
Lemma string_pair_ind (P : string -> Prop) :
  P EmptyString ->
  (forall c, P (String c EmptyString)) ->
  (forall c d s, P s -> P (String d s) -> P (String c (String d s))) ->
  forall s, P s.
Proof.
  intros H0 H1 H2 s.
  enough (P s /\ forall c, P (String c s)) by tauto.
  induction s as [|d s [IHs IHc]]; split; auto.
Qed.

Lemma escaped_not_star c : isEscapedMeta c = true -> Ascii.eqb c "*" = false.
Proof. destruct (Ascii.eqb_spec c "*") as [->|]; [by vm_compute|done]. Qed.

Lemma escaped_is_syntax c : isEscapedMeta c = true -> JSRegExp.isSyntaxCharacter c = true.
Proof.
  unfold isEscapedMeta, JSRegExp.isSyntaxCharacter, JSRegExp.mem_ascii. simpl.
  rewrite !orb_true_iff. tauto.
Qed.

Lemma unescaped_is_modelled c :
  isEscapedMeta c = false -> Ascii.eqb c "\" = false /\ JSRegExp.isUnmodelled c = false.
Proof.
  unfold isEscapedMeta, JSRegExp.isUnmodelled, JSRegExp.mem_ascii. simpl.
  rewrite !orb_false_iff. tauto.
Qed.

(** The head of [escapeMeta s] is a star exactly when the head of [s] is. *)
Lemma escapeMeta_star_head s :
  (exists s', s = String "*" s' /\ escapeMeta s = String "*" (escapeMeta s'))
  \/ (forall e, escapeMeta s <> String "*" e).
Proof.
  destruct s as [|c s]; [by right|]. simpl.
  destruct (isEscapedMeta c) eqn:Hc.
  - right. intros e [=].
  - destruct (Ascii.eqb_spec c "*") as [->|Hne]; [left; eauto|].
    right. intros e [=]. done.
Qed.

Lemma replaceBackslashStar_cons c e :
  replaceBackslashStar (String c e)
  = match e with
    | String d e' =>
        if Ascii.eqb c "\" && Ascii.eqb d "*"
        then String "." (String "*" (replaceBackslashStar e'))
        else String c (replaceBackslashStar e)
    | EmptyString => String c EmptyString
    end.
Proof. by destruct e. Qed.

Lemma replaceBackslashStar_keep c e :
  Ascii.eqb c "\" = false ->
  replaceBackslashStar (String c e) = String c (replaceBackslashStar e).
Proof. intros Hc. rewrite replaceBackslashStar_cons. destruct e; [done|]. by rewrite Hc. Qed.

Lemma inFragment_escape d r :
  JSRegExp.isSyntaxCharacter d = true ->
  JSRegExp.inFragment (String "\" (String d r)) = JSRegExp.inFragment r.
Proof. intros Hd. cbn [JSRegExp.inFragment]. change (Ascii.eqb "\" "\") with true. cbv iota. by rewrite Hd. Qed.

Lemma inFragment_plain c r :
  Ascii.eqb c "\" = false -> JSRegExp.isUnmodelled c = false ->
  JSRegExp.inFragment (String c r) = JSRegExp.inFragment r.
Proof. intros Hc Hu. cbn [JSRegExp.inFragment]. by rewrite Hc, Hu. Qed.

Lemma escapeMeta_cons c s :
  escapeMeta (String c s)
  = if isEscapedMeta c then String "\" (String c (escapeMeta s)) else String c (escapeMeta s).
Proof. done. Qed.

Lemma replaceBackslashStar_escaped c e :
  isEscapedMeta c = true ->
  replaceBackslashStar (String "\" (String c e)) = String "\" (replaceBackslashStar (String c e)).
Proof.
  intros Hc. rewrite replaceBackslashStar_cons. by rewrite (escaped_not_star _ Hc), andb_false_r.
Qed.

Lemma inFragment_source pattern :
  JSRegExp.inFragment (replaceBackslashStar (escapeMeta pattern)) = true.
Proof.
  induction pattern as [|c|c d s IHs IHd] using string_pair_ind.
  - done.
  - rewrite escapeMeta_cons. change (escapeMeta "") with "".
    destruct (isEscapedMeta c) eqn:Hc.
    + rewrite replaceBackslashStar_escaped by done.
      change (replaceBackslashStar (String c "")) with (String c "").
      by rewrite inFragment_escape by by apply escaped_is_syntax.
    + destruct (unescaped_is_modelled _ Hc) as [Hb Hu].
      change (replaceBackslashStar (String c "")) with (String c "").
      by rewrite inFragment_plain.
  - rewrite escapeMeta_cons.
    destruct (isEscapedMeta c) eqn:Hc.
    + rewrite replaceBackslashStar_escaped by done.
      destruct (Ascii.eqb_spec c "\") as [->|Hne].
      * (* the escaped backslash may swallow a following star *)
        destruct (escapeMeta_star_head (String d s)) as [(s' & [= -> ->] & ->)|Hno].
        -- change (replaceBackslashStar (String "\" (String "*" ?e)))
             with (String "." (String "*" (replaceBackslashStar e))).
           rewrite inFragment_escape by done. rewrite inFragment_plain by done. exact IHs.
        -- rewrite replaceBackslashStar_cons.
           destruct (escapeMeta (String d s)) as [|x e] eqn:Ee.
           { by destruct d. }
           destruct (Ascii.eqb_spec x "*") as [->|Hx]; [by destruct (Hno e)|].
           rewrite andb_false_r. rewrite inFragment_escape by done. exact IHd.
      * rewrite replaceBackslashStar_keep by by apply Ascii.eqb_neq.
        rewrite inFragment_escape by by apply escaped_is_syntax. exact IHd.
    + destruct (unescaped_is_modelled _ Hc) as [Hb Hu].
      rewrite replaceBackslashStar_keep by done. rewrite inFragment_plain by done. exact IHd.
Qed.

Lemma append_cons c s t : String c s +:+ t = String c (s +:+ t).
Proof. done. Qed.

Lemma append_nil t : "" +:+ t = t.
Proof. done. Qed.

Lemma inFragment_step c d r :
  JSRegExp.inFragment (String c (String d r))
  = if Ascii.eqb c "\" then JSRegExp.isSyntaxCharacter d && JSRegExp.inFragment r
    else negb (JSRegExp.isUnmodelled c) && JSRegExp.inFragment (String d r).
Proof. done. Qed.

Lemma inFragment_anchor_end s :
  JSRegExp.inFragment s = true -> JSRegExp.inFragment (s +:+ "$") = true.
Proof.
  induction s as [|c|c d s IHs IHd] using string_pair_ind; intros Hs.
  - done.
  - rewrite append_cons, append_nil. cbn [JSRegExp.inFragment] in *.
    destruct (Ascii.eqb c "\"); [done|].
    apply andb_true_iff in Hs as [-> _]. done.
  - rewrite !append_cons, inFragment_step. rewrite inFragment_step in Hs.
    destruct (Ascii.eqb c "\").
    + apply andb_true_iff in Hs as [-> Hs]. by apply IHs.
    + apply andb_true_iff in Hs as [-> Hs]. rewrite <- append_cons. by apply IHd.
Qed.

(** Every source [wildcardToRegExp] builds lies in the modelled fragment. *)
Lemma regexStr_inFragment pattern : JSRegExp.inFragment (regexStr pattern) = true.
Proof.
  unfold regexStr. rewrite append_cons, append_nil, inFragment_plain by done.
  apply inFragment_anchor_end, inFragment_source.
Qed.

Lemma parse_fragment_error src acc msg :
  JSRegExp.inFragment src = true ->
  JSRegExp.parse src acc = Throw msg ->
  msg = "Nothing to repeat" \/ msg = "\ at end of pattern".
Proof.
  revert acc. induction src as [|c|c d s IHs IHd] using string_pair_ind; intros acc Hf Hp.
  - done.
  - cbn [JSRegExp.parse JSRegExp.inFragment] in *.
    destruct (Ascii.eqb c "\"); [right; congruence|].
    apply andb_true_iff in Hf as [Hu _]. apply negb_true_iff in Hu. rewrite Hu in Hp.
    destruct (Ascii.eqb c "*"); [destruct acc as [|[| |a|a] acc]; (done || (left; congruence))|].
    repeat case_match; by simplify_eq.
  - rewrite inFragment_step in Hf.
    change (JSRegExp.parse (String c (String d s)) acc) with
      (if Ascii.eqb c "\" then
         (if JSRegExp.isSyntaxCharacter d then JSRegExp.parse s (JSRegExp.One (JSRegExp.Lit d) :: acc)
          else Throw "unmodelled escape")
       else if Ascii.eqb c "*" then
         match acc with
         | JSRegExp.One a :: acc' => JSRegExp.parse (String d s) (JSRegExp.Many a :: acc')
         | _ => Throw "Nothing to repeat"
         end
       else if Ascii.eqb c "^" then JSRegExp.parse (String d s) (JSRegExp.Bol :: acc)
       else if Ascii.eqb c "$" then JSRegExp.parse (String d s) (JSRegExp.Eol :: acc)
       else if Ascii.eqb c "." then JSRegExp.parse (String d s) (JSRegExp.One JSRegExp.AnyChar :: acc)
       else if JSRegExp.isUnmodelled c then Throw "unmodelled syntax"
       else JSRegExp.parse (String d s) (JSRegExp.One (JSRegExp.Lit c) :: acc)) in Hp.
    destruct (Ascii.eqb c "\").
    + apply andb_true_iff in Hf as [Hd Hf]. rewrite Hd in Hp. by eapply IHs.
    + apply andb_true_iff in Hf as [Hu Hf]. apply negb_true_iff in Hu. rewrite Hu in Hp.
      destruct (Ascii.eqb c "*").
      { destruct acc as [|[| |a|a] acc]; try (left; congruence). by eapply IHd. }
      repeat case_match; by eapply IHd.
Qed.

Lemma parse_anchored_end s acc :
  JSRegExp.parse (s +:+ "$") acc <> Throw "\ at end of pattern".
Proof.
  revert acc. induction s as [|c|c d s IHs IHd] using string_pair_ind; intros acc.
  - done.
  - rewrite append_cons, append_nil. cbn [JSRegExp.parse].
    destruct (Ascii.eqb c "\"); [done|].
    destruct (Ascii.eqb c "*"); [by destruct acc as [|[| |a|a] acc]|].
    by repeat case_match.
  - change (String c (String d s) +:+ "$") with (String c (String d (s +:+ "$"))).
    change (JSRegExp.parse (String c (String d (s +:+ "$"))) acc) with
      (if Ascii.eqb c "\" then
         (if JSRegExp.isSyntaxCharacter d
          then JSRegExp.parse (s +:+ "$") (JSRegExp.One (JSRegExp.Lit d) :: acc)
          else Throw "unmodelled escape")
       else if Ascii.eqb c "*" then
         match acc with
         | JSRegExp.One a :: acc' => JSRegExp.parse (String d s +:+ "$") (JSRegExp.Many a :: acc')
         | _ => Throw "Nothing to repeat"
         end
       else if Ascii.eqb c "^" then JSRegExp.parse (String d s +:+ "$") (JSRegExp.Bol :: acc)
       else if Ascii.eqb c "$" then JSRegExp.parse (String d s +:+ "$") (JSRegExp.Eol :: acc)
       else if Ascii.eqb c "." then
         JSRegExp.parse (String d s +:+ "$") (JSRegExp.One JSRegExp.AnyChar :: acc)
       else if JSRegExp.isUnmodelled c then Throw "unmodelled syntax"
       else JSRegExp.parse (String d s +:+ "$") (JSRegExp.One (JSRegExp.Lit c) :: acc)).
    destruct (Ascii.eqb c "\"); [destruct (JSRegExp.isSyntaxCharacter d); [apply IHs|done]|].
    destruct (Ascii.eqb c "*"); [destruct acc as [|[| |a|a] acc]; (done || apply IHd)|].
    repeat case_match; first [apply IHd | done].
Qed.

(** The only way [wildcardToRegExp] throws is the syntax error of a star
    with nothing to repeat. *)
Lemma wildcardToRegExp_error pattern msg :
  wildcardToRegExp pattern = Throw msg -> msg = "Nothing to repeat".
Proof.
  intros Hp. unfold wildcardToRegExp, JSRegExp.RegExp_new in Hp.
  destruct (parse_fragment_error _ _ _ (regexStr_inFragment pattern) Hp) as [->| ->]; [done|].
  exfalso. revert Hp. unfold regexStr. rewrite append_cons, append_nil.
  change (JSRegExp.parse (String "^" ?r) []) with (JSRegExp.parse r [JSRegExp.Bol]).
  apply parse_anchored_end.
Qed.

(** A pattern that opens with a star never compiles. *)
Lemma leading_star_rejected pattern :
  wildcardToRegExp (String "*" pattern) = Throw "Nothing to repeat".
Proof.
  unfold wildcardToRegExp, JSRegExp.RegExp_new, regexStr.
  rewrite escapeMeta_cons. change (isEscapedMeta "*") with false. cbv iota.
  by rewrite replaceBackslashStar_keep, !append_cons by done.
Qed.

Lemma urlMatchesPatterns_total url patterns :
  urlMatchesPatterns url patterns = Ok (unwrap (urlMatchesPatterns url patterns)).
Proof.
  induction patterns as [|p ps IH]; simpl; [done|].
  destruct (wildcardToRegExp p) as [re|msg]; [|done].
  by destruct (JSRegExp.test re url).
Qed.

Lemma urlMatchesPatterns_compiled url patterns :
  urlMatchesPatterns url patterns
  = urlMatchesPatterns url (filter (fun p => compiles p = true) patterns).
Proof.
  induction patterns as [|p ps IH]; [done|].
  unfold compiles at 1. cbn [urlMatchesPatterns].
  destruct (wildcardToRegExp p) as [re|msg] eqn:Hp.
  - rewrite filter_cons_True by (unfold compiles; by rewrite Hp).
    cbn [urlMatchesPatterns]. rewrite Hp. by destruct (JSRegExp.test re url).
  - rewrite filter_cons_False by (unfold compiles; by rewrite Hp). done.
Qed.

Lemma urlMatchesPatterns_all_malformed url patterns :
  Forall (fun p => compiles p = false) patterns ->
  urlMatchesPatterns url patterns = Ok false.
Proof.
  induction 1 as [|p ps Hp _ IH]; [done|].
  cbn [urlMatchesPatterns]. unfold compiles in Hp.
  by destruct (wildcardToRegExp p).
Qed.

Section PolicyFacts.
Context `{Platform}.

Lemma shouldArchiveUrl_run url w :
  shouldArchiveUrl url w = (Ok (eligible url (normalize (pw_settings w))), w).
Proof.
  unfold shouldArchiveUrl, eligible.
  destruct (isHttpUrl url); [|done]. cbn [negb].
  unfold bind, getSettings, gets.
  destruct (enabled _); [|done]. cbn [negb].
  destruct (nonEmpty (hostOf url) && _); [done|].
  destruct (length _ =? 0)%nat; [done|]. cbn [negb andb]. unfold lift.
  rewrite urlMatchesPatterns_total.
  by destruct (unwrap _).
Qed.

Lemma eligible_compiled url s :
  eligible url s
  = eligible url (mkSettings (enabled s) (minStayMs s) (disabledHosts s)
                    (filter (fun p => compiles p = true) (disabledUrlPatterns s))).
Proof.
  unfold eligible. cbn [enabled disabledHosts disabledUrlPatterns].
  rewrite <- urlMatchesPatterns_compiled.
  destruct (filter _ _) as [|p ps] eqn:Hf; [|by destruct (disabledUrlPatterns s)].
  assert (Hall : Forall (fun p => compiles p = false) (disabledUrlPatterns s)).
  { apply Forall_forall. intros p Hp. destruct (compiles p) eqn:Hc; [|done].
    assert (Hin : p ∈ filter (fun p => compiles p = true) (disabledUrlPatterns s))
      by by apply list_elem_of_filter.
    rewrite Hf in Hin. by apply elem_of_nil in Hin. }
  rewrite (urlMatchesPatterns_all_malformed _ _ Hall). cbn [unwrap length].
  by rewrite !andb_false_r.
Qed.

(** C7: a wildcard pattern that fails to compile is skipped: matching
    never throws, a list of malformed patterns matches no URL, and both
    the match and the eligibility verdict are those of the patterns that
    do compile. *)
Theorem malformed_patterns_are_skipped url patterns :
  (exists b, urlMatchesPatterns url patterns = Ok b)
  /\ (Forall (fun p => compiles p = false) patterns ->
      urlMatchesPatterns url patterns = Ok false)
  /\ urlMatchesPatterns url patterns
     = urlMatchesPatterns url (filter (fun p => compiles p = true) patterns)
  /\ (forall w, exists b, shouldArchiveUrl url w = (Ok b, w))
  /\ (forall s, disabledUrlPatterns s = patterns ->
        eligible url s
        = eligible url (mkSettings (enabled s) (minStayMs s) (disabledHosts s)
                          (filter (fun p => compiles p = true) patterns))).
Proof.
  split; [|split; [|split; [|split]]].
  - eexists. apply urlMatchesPatterns_total.
  - apply urlMatchesPatterns_all_malformed.
  - apply urlMatchesPatterns_compiled.
  - intros w. eexists. apply shouldArchiveUrl_run.
  - intros s <-. apply eligible_compiled.
Qed.

End PolicyFacts.

(** C6: the denylist pattern of the contract's example does not survive
    [wildcardToRegExp]: the star is left unescaped by the first [replace],
    the second finds no backslash-star to turn into dot-star, and the
    source handed to [new RegExp] opens with a quantifier.  The URL the
    contract's matcher accepts is therefore never matched. *)
Theorem github_settings_pattern_is_rejected :
  regexStr "*://*.github.com/*/settings*" = "^*://*\.github\.com/*/settings*$"
  /\ wildcardToRegExp "*://*.github.com/*/settings*" = Throw "Nothing to repeat"
  /\ urlMatchesPatterns "https://foo.github.com/bar/settings/x"
       ["*://*.github.com/*/settings*"] = Ok false
  /\ Contract.matches "*://*.github.com/*/settings*"
       "https://foo.github.com/bar/settings/x" = true
  /\ Contract.matches "*://*.github.com/*/settings*"
       "https://foo.github.com/bar/other" = false.
Proof. repeat split; vm_compute; reflexivity. Qed.

(** A star inside a pattern quantifies the character before it instead of
    standing for any run of characters. *)
Lemma inner_star_repeats_previous_character :
  urlMatchesPatterns "https://a.github.com/x" ["https://*.github.com/*"] = Ok false
  /\ urlMatchesPatterns "https:/.github.com" ["https://*.github.com/*"] = Ok true
  /\ Contract.matches "https://*.github.com/*" "https://a.github.com/x" = true
  /\ Contract.matches "https://*.github.com/*" "https:/.github.com" = false.
Proof. repeat split; vm_compute; reflexivity. Qed.

Section StoreFacts.
Context `{Platform}.


(** C9: on a sorted, duplicate-free host list, toggling the host of a
    URL twice restores the list; after each toggle the host list is
    sorted and duplicate-free and the pattern list is what it was, so it
    stays sorted and duplicate-free if it was.  When the URL has a host,
    the first toggle flips the membership of that host. *)
Theorem toggle_host_twice_restores url w :
  let s0 := normalize (pw_settings w) in
  let w1 := (onMessage (PW_TOGGLE_HOST (Some url)) w).2 in
  let w2 := (onMessage (PW_TOGGLE_HOST (Some url)) w1).2 in
  let s1 := normalize (pw_settings w1) in
  let s2 := normalize (pw_settings w2) in
  sortedDedup (disabledHosts s0) = true ->
  disabledHosts s2 = disabledHosts s0
  /\ sortedDedup (disabledHosts s1) = true
  /\ sortedDedup (disabledHosts s2) = true
  /\ disabledUrlPatterns s1 = disabledUrlPatterns s0
  /\ disabledUrlPatterns s2 = disabledUrlPatterns s0
  /\ (sortedDedup (disabledUrlPatterns s0) = true ->
      sortedDedup (disabledUrlPatterns s1) = true
      /\ sortedDedup (disabledUrlPatterns s2) = true)
  /\ (nonEmpty (hostOf url) = true ->
      includes (hostOf url) (disabledHosts s1)
      = negb (includes (hostOf url) (disabledHosts s0))).
Proof.
  cbv zeta. unfold onMessage, bind, getSettings, setSettings, gets, modify, ret.
  cbn [fst snd pw_settings with_pw_settings normalize default enabled minStayMs
       disabledHosts disabledUrlPatterns s_enabled s_minStayMs s_disabledHosts
       s_disabledUrlPatterns].
  rewrite orDefault_id. intros Hs. repeat split; try done.
  - by apply toggleHost_twice.
  - apply toggleHost_sortedDedup.
  - apply toggleHost_sortedDedup.
  - apply toggleHost_flips.
Qed.

End StoreFacts.

(** ** The navigation state machine *)

Section Debounce.
Context `{Platform}.

Lemma clearTabState_navByTab tabId w :
  navByTab (clearTabState tabId w) = delete tabId (navByTab w).
Proof. unfold clearTabState. by destruct (navByTab w !! tabId). Qed.

Lemma clearTabState_erroredTabUrl tabId w :
  erroredTabUrl (clearTabState tabId w) = delete tabId (erroredTabUrl w).
Proof. unfold clearTabState. by destruct (navByTab w !! tabId). Qed.

Lemma clearTabState_timers tabId w :
  timers (clearTabState tabId w)
  = match navByTab w !! tabId with
    | Some st => delete (timerId st) (timers w)
    | None => timers w
    end.
Proof. unfold clearTabState. by destruct (navByTab w !! tabId). Qed.

Lemma clearTabState_trace tabId w :
  trace (clearTabState tabId w) = trace w ++ cleared tabId w.
Proof.
  unfold clearTabState, cleared.
  destruct (navByTab w !! tabId); [done|]. by rewrite app_nil_r.
Qed.

Lemma clearTabState_stores tabId w :
  pages (clearTabState tabId w) = pages w
  /\ visits (clearTabState tabId w) = visits w
  /\ pw_settings (clearTabState tabId w) = pw_settings w
  /\ nextTimer (clearTabState tabId w) = nextTimer w.
Proof. unfold clearTabState. by destruct (navByTab w !! tabId). Qed.

Lemma cleared_only_clears tabId w : forallb isClearTimeout (cleared tabId w) = true.
Proof. unfold cleared. by destruct (navByTab w !! tabId). Qed.

Lemma clearTabState_forgets tabId w :
  let w' := clearTabState tabId w in
  navByTab w' !! tabId = None
  /\ erroredTabUrl w' !! tabId = None
  /\ (forall st, navByTab w !! tabId = Some st -> timers w' !! timerId st = None)
  /\ (forall t, t <> tabId ->
        navByTab w' !! t = navByTab w !! t /\ erroredTabUrl w' !! t = erroredTabUrl w !! t).
Proof.
  cbv zeta. rewrite clearTabState_navByTab, clearTabState_erroredTabUrl, clearTabState_timers.
  repeat split.
  - apply lookup_delete_eq.
  - apply lookup_delete_eq.
  - intros st ->. apply lookup_delete_eq.
  - by apply lookup_delete_ne.
  - by apply lookup_delete_ne.
Qed.

(** C1: a top-level commit to an http(s) URL forgets the tab: its
    [navByTab] and [erroredTabUrl] entries are gone and the timer the
    entry held is no longer pending, whatever the state was; the archive
    is untouched and so are other tabs.  A top-level commit to any other
    URL changes nothing. *)
Theorem commit_http_forgets_tab tabId url w :
  let w' := onCommitted 0 tabId url w in
  (isHttpUrl url = true ->
     navByTab w' !! tabId = None
     /\ erroredTabUrl w' !! tabId = None
     /\ (forall st, navByTab w !! tabId = Some st -> timers w' !! timerId st = None)
     /\ (forall t, t <> tabId ->
           navByTab w' !! t = navByTab w !! t /\ erroredTabUrl w' !! t = erroredTabUrl w !! t)
     /\ pages w' = pages w /\ visits w' = visits w)
  /\ (isHttpUrl url = false -> w' = w).
Proof.
  cbv zeta. unfold onCommitted. cbn [Z.eqb negb]. split; intros ->; cbn [negb]; [|done].
  destruct (clearTabState_forgets tabId w) as (? & ? & ? & ?).
  destruct (clearTabState_stores tabId w) as (? & ? & _).
  done.
Qed.

Lemma onErrorOccurred_marks tabId url w :
  erroredTabUrl (onErrorOccurred 0 tabId url w) !! tabId = Some url.
Proof. unfold onErrorOccurred. cbn. apply lookup_insert_eq. Qed.

(** C3: a top-level completion for an http(s) URL that the tab has
    marked as errored forgets the tab, schedules nothing and writes
    nothing: the only calls made are timer cancellations.  A top-level
    completion for any other URL changes nothing, whatever the mark: the
    listener returns before it looks at it. *)
Theorem errored_completion_is_suppressed tabId url w :
  let w' := run (onCompleted 0 tabId url) w in
  (isHttpUrl url = true ->
   erroredTabUrl w !! tabId = Some url ->
   navByTab w' !! tabId = None
   /\ erroredTabUrl w' !! tabId = None
   /\ pages w' = pages w /\ visits w' = visits w
   /\ timers w' ⊆ timers w /\ nextTimer w' = nextTimer w
   /\ exists evs, trace w' = trace w ++ evs /\ forallb isClearTimeout evs = true)
  /\ (isHttpUrl url = false -> w' = w).
Proof.
  cbv zeta. split.
  - intros Hhttp Herr.
    unfold onCompleted, run, bind, getSettings, gets, modify. cbn [Z.eqb negb].
    rewrite Hhttp. cbn [negb fst snd]. rewrite Herr, String.eqb_refl. cbn [snd].
    destruct (clearTabState_forgets tabId w) as (? & ? & _).
    destruct (clearTabState_stores tabId w) as (? & ? & _ & ?).
    repeat split; try done.
    + rewrite clearTabState_timers. destruct (navByTab w !! tabId); [|done].
      apply delete_subseteq.
    + exists (cleared tabId w). split; [apply clearTabState_trace|apply cleared_only_clears].
  - intros Hfile. unfold onCompleted, run. cbn [Z.eqb negb]. by rewrite Hfile.
Qed.

End Debounce.

(** ** The dwell-timer continuation *)

Ltac unfold_sw :=
  cbv [archiveAttempt archiveIfChanged try_catch bind ret throw modify gets lift external
       chrome_tabs_get chrome_scripting_executeScript chrome_tabs_sendMessage
       logVisit putVisit purgeVisitsOlderThan putPageVersion getVersionsByUrlKey
       Date_now crypto_randomUUID makeVersionId sha256Hex captureTabSnapshot
       a_tabId a_url a_urlKey a_transitionType toUrlKey].

Ltac proj :=
  cbn [with_pw_settings with_pages with_visits with_navByTab with_erroredTabUrl
       with_timers with_nextTimer with_tabs with_clock with_uuids with_tick emit
       pw_settings pages visits navByTab erroredTabUrl timers nextTimer tabs clock
       uuids tick trace fst snd negb snap_title snap_html] in *.

Ltac crunch :=
  proj;
  repeat (match goal with
          | |- context [shouldArchiveUrl ?u ?W] => rewrite (shouldArchiveUrl_run u W)
          | Htab : tabs ?w !! ?t = _ |- context [tabs ?w !! ?t] => rewrite Htab
          | |- context [match tabs ?w !! ?t with _ => _ end] => destruct (tabs w !! t) eqn:?
          | |- context [fault ?o ?n] => destruct (fault o n) eqn:?
          | |- context [match ?x with _ => _ end] =>
              lazymatch type of x with World => fail | _ => idtac end;
              lazymatch x with
              | context [match _ with _ => _ end] => fail
              | _ => destruct x eqn:?
              end
          end; proj).

Section Timer.
Context `{Platform}.

Lemma archiveAttempt_frame tabId url w :
  let r := archiveAttempt tabId url w in
  r.1 = Ok tt
  /\ navByTab r.2 = navByTab w /\ erroredTabUrl r.2 = erroredTabUrl w
  /\ timers r.2 = timers w /\ nextTimer r.2 = nextTimer w
  /\ tabs r.2 = tabs w /\ pw_settings r.2 = pw_settings w /\ clock r.2 = clock w.
Proof.
  cbv zeta. unfold_sw. crunch; done.
Qed.

Lemma fireTimer_run id task w :
  timers w !! id = Some task ->
  fireTimer id w
  = clearTabState (task_tabId task)
      (archiveAttempt (task_tabId task) (task_url task)
         (with_timers (delete id (timers w)) w)).2.
Proof. intros Ht. unfold fireTimer, run, archiveTimer, try_finally. rewrite Ht. by destruct (archiveAttempt _ _ _). Qed.

Lemma cleared_no_write tabId w :
  forallb (fun e => negb (isStorageWrite e)) (cleared tabId w) = true.
Proof. unfold cleared. by destruct (navByTab w !! tabId). Qed.

(** C4: when a dwell timer fires, the tab's tracked state is cleared on
    every path, and if the tab cannot be queried or no longer shows the
    scheduled URL, nothing is written to the archive. *)
Theorem timer_fire_aborts_on_mismatch_and_always_cleans id task w :
  timers w !! id = Some task ->
  let tabId := task_tabId task in
  let url := task_url task in
  let w' := fireTimer id w in
  (navByTab w' !! tabId = None
   /\ erroredTabUrl w' !! tabId = None
   /\ timers w' !! id = None
   /\ (forall st, navByTab w !! tabId = Some st -> timers w' !! timerId st = None))
  /\ (tabs w !! tabId = None
      \/ fault OpTabsGet (tick w) = true
      \/ (exists t, tabs w !! tabId = Some t /\ tab_url t <> Some url) ->
      visits w' = visits w /\ pages w' = pages w
      /\ exists evs, trace w' = trace w ++ evs
                     /\ forallb (fun e => negb (isStorageWrite e)) evs = true).
Proof.
  intros Ht. cbv zeta. rewrite (fireTimer_run _ _ _ Ht).
  set (w0 := with_timers (delete id (timers w)) w).
  split.
  - destruct (archiveAttempt_frame (task_tabId task) (task_url task) w0)
      as (_ & Hn & He & Htm & _).
    rewrite clearTabState_navByTab, clearTabState_erroredTabUrl, clearTabState_timers.
    rewrite Hn, He, Htm. subst w0. proj.
    repeat split.
    + apply lookup_delete_eq.
    + apply lookup_delete_eq.
    + destruct (navByTab w !! task_tabId task) as [st|]; [|apply lookup_delete_eq].
      destruct (decide (timerId st = id)) as [->|Hne]; [apply lookup_delete_eq|].
      rewrite lookup_delete_ne by done. apply lookup_delete_eq.
    + intros st ->. apply lookup_delete_eq.
  - intros Hmis.
    destruct (clearTabState_stores (task_tabId task)
                (archiveAttempt (task_tabId task) (task_url task) w0).2) as (-> & -> & _).
    rewrite clearTabState_trace.
    assert (Hbody :
      visits (archiveAttempt (task_tabId task) (task_url task) w0).2 = visits w
      /\ pages (archiveAttempt (task_tabId task) (task_url task) w0).2 = pages w
      /\ exists evs, trace (archiveAttempt (task_tabId task) (task_url task) w0).2
                     = trace w ++ evs
                     /\ forallb (fun e => negb (isStorageWrite e)) evs = true).
    { subst w0. unfold_sw. proj.
      destruct Hmis as [Hno|[Hf|(t & Htab & Hurl)]].
      - rewrite Hno. proj. repeat split. by eexists [_].
      - rewrite Hf. crunch; repeat split; by eexists [_].
      - rewrite Htab. proj. destruct (fault OpTabsGet (tick w)); proj.
        + repeat split. by eexists [_].
        + destruct (tab_url t) as [u|] eqn:Hu; proj.
          * destruct (String.eqb_spec u "") as [->|Hne]; cbn [orb]; proj.
            { repeat split. by eexists [_]. }
            destruct (String.eqb_spec u (task_url task)) as [->|Hne']; [done|].
            cbn [negb]. proj. repeat split. by eexists [_].
          * repeat split. by eexists [_]. }
    destruct Hbody as (-> & -> & evs & -> & Hevs).
    repeat split. exists (evs ++ cleared (task_tabId task) (archiveAttempt (task_tabId task) (task_url task) w0).2).
    split; [by rewrite app_assoc|].
    by rewrite forallb_app, Hevs, cleared_no_write.
Qed.

Lemma fresh_visit_survives_purge (v : Visit) (store : gmap string Visit) now :
  visitAt v = now ->
  Db.purgeVisitsOlderThan (now - DAYS_30_MS) (Db.putVisit v store) !! visitId v = Some v.
Proof.
  intros Hv. rewrite purge_lookup. unfold Db.putVisit. rewrite lookup_insert_eq.
  destruct (visitAt v <? now - DAYS_30_MS) eqn:Hc; [|done].
  apply Z.ltb_lt in Hc. unfold DAYS_30_MS in Hc. lia.
Qed.

(** C10: the policy is consulted again when the timer fires.  If the tab
    still shows the URL and the visit is logged, but the settings now make
    the URL ineligible, the run consists of the tab query, the visit
    append and the purge: no capture is attempted and no version is
    written. *)
Theorem ineligible_at_fire_logs_visit_only id task w t :
  timers w !! id = Some task ->
  let tabId := task_tabId task in
  let url := task_url task in
  tabs w !! tabId = Some t ->
  tab_url t = Some url ->
  url <> "" ->
  fault OpTabsGet (tick w) = false ->
  fault OpPutVisit (S (tick w)) = false ->
  fault OpPurgeVisits (S (S (tick w))) = false ->
  eligible url (normalize (pw_settings w)) = false ->
  let w' := fireTimer id w in
  exists v,
    v_url v = url /\ v_urlKey v = toUrlKey url /\ visitAt v = clock w
    /\ visits w' !! visitId v = Some v
    /\ pages w' = pages w
    /\ exists evs,
         trace w' = trace w ++ ETabsGet tabId true :: EPutVisit v true
                               :: EPurgeVisits (clock w - DAYS_30_MS) true :: evs
         /\ forallb isClearTimeout evs = true.
Proof.
  intros Ht tabId url Htab Hurl Hne Hf0 Hf1 Hf2 Hel. cbv zeta.
  rewrite (fireTimer_run _ _ _ Ht). fold tabId url.
  destruct (clearTabState_stores tabId
              (archiveAttempt tabId url (with_timers (delete id (timers w)) w)).2)
    as (-> & -> & _).
  rewrite clearTabState_trace.
  generalize (cleared_only_clears tabId
                (archiveAttempt tabId url (with_timers (delete id (timers w)) w)).2).
  generalize (cleared tabId
                (archiveAttempt tabId url (with_timers (delete id (timers w)) w)).2).
  intros cl Hcl.
  unfold_sw. proj. rewrite Htab. proj. rewrite Hf0. proj. rewrite Hurl.
  rewrite String.eqb_refl. rewrite (proj2 (String.eqb_neq url "")) by done.
  cbn [orb negb]. proj. rewrite Hf1. proj. rewrite Hf2. proj.
  rewrite shouldArchiveUrl_run. proj. rewrite Hel. cbn [negb]. proj.
  eexists. repeat split; [..|exists cl; split; [|done]].
  5:{ rewrite <- !app_assoc. reflexivity. }
  all: try reflexivity.
  by apply fresh_visit_survives_purge.
Qed.

Lemma cleared_lookup tabId w i e :
  cleared tabId w !! i = Some e -> isCaptureStep e = false /\ isStorageWrite e = false.
Proof.
  unfold cleared. destruct (navByTab w !! tabId); [|done].
  destruct i; cbn; [|done]. by intros [= <-].
Qed.

Lemma elem_of_cleared tabId w e :
  e ∈ cleared tabId w -> isClearTimeout e = true.
Proof.
  unfold cleared. destruct (navByTab w !! tabId); [|by intros ?%elem_of_nil].
  by intros ->%list_elem_of_singleton.
Qed.

(** Membership in an explicit list of calls that ends in the cleanup. *)
Ltac in_trace Hin :=
  repeat (apply elem_of_cons in Hin as [Hin|Hin]; [try discriminate Hin|]);
  try (apply elem_of_cleared in Hin; discriminate Hin);
  try (by apply elem_of_nil in Hin).

(** C5: in every run of a fired timer, any step of the capture (script
    injection, snapshot request, version lookup, version write) comes
    after the visit append and the purge, both completed, and the
    appended visit is in the store at the end; and when the captured
    content has the hash of the newest stored version, the visit is
    logged while the pages store stays as it was. *)
Theorem visit_is_logged_before_any_capture id task w :
  timers w !! id = Some task ->
  let tabId := task_tabId task in
  let url := task_url task in
  let w' := fireTimer id w in
  exists evs,
    trace w' = trace w ++ evs
    /\ (forall i e, evs !! i = Some e -> isCaptureStep e = true ->
          (2 < i)%nat
          /\ exists v,
               evs !! 1%nat = Some (EPutVisit v true)
               /\ evs !! 2%nat = Some (EPurgeVisits (clock w - DAYS_30_MS) true)
               /\ v_url v = url /\ visitAt v = clock w
               /\ visits w' !! visitId v = Some v)
    /\ (forall t r l,
          tabs w !! tabId = Some t -> tab_reply t = Some r ->
          EGetVersions (toUrlKey url) true ∈ evs ->
          head (Db.getVersionsByUrlKey (toUrlKey url) (pages w)) = Some l ->
          hash l = fingerprint (orDefault (r_html r) "") ->
          pages w' = pages w
          /\ (forall p succeeded, EPutPageVersion p succeeded ∉ evs)
          /\ exists v, EPutVisit v true ∈ evs /\ v_url v = url
                       /\ visits w' !! visitId v = Some v).
Proof.
  intros Ht tabId url. cbv zeta.
  rewrite (fireTimer_run _ _ _ Ht). fold tabId url.
  set (w0 := with_timers (delete id (timers w)) w).
  destruct (clearTabState_stores tabId (archiveAttempt tabId url w0).2) as (-> & -> & _).
  rewrite clearTabState_trace.
  pose proof (cleared_lookup tabId (archiveAttempt tabId url w0).2) as Hcl.
  pose proof (elem_of_cleared tabId (archiveAttempt tabId url w0).2) as Hcl'.
  revert Hcl Hcl'. generalize (cleared tabId (archiveAttempt tabId url w0).2).
  intros cl Hcl Hcl'. subst w0. unfold toUrlKey.
  unfold_sw. crunch.
  all: eexists; split; [rewrite <- ?app_assoc; cbn [app]; reflexivity|].
  all: split.
  all: first
    [ (* order *)
      intros i e Hi He;
      repeat (destruct i as [|i]; cbn in Hi; [injection Hi as <-; try discriminate He|]);
      first
        [ by apply Hcl in Hi as [Hc _]; rewrite Hc in He
        | split; [lia|]; eexists; repeat split; try reflexivity;
          by apply fresh_visit_survives_purge ]
    | (* duplicate content *)
      intros t' r' l' Htab' Hr' Hin Hl' Hh'; in_trace Hin;
      first
        [ by apply Hcl' in Hin
        | simplify_eq;
          first
            [ match goal with
              | Hne : String.eqb _ _ = false |- _ => apply String.eqb_neq in Hne; congruence
              end
            | split; [reflexivity|]; split;
              [ intros p succeeded Hp; in_trace Hp; by apply Hcl' in Hp
              | eexists; split; [apply list_elem_of_further, list_elem_of_here|];
                split; [reflexivity|]; by apply fresh_visit_survives_purge ] ] ] ].
Qed.

(** C2: a version is persisted only if its write goes through.  Take a
    run of a fired timer that no other handler interrupts, in which the
    tab shows the URL, the visit is logged, the URL is eligible and the
    capture succeeds.  Then the stored versions of the URL key are read,
    and when the read succeeds and the key has no stored version, or the
    newest one (greatest [capturedAt]) carries another hash than the
    captured markup, one [putPageVersion] is issued, for a version with
    the computed hash; otherwise none is.  The version is in the pages
    store afterwards exactly when it was issued and its transaction
    completed; in every other case the pages store is as it was. *)
Theorem version_persisted_iff_changed_and_written id task w t r :
  let tabId := task_tabId task in
  let url := task_url task in
  let w' := fireTimer id w in
  let h := fingerprint (orDefault (r_html r) "") in
  let latest := head (Db.getVersionsByUrlKey (toUrlKey url) (pages w)) in
  let changed := match latest with
                 | Some l => negb (String.eqb (hash l) h)
                 | None => true
                 end in
  let readOk := negb (fault OpGetVersions (5 + tick w)) in
  let writeOk := negb (fault OpPutPageVersion (6 + tick w)) in
  let visit := mkVisit (randomUUID (uuids w)) url (toUrlKey url) (clock w) "" tabId in
  let version := mkPageVersion (randomUUID (S (uuids w))) url (toUrlKey url)
                   (orDefault (r_title r) "") (clock w) h "text/html"
                   (orDefault (r_html r) "") in
  timers w !! id = Some task ->
  tabs w !! tabId = Some t ->
  tab_url t = Some url ->
  url <> "" ->
  tab_reply t = Some r ->
  ok r = true ->
  eligible url (normalize (pw_settings w)) = true ->
  fault OpTabsGet (tick w) = false ->
  fault OpPutVisit (1 + tick w) = false ->
  fault OpPurgeVisits (2 + tick w) = false ->
  fault OpExecuteScript (3 + tick w) = false ->
  fault OpSendMessage (4 + tick w) = false ->
  match latest with
  | Some l =>
      pv_urlKey l = toUrlKey url /\ (exists k, pages w !! k = Some l)
      /\ forall k p, pages w !! k = Some p -> pv_urlKey p = toUrlKey url ->
                     capturedAt p <= capturedAt l
  | None => forall k p, pages w !! k = Some p -> pv_urlKey p <> toUrlKey url
  end
  /\ pages w' = (if readOk && changed && writeOk
                 then <[versionId version := version]> (pages w)
                 else pages w)
  /\ exists evs,
       trace w'
       = trace w
         ++ [ETabsGet tabId true; EPutVisit visit true;
             EPurgeVisits (clock w - DAYS_30_MS) true;
             EExecuteScript tabId true; ESendMessage tabId true;
             EGetVersions (toUrlKey url) readOk]
         ++ (if readOk && changed then [EPutPageVersion version writeOk] else [])
         ++ evs
       /\ forallb isClearTimeout evs = true.
Proof.
  cbv zeta. intros Hid Htab Hurl Hne Hr Hok Hel Hf0 Hf1 Hf2 Hf3 Hf4.
  split; [apply latest_version_newest|].
  rewrite (fireTimer_run _ _ _ Hid).
  set (w0 := with_timers (delete id (timers w)) w).
  pose proof (clearTabState_stores (task_tabId task)
                (archiveAttempt (task_tabId task) (task_url task) w0).2) as (-> & _).
  rewrite clearTabState_trace.
  generalize (cleared_only_clears (task_tabId task)
                (archiveAttempt (task_tabId task) (task_url task) w0).2).
  generalize (cleared (task_tabId task)
                (archiveAttempt (task_tabId task) (task_url task) w0).2).
  intros cl Hcl. subst w0. unfold toUrlKey in *.
  cbn [Nat.add] in *.
  unfold_sw. proj. rewrite Htab. proj. rewrite Hf0. proj. rewrite Hurl.
  rewrite String.eqb_refl. rewrite (proj2 (String.eqb_neq _ _) Hne).
  cbn [orb negb]. proj. rewrite Hf1. proj. rewrite Hf2. proj.
  rewrite shouldArchiveUrl_run. proj. rewrite Hel. cbn [negb]. proj. rewrite Htab. proj.
  rewrite Hf3. proj. rewrite Htab. proj. rewrite Hf4. proj. rewrite Hr, Hok. proj.
  destruct (fault OpGetVersions _); cbn [negb andb]; proj.
  { split; [done|]. exists cl. split; [|done]. by rewrite <- !app_assoc. }
  destruct (head (Db.getVersionsByUrlKey (task_url task) (pages w))) as [l|].
  - destruct (String.eqb (hash l) _); cbn [negb andb]; proj.
    + split; [done|]. exists cl. split; [|done]. by rewrite <- !app_assoc.
    + destruct (fault OpPutPageVersion _); cbn [negb]; proj.
      all: split; [done|]; exists cl; split; [|done]; by rewrite <- !app_assoc.
  - cbn [negb andb]. destruct (fault OpPutPageVersion _); cbn [negb]; proj.
    all: split; [done|]; exists cl; split; [|done]; by rewrite <- !app_assoc.
Qed.

End Timer.

(** ** Worked examples on the sample platform *)

(** C1 does not hold for every committed URL: a top-level commit to a
    local file leaves the tab's entry and its pending timer in place. *)
Lemma commit_to_local_file_keeps_timer :
  isHttpUrl (H := Sample.reliable) Sample.localFile = false
  /\ navByTab (onCommitted (H := Sample.reliable) 0 1 Sample.localFile Sample.dwelling) !! 1
     = Some (mkNavState "https://example.com/" 1700000000000 false 1)
  /\ timers (onCommitted (H := Sample.reliable) 0 1 Sample.localFile Sample.dwelling)
       !! 1%positive
     = Some Sample.task0.
Proof. repeat split; vm_compute; reflexivity. Qed.

Lemma commit_http_forgets_tab_witness :
  isHttpUrl (H := Sample.reliable) "https://example.com/other" = true
  /\ navByTab (onCommitted (H := Sample.reliable) 0 1 "https://example.com/other"
                 Sample.dwelling) !! 1 = None
  /\ timers (onCommitted (H := Sample.reliable) 0 1 "https://example.com/other"
               Sample.dwelling) !! 1%positive = None.
Proof.
  split; [reflexivity|].
  destruct (commit_http_forgets_tab (H := Sample.reliable) 1 "https://example.com/other"
              Sample.dwelling) as [Hhttp _].
  destruct (Hhttp eq_refl) as (Hnav & _ & Htimer & _).
  split; [exact Hnav|].
  apply (Htimer (mkNavState "https://example.com/" 1700000000000 false 1)).
  vm_compute. reflexivity.
Defined.

(** C3 does not hold for every URL: the completion of a local file that
    was marked as errored returns before the mark is looked at, and the
    mark stays. *)
Lemma errored_file_completion_keeps_mark :
  erroredTabUrl Sample.failedFile !! 1 = Some Sample.localFile
  /\ erroredTabUrl (run (onCompleted (H := Sample.reliable) 0 1 Sample.localFile)
                      Sample.failedFile) !! 1
     = Some Sample.localFile.
Proof. split; vm_compute; reflexivity. Qed.

Lemma errored_completion_is_suppressed_witness :
  isHttpUrl (H := Sample.reliable) "https://example.com/" = true
  /\ erroredTabUrl Sample.failedLoad !! 1 = Some "https://example.com/"
  /\ navByTab (run (onCompleted (H := Sample.reliable) 0 1 "https://example.com/")
                 Sample.failedLoad) !! 1 = None
  /\ erroredTabUrl (run (onCompleted (H := Sample.reliable) 0 1 "https://example.com/")
                      Sample.failedLoad) !! 1 = None.
Proof.
  assert (Hhttp : isHttpUrl (H := Sample.reliable) "https://example.com/" = true)
    by reflexivity.
  assert (Hmark : erroredTabUrl Sample.failedLoad !! 1 = Some "https://example.com/")
    by (vm_compute; reflexivity).
  destruct (errored_completion_is_suppressed (H := Sample.reliable) 1
              "https://example.com/" Sample.failedLoad) as [Hsuppressed _].
  destruct (Hsuppressed Hhttp Hmark) as (Hnav & Herr & _).
  exact (conj Hhttp (conj Hmark (conj Hnav Herr))).
Defined.

Lemma timer_fire_aborts_on_mismatch_and_always_cleans_witness :
  timers Sample.navigatedAway !! 1%positive = Some Sample.task0
  /\ navByTab (fireTimer (H := Sample.reliable) 1 Sample.navigatedAway) !! 1 = None
  /\ visits (fireTimer (H := Sample.reliable) 1 Sample.navigatedAway) = ∅
  /\ pages (fireTimer (H := Sample.reliable) 1 Sample.navigatedAway) = ∅.
Proof.
  assert (Ht : timers Sample.navigatedAway !! 1%positive = Some Sample.task0)
    by (vm_compute; reflexivity).
  destruct (timer_fire_aborts_on_mismatch_and_always_cleans (H := Sample.reliable) 1
              Sample.task0 Sample.navigatedAway Ht) as [(Hnav & _) Habort].
  destruct Habort as (Hv & Hp & _).
  { right. right.
    exists {| tab_url := Some "https://example.com/other"; tab_reply := None |}.
    split; [vm_compute; reflexivity|discriminate]. }
  exact (conj Ht (conj Hnav (conj Hv Hp))).
Defined.

Lemma ineligible_at_fire_logs_visit_only_witness :
  eligible (H := Sample.reliable) "https://example.com/"
    (normalize (pw_settings Sample.dwelling)) = true
  /\ eligible (H := Sample.reliable) "https://example.com/"
       (normalize (pw_settings Sample.switchedOff)) = false
  /\ exists v,
       v_url v = "https://example.com/"
       /\ visits (fireTimer (H := Sample.reliable) 1 Sample.switchedOff) !! visitId v = Some v
       /\ pages (fireTimer (H := Sample.reliable) 1 Sample.switchedOff)
          = pages Sample.switchedOff.
Proof.
  split; [reflexivity|]. split; [reflexivity|].
  destruct (ineligible_at_fire_logs_visit_only (H := Sample.reliable) 1 Sample.task0
              Sample.switchedOff (Sample.page "<html>A</html>"))
    as (v & Hu & _ & _ & Hv & Hp & _).
  - vm_compute. reflexivity.
  - vm_compute. reflexivity.
  - reflexivity.
  - discriminate.
  - reflexivity.
  - reflexivity.
  - reflexivity.
  - reflexivity.
  - exists v. exact (conj Hu (conj Hv Hp)).
Defined.

Lemma visit_is_logged_before_any_capture_witness :
  timers Sample.revisited !! 2%positive = Some Sample.task0
  /\ pages (fireTimer (H := Sample.reliable) 2 Sample.revisited) = pages Sample.revisited
  /\ exists v,
       v_url v = "https://example.com/"
       /\ visits (fireTimer (H := Sample.reliable) 2 Sample.revisited) !! visitId v = Some v.
Proof.
  assert (Ht : timers Sample.revisited !! 2%positive = Some Sample.task0)
    by (vm_compute; reflexivity).
  destruct (visit_is_logged_before_any_capture (H := Sample.reliable) 2 Sample.task0
              Sample.revisited Ht) as (evs & Htr & _ & Hdup).
  assert (Hevs : evs = [ETabsGet 1 true;
                        EPutVisit (mkVisit "uuid-ii" "https://example.com/"
                                     "https://example.com/" 1700000000000 "" 1) true;
                        EPurgeVisits 1697408000000 true;
                        EExecuteScript 1 true; ESendMessage 1 true;
                        EGetVersions "https://example.com/" true; EClearTimeout 2]).
  { apply (app_inv_head (trace Sample.revisited)). rewrite <- Htr. vm_compute. reflexivity. }
  destruct (Hdup (Sample.page "<html>A</html>")
              (mkReply true (Some "Example") (Some "<html>A</html>") None)
              Sample.version0) as (Hp & _ & v & _ & Hu & Hv).
  - vm_compute. reflexivity.
  - reflexivity.
  - rewrite Hevs. do 5 apply list_elem_of_further. apply list_elem_of_here.
  - vm_compute. reflexivity.
  - vm_compute. reflexivity.
  - split; [exact Ht|]. split; [exact Hp|]. exists v. exact (conj Hu Hv).
Defined.

(** C2 does not hold as stated: the capture succeeds, the key has no
    stored version and the write is issued, but its transaction aborts,
    and no version is persisted. *)
Lemma aborted_write_persists_nothing :
  timers Sample.dwelling !! 1%positive = Some Sample.task0
  /\ head (Db.getVersionsByUrlKey "https://example.com/" (pages Sample.dwelling)) = None
  /\ trace (fireTimer (H := Sample.failing OpPutPageVersion) 1 Sample.dwelling)
     = trace Sample.dwelling
       ++ [ETabsGet 1 true; EPutVisit Sample.visit0 true; EPurgeVisits 1697408000000 true;
           EExecuteScript 1 true; ESendMessage 1 true;
           EGetVersions "https://example.com/" true;
           EPutPageVersion Sample.version0 false; EClearTimeout 1]
  /\ pages (fireTimer (H := Sample.failing OpPutPageVersion) 1 Sample.dwelling) = ∅.
Proof.
  split; [vm_compute; reflexivity|]. split; [vm_compute; reflexivity|].
  split; vm_compute; reflexivity.
Qed.

Lemma version_persisted_iff_changed_and_written_witness :
  timers changedPage !! 2%positive = Some Sample.task0
  /\ head (Db.getVersionsByUrlKey "https://example.com/" (pages changedPage))
     = Some Sample.version0
  /\ hash Sample.version0 <> fingerprint (H := Sample.reliable) "<html>B</html>"
  /\ pages (fireTimer (H := Sample.reliable) 2 changedPage)
     = <[ "uuid-iii" :=
            mkPageVersion "uuid-iii" "https://example.com/" "https://example.com/" "Example"
              1700000000000 "3c68746d6c3e423c2f68746d6c3e" "text/html" "<html>B</html>" ]>
         (pages changedPage).
Proof.
  assert (Ht : timers changedPage !! 2%positive = Some Sample.task0)
    by (vm_compute; reflexivity).
  split; [exact Ht|]. split; [vm_compute; reflexivity|]. split; [discriminate|].
  destruct (version_persisted_iff_changed_and_written (H := Sample.reliable) 2 Sample.task0
              changedPage (Sample.page "<html>B</html>")
              (mkReply true (Some "Example") (Some "<html>B</html>") None) Ht)
    as (_ & Hpages & _).
  - vm_compute. reflexivity.
  - reflexivity.
  - discriminate.
  - reflexivity.
  - reflexivity.
  - reflexivity.
  - reflexivity.
  - reflexivity.
  - reflexivity.
  - reflexivity.
  - reflexivity.
  - rewrite Hpages. vm_compute. reflexivity.
Defined.

Lemma malformed_patterns_are_skipped_witness :
  Forall (fun p => compiles p = false) ["*.tracker.example/*"; "a**"]
  /\ urlMatchesPatterns "https://ads.tracker.example/x" ["*.tracker.example/*"; "a**"]
     = Ok false.
Proof.
  assert (Hbad : Forall (fun p => compiles p = false) ["*.tracker.example/*"; "a**"])
    by (repeat constructor).
  destruct (malformed_patterns_are_skipped (H := Sample.reliable)
              "https://ads.tracker.example/x" ["*.tracker.example/*"; "a**"])
    as (_ & Hskip & _).
  exact (conj Hbad (Hskip Hbad)).
Defined.

Lemma toggle_host_twice_restores_witness :
  sortedDedup (disabledHosts (normalize (pw_settings Sample.listed))) = true
  /\ disabledHosts
       (normalize
          (pw_settings
             (onMessage (H := Sample.reliable) (PW_TOGGLE_HOST (Some "https://m.example/inbox"))
                Sample.listed).2))
     = ["a.example"; "m.example"; "z.example"]
  /\ disabledHosts
       (normalize
          (pw_settings
             (onMessage (H := Sample.reliable) (PW_TOGGLE_HOST (Some "https://m.example/inbox"))
                (onMessage (H := Sample.reliable)
                   (PW_TOGGLE_HOST (Some "https://m.example/inbox")) Sample.listed).2).2))
     = ["a.example"; "z.example"].
Proof.
  assert (Hs : sortedDedup (disabledHosts (normalize (pw_settings Sample.listed))) = true)
    by reflexivity.
  destruct (toggle_host_twice_restores (H := Sample.reliable) "https://m.example/inbox"
              Sample.listed Hs) as (Hback & _).
  split; [exact Hs|]. split; [vm_compute; reflexivity|]. exact Hback.
Defined.

(** * Further properties *)

(** ** Which patterns compile, and what star-free patterns match *)

Lemma parse_cons c rest acc :
  JSRegExp.parse (String c rest) acc
  = if Ascii.eqb c "\" then
      match rest with
      | EmptyString => Throw "\ at end of pattern"
      | String d rest' =>
          if JSRegExp.isSyntaxCharacter d
          then JSRegExp.parse rest' (JSRegExp.One (JSRegExp.Lit d) :: acc)
          else Throw "unmodelled escape"
      end
    else if Ascii.eqb c "*" then
      match acc with
      | JSRegExp.One a :: acc' => JSRegExp.parse rest (JSRegExp.Many a :: acc')
      | _ => Throw "Nothing to repeat"
      end
    else if Ascii.eqb c "^" then JSRegExp.parse rest (JSRegExp.Bol :: acc)
    else if Ascii.eqb c "$" then JSRegExp.parse rest (JSRegExp.Eol :: acc)
    else if Ascii.eqb c "." then JSRegExp.parse rest (JSRegExp.One JSRegExp.AnyChar :: acc)
    else if JSRegExp.isUnmodelled c then Throw "unmodelled syntax"
    else JSRegExp.parse rest (JSRegExp.One (JSRegExp.Lit c) :: acc).
Proof. done. Qed.

(** A character the first [replace] leaves alone and that is no star is
    read as itself. *)
Lemma parse_plain c rest acc :
  isEscapedMeta c = false -> Ascii.eqb c "*" = false ->
  JSRegExp.parse (String c rest) acc
  = JSRegExp.parse rest (JSRegExp.One (JSRegExp.Lit c) :: acc).
Proof.
  intros Hm Hs. rewrite parse_cons, Hs.
  revert Hm. unfold isEscapedMeta, JSRegExp.isUnmodelled, JSRegExp.mem_ascii. simpl.
  rewrite !orb_false_iff. intros (Hdot & Hplus & Hq & Hcaret & Hdollar & Hrest).
  destruct Hrest as (? & ? & ? & ? & ? & ? & ? & Hbs & _).
  rewrite Hbs, Hcaret, Hdollar, Hdot, Hplus, Hq. simpl.
  repeat match goal with Hx : Ascii.eqb c _ = false |- _ => rewrite Hx; clear Hx end.
  done.
Qed.

Lemma parse_escaped c rest acc :
  isEscapedMeta c = true ->
  JSRegExp.parse (String "\" (String c rest)) acc
  = JSRegExp.parse rest (JSRegExp.One (JSRegExp.Lit c) :: acc).
Proof.
  intros Hm. rewrite parse_cons. change (Ascii.eqb "\" "\") with true. cbv iota.
  by rewrite (escaped_is_syntax _ Hm).
Qed.

Lemma parse_star rest acc :
  JSRegExp.parse (String "*" rest) acc
  = match acc with
    | JSRegExp.One a :: acc' => JSRegExp.parse rest (JSRegExp.Many a :: acc')
    | _ => Throw "Nothing to repeat"
    end.
Proof. done. Qed.


Lemma parse_source_ok pattern acc :
  isOk (JSRegExp.parse (replaceBackslashStar (escapeMeta pattern) +:+ "$") acc)
  = starsRepeatable (headIsAtom acc) pattern.
Proof.
  revert acc. induction pattern as [|c|c d s IHs IHd] using string_pair_ind; intros acc.
  - done.
  - rewrite escapeMeta_cons. change (escapeMeta "") with "".
    cbn [starsRepeatable].
    destruct (isEscapedMeta c) eqn:Hc.
    + rewrite (escaped_not_star _ Hc).
      rewrite replaceBackslashStar_escaped by done.
      change (replaceBackslashStar (String c "")) with (String c "").
      rewrite !append_cons, append_nil, parse_escaped by done. done.
    + change (replaceBackslashStar (String c "")) with (String c "").
      rewrite append_cons, append_nil.
      destruct (Ascii.eqb_spec c "*") as [->|Hne].
      * rewrite parse_star. destruct acc as [|[| |a|a] acc]; cbn; by rewrite ?andb_true_r.
      * rewrite parse_plain by (done || by apply Ascii.eqb_neq). done.
  - rewrite escapeMeta_cons.
    change (starsRepeatable (headIsAtom acc) (String c (String d s)))
      with (if Ascii.eqb c "*" then headIsAtom acc && starsRepeatable false (String d s)
            else starsRepeatable true (String d s)).
    destruct (isEscapedMeta c) eqn:Hc.
    + rewrite (escaped_not_star _ Hc).
      rewrite replaceBackslashStar_escaped by done.
      destruct (Ascii.eqb_spec c "\") as [->|Hne].
      * destruct (escapeMeta_star_head (String d s)) as [(s' & [= -> ->] & ->)|Hno].
        -- change (replaceBackslashStar (String "\" (String "*" ?e)))
             with (String "." (String "*" (replaceBackslashStar e))).
           rewrite !append_cons, parse_escaped by done.
           rewrite parse_star, IHs. done.
        -- rewrite replaceBackslashStar_cons.
           destruct (escapeMeta (String d s)) as [|x e] eqn:Ee.
           { rewrite escapeMeta_cons in Ee. by destruct (isEscapedMeta d). }
           destruct (Ascii.eqb_spec x "*") as [->|Hx]; [by destruct (Hno e)|].
           rewrite andb_false_r, !append_cons.
           rewrite parse_escaped by done. rewrite IHd. done.
      * rewrite replaceBackslashStar_keep by by apply Ascii.eqb_neq.
        rewrite !append_cons, parse_escaped by done. rewrite IHd. done.
    + destruct (unescaped_is_modelled _ Hc) as [Hb Hu].
      rewrite replaceBackslashStar_keep by done. rewrite append_cons.
      destruct (Ascii.eqb_spec c "*") as [->|Hne].
      * rewrite parse_star.
        destruct acc as [|[| |a|a] acc]; cbn [headIsAtom andb isOk]; try done.
      * rewrite parse_plain by (done || by apply Ascii.eqb_neq). by rewrite IHd.
Qed.

Lemma starsRepeatable_shape prev pattern :
  starsRepeatable prev pattern
  = (prev || negb (startsWithStar pattern)) && negb (hasDoubleStar pattern).
Proof.
  revert prev. induction pattern as [|c|c d s IHs IHd] using string_pair_ind; intros prev.
  - by destruct prev.
  - cbn. destruct (Ascii.eqb c "*"), prev; done.
  - change (starsRepeatable prev (String c (String d s)))
      with (if Ascii.eqb c "*" then prev && starsRepeatable false (String d s)
            else starsRepeatable true (String d s)).
    change (hasDoubleStar (String c (String d s)))
      with ((Ascii.eqb c "*" && Ascii.eqb d "*") || hasDoubleStar (String d s)).
    rewrite !IHd. cbn [startsWithStar].
    destruct (Ascii.eqb c "*"), (Ascii.eqb d "*"), prev; cbn; done.
Qed.

(** X1: a pattern survives [new RegExp] exactly when it neither opens with
    a star nor holds two stars in a row; every other pattern is dropped by
    the loop of [urlMatchesPatterns]. *)
Theorem pattern_compiles_iff_stars_repeatable pattern :
  compiles pattern = negb (startsWithStar pattern) && negb (hasDoubleStar pattern).
Proof.
  change (negb (startsWithStar pattern))
    with (false || negb (startsWithStar pattern)).
  rewrite <- (starsRepeatable_shape false). unfold compiles, wildcardToRegExp, regexStr.
  unfold JSRegExp.RegExp_new. rewrite append_cons, append_nil.
  change (JSRegExp.parse (String "^" ?r) []) with (JSRegExp.parse r [JSRegExp.Bol]).
  change false with (headIsAtom [JSRegExp.Bol]).
  rewrite <- (parse_source_ok pattern [JSRegExp.Bol]).
  by destruct (JSRegExp.parse _ _).
Qed.

(** *** Star-free patterns *)

Lemma hasStar_cons c s : hasStar (String c s) = Ascii.eqb "*" c || hasStar s.
Proof. done. Qed.

Lemma star_free_source pattern :
  hasStar pattern = false ->
  replaceBackslashStar (escapeMeta pattern) = escapeMeta pattern.
Proof.
  induction pattern as [|c|c d s IHs IHd] using string_pair_ind; intros Hs.
  - done.
  - rewrite escapeMeta_cons. destruct (isEscapedMeta c) eqn:Hc; [|done].
    by rewrite replaceBackslashStar_escaped.
  - rewrite hasStar_cons in Hs. apply orb_false_iff in Hs as [Hc' Hs].
    rewrite escapeMeta_cons. destruct (isEscapedMeta c) eqn:Hc.
    + rewrite replaceBackslashStar_escaped by done.
      rewrite replaceBackslashStar_cons.
      destruct (escapeMeta_star_head (String d s)) as [(s' & [= -> ->] & _)|Hno].
      { rewrite hasStar_cons in Hs. done. }
      destruct (escapeMeta (String d s)) as [|x e] eqn:Ee; [done|].
      destruct (Ascii.eqb_spec x "*") as [->|Hx]; [by destruct (Hno e)|].
      by rewrite andb_false_r, IHd.
    + destruct (unescaped_is_modelled _ Hc) as [Hb _].
      rewrite replaceBackslashStar_keep by done. by rewrite IHd.
Qed.

Lemma parse_star_free pattern acc :
  hasStar pattern = false ->
  JSRegExp.parse (escapeMeta pattern +:+ "$") acc
  = Ok (rev acc ++ literalTerms pattern ++ [JSRegExp.Eol]).
Proof.
  revert acc. induction pattern as [|c s IH]; intros acc Hs.
  - done.
  - rewrite hasStar_cons in Hs. apply orb_false_iff in Hs as [Hc' Hs].
    rewrite Ascii.eqb_sym in Hc'.
    rewrite escapeMeta_cons. destruct (isEscapedMeta c) eqn:Hc.
    + rewrite !append_cons, parse_escaped, IH by done.
      cbn [rev]. rewrite <- app_assoc. done.
    + rewrite append_cons, parse_plain, IH by done.
      cbn [rev]. rewrite <- app_assoc. done.
Qed.

Lemma match_literal s at_start url :
  JSRegExp.match_here (literalTerms s ++ [JSRegExp.Eol]) at_start url = String.eqb url s.
Proof.
  revert at_start url. induction s as [|c s IH]; intros at_start url.
  - by destruct url.
  - destruct url as [|d url]; [done|].
    change (literalTerms (String c s) ++ [JSRegExp.Eol])
      with (JSRegExp.One (JSRegExp.Lit c) :: (literalTerms s ++ [JSRegExp.Eol])).
    cbn [JSRegExp.match_here JSRegExp.atom_matches]. rewrite IH.
    cbn [String.eqb]. rewrite (Ascii.eqb_sym c d). by destruct (Ascii.eqb d c).
Qed.

Lemma search_anchored_later ts url :
  JSRegExp.search (JSRegExp.Bol :: ts) false url = false.
Proof. induction url as [|d url IH]; cbn; [done|]. exact IH. Qed.

Lemma test_anchored ts url :
  JSRegExp.test (JSRegExp.Bol :: ts) url = JSRegExp.match_here ts true url.
Proof.
  unfold JSRegExp.test. destruct url as [|d url]; cbn [JSRegExp.search JSRegExp.match_here].
  - by rewrite orb_false_r.
  - rewrite search_anchored_later, orb_false_r. done.
Qed.

Lemma star_free_pattern_matches url pattern :
  hasStar pattern = false -> patternMatches url pattern = String.eqb url pattern.
Proof.
  intros Hs. unfold patternMatches, wildcardToRegExp, regexStr, JSRegExp.RegExp_new.
  rewrite star_free_source by done. rewrite append_cons, append_nil.
  change (JSRegExp.parse (String "^" ?r) []) with (JSRegExp.parse r [JSRegExp.Bol]).
  rewrite parse_star_free by done. cbn [rev app].
  rewrite test_anchored. apply match_literal.
Qed.

Lemma urlMatchesPatterns_exists url patterns :
  urlMatchesPatterns url patterns = Ok (existsb (patternMatches url) patterns).
Proof.
  induction patterns as [|p ps IH]; [done|].
  cbn [urlMatchesPatterns existsb]. unfold patternMatches at 1.
  destruct (wildcardToRegExp p) as [re|]; [|done].
  by destruct (JSRegExp.test re url).
Qed.

(** X2: on a denylist of star-free patterns the match is string equality:
    the URL is matched exactly when it is one of the patterns, in full. *)
Theorem star_free_patterns_match_exactly url patterns :
  forallb (fun p => negb (hasStar p)) patterns = true ->
  urlMatchesPatterns url patterns = Ok (includes url patterns).
Proof.
  intros Hall. rewrite urlMatchesPatterns_exists. f_equal. unfold includes.
  induction patterns as [|p ps IH]; [done|].
  cbn in Hall. apply andb_true_iff in Hall as [Hp Hall].
  cbn [existsb]. rewrite IH by done.
  rewrite star_free_pattern_matches by by apply negb_true_iff. done.
Qed.

(** X3: the verdict on a URL depends only on which patterns are on the
    list, not on their order or on repetitions. *)
Theorem denylist_order_is_irrelevant url patterns patterns' :
  (forall p, p ∈ patterns <-> p ∈ patterns') ->
  urlMatchesPatterns url patterns = urlMatchesPatterns url patterns'.
Proof.
  intros Hsame. rewrite !urlMatchesPatterns_exists. f_equal.
  apply eq_true_iff_eq. rewrite !existsb_exists.
  setoid_rewrite <- list_elem_of_In. split; intros (p & Hp & Hm); exists p; split; try done.
  - by apply Hsame.
  - by apply Hsame.
Qed.

(** ** Trimming *)

Lemma trimStart_head s :
  trimStart s = "" \/ exists c r, trimStart s = String c r /\ isWhiteSpace c = false.
Proof.
  induction s as [|c s IH]; [by left|]. cbn [trimStart].
  destruct (isWhiteSpace c) eqn:Hc; [done|]. right. eauto.
Qed.

Lemma trimEnd_cons c s :
  isWhiteSpace c = false -> exists r, trimEnd (String c s) = String c r.
Proof. intros Hc. cbn [trimEnd]. rewrite Hc. destruct (trimEnd s); eauto. Qed.

Lemma trimEnd_idemp s : trimEnd (trimEnd s) = trimEnd s.
Proof.
  induction s as [|c s IH]; [done|]. cbn [trimEnd].
  destruct (trimEnd s) as [|d t] eqn:Ht.
  - destruct (isWhiteSpace c) eqn:Hc; [done|]. cbn [trimEnd]. by rewrite Hc.
  - cbn [trimEnd] in *. by rewrite IH.
Qed.

Lemma trim_idemp s : trim (trim s) = trim s.
Proof.
  unfold trim. destruct (trimStart_head s) as [->|(c & r & -> & Hc)]; [done|].
  destruct (trimEnd_cons c r Hc) as [t Ht]. rewrite Ht.
  cbn [trimStart]. rewrite Hc, <- Ht. apply trimEnd_idemp.
Qed.

Lemma trim_blank s : allWhiteSpace s = true -> trim s = "".
Proof.
  unfold trim. induction s as [|c s IH]; [done|]. cbn [allWhiteSpace trimStart].
  intros [-> Hs]%andb_true_iff. auto.
Qed.

(** ** Settings and the popup commands *)

Lemma existsb_elem_of {A} (f : A -> bool) (l l' : list A) :
  (forall x, x ∈ l -> f x = true -> exists y, y ∈ l' /\ f y = true) ->
  existsb f l = true -> existsb f l' = true.
Proof.
  intros Hsub. rewrite !existsb_exists. setoid_rewrite <- list_elem_of_In.
  intros (x & Hx & Hf). eauto.
Qed.

Lemma with_pw_settings_twice a b w :
  with_pw_settings a (with_pw_settings b w) = with_pw_settings a w.
Proof. by destruct w. Qed.

Ltac run_command :=
  cbv zeta;
  unfold onMessage, onAddUrlPattern, onRemoveUrlPattern, onSetMinStayMs,
    bind, getSettings, setSettings, gets, modify, ret;
  cbn [fst snd pw_settings with_pw_settings normalize default enabled minStayMs
       disabledHosts disabledUrlPatterns s_enabled s_minStayMs s_disabledHosts
       s_disabledUrlPatterns from_option id].

Section Commands.
Context `{Platform}.

(** X5: with archiving on, [PW_TOGGLE_ENABLED] answers with the settings
    it stored, which differ from the old ones in the switch alone; from
    then on no URL is eligible and a completed navigation schedules no
    timer; a second toggle restores the settings. *)
Theorem switching_off_blocks_everything w :
  let s0 := normalize (pw_settings w) in
  let r1 := onMessage PW_TOGGLE_ENABLED w in
  let s1 := normalize (pw_settings r1.2) in
  enabled s0 = true ->
  r1.1 = Ok (RespOk s1)
  /\ s1 = mkSettings false (minStayMs s0) (disabledHosts s0) (disabledUrlPatterns s0)
  /\ (forall url, shouldArchiveUrl url r1.2 = (Ok false, r1.2))
  /\ (forall frameId tabId url,
        timers (run (onCompleted frameId tabId url) r1.2) ⊆ timers w)
  /\ normalize (pw_settings (onMessage PW_TOGGLE_ENABLED r1.2).2) = s0.
Proof.
  cbv zeta. intros He.
  assert (Hoff : forall url,
            shouldArchiveUrl url (onMessage PW_TOGGLE_ENABLED w).2
            = (Ok false, (onMessage PW_TOGGLE_ENABLED w).2)).
  { intros url. rewrite shouldArchiveUrl_run. f_equal. f_equal.
    unfold eligible. run_command. rewrite He. cbn. by destruct (isHttpUrl url). }
  split; [|split; [|split; [|split]]].
  - by run_command.
  - run_command. by rewrite He.
  - done.
  - intros frameId tabId url. unfold run, onCompleted.
    destruct (frameId =? 0); cbn [negb]; [|by run_command].
    destruct (isHttpUrl url); cbn [negb]; [|by run_command].
    unfold bind at 1. unfold getSettings at 1, gets at 1. unfold bind at 1. unfold gets at 1.
    assert (Hsub : forall w', timers w' = timers w ->
              timers (clearTabState tabId w') ⊆ timers w).
    { intros w' Hw'. rewrite clearTabState_timers, <- Hw'.
      destruct (navByTab w' !! tabId); [apply delete_subseteq|done]. }
    destruct (match erroredTabUrl _ !! tabId with Some u => String.eqb u url | None => false end).
    + unfold modify. cbn [snd]. by apply Hsub.
    + unfold bind. rewrite Hoff. cbn [negb]. unfold modify. cbn [snd]. by apply Hsub.
  - run_command. rewrite He. by destruct (pw_settings w) as [[[] [] [] []]|]; cbn in *; subst.
Qed.

(** X6: once [PW_TOGGLE_HOST] has put the host of a URL on the denylist,
    no URL of that host is eligible. *)
Theorem toggled_host_is_blocked url url' w :
  nonEmpty (hostOf url) = true ->
  includes (hostOf url) (disabledHosts (normalize (pw_settings w))) = false ->
  hostOf url' = hostOf url ->
  let w1 := (onMessage (PW_TOGGLE_HOST (Some url)) w).2 in
  includes (hostOf url) (disabledHosts (normalize (pw_settings w1))) = true
  /\ shouldArchiveUrl url' w1 = (Ok false, w1).
Proof.
  intros Hh Hout Hsame. cbv zeta.
  assert (Hin : includes (hostOf url)
                  (disabledHosts
                     (normalize (pw_settings (onMessage (PW_TOGGLE_HOST (Some url)) w).2)))
                = true).
  { run_command. rewrite orDefault_id, toggleHost_flips by done. by rewrite Hout. }
  split; [done|]. rewrite shouldArchiveUrl_run. f_equal. f_equal.
  unfold eligible. rewrite Hsame, Hh, Hin. cbn.
  destruct (isHttpUrl url'); [|done]. cbn. by destruct (enabled _).
Qed.

End Commands.

(** The pattern list [PW_ADD_URL_PATTERN] writes. *)
Lemma added_patterns_sorted p (l : list string) :
  sortedDedup (Array_sort (Set_add p (Set_new l))) = true.
Proof. apply Array_sort_sortedDedup, Set_add_NoDup, Set_new_NoDup. Qed.

Lemma elem_of_added_patterns q p (l : list string) :
  q ∈ Array_sort (Set_add p (Set_new l)) <-> q = p \/ q ∈ l.
Proof. unfold Array_sort. by rewrite elem_of_sort_by, elem_of_Set_add, elem_of_Set_new. Qed.

Lemma sortedDedup_unique (l l' : list string) :
  sortedDedup l = true -> sortedDedup l' = true ->
  (forall q, q ∈ l <-> q ∈ l') -> l = l'.
Proof.
  intros Hl Hl' Hsame.
  apply (Sorted_unique (rel_of String.leb)).
  - by apply Sorted_ltb_leb, sortedDedup_Sorted.
  - by apply Sorted_ltb_leb, sortedDedup_Sorted.
  - apply NoDup_Permutation; [| |done].
    + by apply Sorted_ltb_NoDup, sortedDedup_Sorted.
    + by apply Sorted_ltb_NoDup, sortedDedup_Sorted.
Qed.

(** X7: [PW_ADD_URL_PATTERN] with a pattern that is not blank stores the
    old patterns and the trimmed new one, strictly ascending and so
    without repetition, answers with the stored settings, leaves the other
    settings alone, and sending it again changes nothing. *)
Theorem add_url_pattern_sorted_union pattern w :
  let p := trim pattern in
  let s0 := normalize (pw_settings w) in
  let r := onAddUrlPattern (Some pattern) w in
  let s1 := normalize (pw_settings r.2) in
  nonEmpty p = true ->
  r.1 = Ok (RespOk s1)
  /\ sortedDedup (disabledUrlPatterns s1) = true
  /\ (forall q, q ∈ disabledUrlPatterns s1 <-> q = p \/ q ∈ disabledUrlPatterns s0)
  /\ (enabled s1, minStayMs s1, disabledHosts s1)
     = (enabled s0, minStayMs s0, disabledHosts s0)
  /\ (onAddUrlPattern (Some pattern) r.2).2 = r.2.
Proof.
  cbv zeta. intros Hp. unfold onAddUrlPattern. rewrite orDefault_id, Hp. run_command.
  split; [done|]. split; [apply added_patterns_sorted|].
  split; [intros q; apply elem_of_added_patterns|]. split; [done|].
  rewrite with_pw_settings_twice. do 4 f_equal.
  apply sortedDedup_unique; try apply added_patterns_sorted.
  intros q. rewrite !elem_of_added_patterns. tauto.
Qed.

(** X8: a missing, empty or blank pattern is ignored by
    [PW_ADD_URL_PATTERN]: nothing is written and the answer carries the
    settings as they are. *)
Theorem blank_pattern_is_ignored pattern w :
  allWhiteSpace (orDefault pattern "") = true ->
  onAddUrlPattern pattern w = (Ok (RespOk (normalize (pw_settings w))), w).
Proof.
  intros Hb. unfold onAddUrlPattern. rewrite trim_blank by done. by run_command.
Qed.

Lemma StronglySorted_filter {A} (R : relation A) (P : A -> Prop)
    `{!forall x, Decision (P x)} (l : list A) :
  StronglySorted R l -> StronglySorted R (filter P l).
Proof.
  induction 1 as [|x l Hl IH Hx]; [constructor|].
  rewrite filter_cons. destruct (decide (P x)); [|done].
  constructor; [done|]. apply Forall_forall. intros y [_ Hy]%list_elem_of_filter.
  by eapply Forall_forall in Hx.
Qed.

Lemma filter_ne_added p (l : list string) :
  sortedDedup l = true -> p ∉ l ->
  filter (fun q => q <> p) (Array_sort (Set_add p (Set_new l))) = l.
Proof.
  intros Hl Hp.
  assert (Hnd : NoDup l) by by apply Sorted_ltb_NoDup, sortedDedup_Sorted.
  rewrite Set_new_id by done. unfold Set_add, Set_has.
  apply includes_not_elem_of in Hp as Hinc. rewrite Hinc.
  apply (Sorted_unique (rel_of String.leb)).
  - apply StronglySorted_Sorted, StronglySorted_filter, Sorted_StronglySorted; [apply _|].
    apply sort_by_Sorted, _.
  - by apply Sorted_ltb_leb, sortedDedup_Sorted.
  - unfold Array_sort. rewrite sort_by_Permutation, filter_app.
    rewrite filter_ne_absent by done. cbn. rewrite decide_False by (by intros ?).
    by rewrite app_nil_r.
Qed.

(** X9: [PW_REMOVE_URL_PATTERN] undoes [PW_ADD_URL_PATTERN]: when a
    pattern that is not blank is added to a strictly ascending list
    without it and then removed, as sent or as stored, the settings are
    what they were; removal by itself leaves no occurrence of the trimmed
    pattern. *)
Theorem remove_undoes_add pattern w :
  let p := trim pattern in
  let s0 := normalize (pw_settings w) in
  let w1 := (onAddUrlPattern (Some pattern) w).2 in
  nonEmpty p = true ->
  sortedDedup (disabledUrlPatterns s0) = true ->
  p ∉ disabledUrlPatterns s0 ->
  p ∈ disabledUrlPatterns (normalize (pw_settings w1))
  /\ normalize (pw_settings (onRemoveUrlPattern (Some p) w1).2) = s0
  /\ normalize (pw_settings (onRemoveUrlPattern (Some pattern) w1).2) = s0
  /\ p ∉ disabledUrlPatterns
           (normalize (pw_settings (onRemoveUrlPattern (Some pattern) w).2)).
Proof.
  cbv zeta. intros Hp Hs Hout. unfold onRemoveUrlPattern, onAddUrlPattern.
  rewrite !orDefault_id, trim_idemp, Hp. run_command.
  rewrite filter_ne_added by done.
  split; [apply elem_of_added_patterns; by left|].
  split; [by destruct (pw_settings w) as [[[] [] [] []]|]|].
  split; [by destruct (pw_settings w) as [[[] [] [] []]|]|].
  rewrite list_elem_of_filter. by intros [? _].
Qed.

Lemma existsb_same_elements {A} (f : A -> bool) (l l' : list A) :
  (forall x, f x = true -> x ∈ l <-> x ∈ l') -> existsb f l = existsb f l'.
Proof.
  intros Hsame. apply eq_true_iff_eq. rewrite !existsb_exists.
  setoid_rewrite <- list_elem_of_In.
  split; intros (x & Hx & Hf); exists x; (split; [by apply (Hsame x Hf)|done]).
Qed.

Lemma uncompilable_never_matches url p : compiles p = false -> patternMatches url p = false.
Proof. unfold compiles, patternMatches. by destruct (wildcardToRegExp p). Qed.

Section PatternCommands.
Context `{Platform}.

Lemma eligible_same_matches url s s' :
  enabled s = enabled s' -> disabledHosts s = disabledHosts s' ->
  existsb (patternMatches url) (disabledUrlPatterns s)
  = existsb (patternMatches url) (disabledUrlPatterns s') ->
  eligible url s = eligible url s'.
Proof.
  intros He Hh Hm. unfold eligible. rewrite He, Hh, !urlMatchesPatterns_exists.
  cbn [unwrap].
  destruct (disabledUrlPatterns s) as [|p l], (disabledUrlPatterns s') as [|p' l'];
    cbn [length Nat.eqb negb andb existsb] in *; try done.
  - rewrite <- Hm. by repeat case_match.
  - rewrite Hm. by repeat case_match.
  - by rewrite Hm.
Qed.


(** X10: a pattern without a star works as an exact block: once
    [PW_ADD_URL_PATTERN] has stored it, the URL equal to the trimmed
    pattern is not eligible. *)
Theorem exact_pattern_blocks_url pattern w :
  let url := trim pattern in
  let w1 := (onAddUrlPattern (Some pattern) w).2 in
  nonEmpty url = true ->
  hasStar url = false ->
  shouldArchiveUrl url w1 = (Ok false, w1).
Proof.
  cbv zeta. intros Hp Hs. rewrite shouldArchiveUrl_run. f_equal. f_equal.
  unfold eligible. rewrite urlMatchesPatterns_exists. cbn [unwrap].
  assert (Hin : trim pattern
                ∈ disabledUrlPatterns
                    (normalize (pw_settings (onAddUrlPattern (Some pattern) w).2))).
  { unfold onAddUrlPattern. rewrite orDefault_id, Hp. run_command.
    apply elem_of_added_patterns. by left. }
  assert (Hm : existsb (patternMatches (trim pattern))
                 (disabledUrlPatterns
                    (normalize (pw_settings (onAddUrlPattern (Some pattern) w).2))) = true).
  { apply existsb_exists. exists (trim pattern). split; [by apply list_elem_of_In|].
    rewrite star_free_pattern_matches by done. apply String.eqb_refl. }
  rewrite Hm.
  destruct (disabledUrlPatterns _) as [|q l]; [by apply elem_of_nil in Hin|].
  cbn [length Nat.eqb negb andb].
  by repeat case_match.
Qed.

(** X11: a pattern that [new RegExp] rejects can be added but blocks
    nothing: after [PW_ADD_URL_PATTERN] has stored it every URL has the
    verdict it had before. *)
Theorem uncompilable_pattern_changes_no_verdict pattern url w :
  let w1 := (onAddUrlPattern (Some pattern) w).2 in
  compiles (trim pattern) = false ->
  (shouldArchiveUrl url w1).1 = (shouldArchiveUrl url w).1.
Proof.
  cbv zeta. intros Hc. rewrite !shouldArchiveUrl_run. cbn [fst]. f_equal.
  unfold onAddUrlPattern. rewrite orDefault_id.
  destruct (nonEmpty (trim pattern)); [|by run_command]. run_command.
  apply eligible_same_matches; [done|done|]. cbn [disabledUrlPatterns].
  apply existsb_same_elements. intros q Hq. rewrite elem_of_added_patterns.
  split; [|by right]. intros [->|]; [|done].
  by rewrite uncompilable_never_matches in Hq.
Qed.

(** X12: [PW_SET_MIN_STAY_MS] stores the number it is given rounded down
    to an integer and raised to zero when negative; a value that is not a
    finite number leaves the dwell time as it is.  The other settings are
    kept and the answer carries what was stored. *)
Theorem min_stay_is_clamped v w :
  let s0 := normalize (pw_settings w) in
  let r := onSetMinStayMs v w in
  let s1 := normalize (pw_settings r.2) in
  r.1 = Ok (RespOk s1)
  /\ minStayMs s1 = match v with
                    | Finite q => Z.max 0 (Qround.Qfloor q)
                    | _ => minStayMs s0
                    end
  /\ (enabled s1, disabledHosts s1, disabledUrlPatterns s1)
     = (enabled s0, disabledHosts s0, disabledUrlPatterns s0).
Proof.
  cbv zeta. run_command.
  destruct v as [| | |q]; cbn [Number_isFinite];
    cbn [fst snd pw_settings with_pw_settings normalize default enabled minStayMs
         disabledHosts disabledUrlPatterns from_option id].
  1-3: by destruct (pw_settings w) as [[[] [] [] []]|].
  split; [done|]. split; [|done].
  cbn [Math_floor]. unfold Math_max, ofZ.
  destruct (QArith_base.Qle_bool _ _) eqn:Hle; cbn [integerOf]; rewrite Qround.Qfloor_Z.
  - apply QArith_base.Qle_bool_iff in Hle. rewrite <- QArith_base.Zle_Qle in Hle. lia.
  - assert (Hn : ~ (0 <= Qround.Qfloor q)).
    { intros Hz. rewrite QArith_base.Zle_Qle in Hz.
      apply QArith_base.Qle_bool_iff in Hz. congruence. }
    lia.
Qed.

End PatternCommands.

(** ** The timer bookkeeping *)

Lemma tracksTimer_lookup w tabId st :
  tracksTimer w tabId st = true
  <-> exists delay, timers w !! timerId st = Some (mkTask tabId (nav_url st) delay).
Proof.
  unfold tracksTimer. split.
  - destruct (timers w !! timerId st) as [[t u d]|]; [|done]. cbn.
    intros [->%Z.eqb_eq ->%String.eqb_eq]%andb_true_iff. eauto.
  - intros [d ->]. cbn. by rewrite Z.eqb_refl, String.eqb_refl.
Qed.

(** Forgetting a tab, with only timers of that tab leaving the pending set. *)
Lemma tracked_remove tabId w w' :
  tracked w ->
  navByTab w' = delete tabId (navByTab w) ->
  nextTimer w' = nextTimer w ->
  (forall i, timers w' !! i = timers w !! i
             \/ timers w' !! i = None
                /\ exists task, timers w !! i = Some task /\ task_tabId task = tabId) ->
  tracked w'.
Proof.
  intros [Hnav Hids] Hn Hnext Ht. split.
  - rewrite Hn. intros t st [Hne Hst]%lookup_delete_Some.
    apply Hnav in Hst. apply tracksTimer_lookup in Hst as [d Hd].
    apply tracksTimer_lookup. exists d.
    destruct (Ht (timerId st)) as [->|[_ (task & Htask & Htab)]]; [done|].
    rewrite Hd in Htask. injection Htask as <-. by cbn in Htab.
  - rewrite Hnext. intros i task Hi.
    destruct (Ht i) as [Heq|[Hnone _]]; [|congruence].
    rewrite Heq in Hi. by eapply Hids.
Qed.

Lemma tracked_same w w' :
  tracked w -> navByTab w' = navByTab w -> timers w' = timers w ->
  nextTimer w' = nextTimer w -> tracked w'.
Proof.
  intros [Hnav Hids] Hn Ht Hnext. split.
  - rewrite Hn. intros t st Hst. apply Hnav in Hst. unfold tracksTimer in *. by rewrite Ht.
  - by rewrite Ht, Hnext.
Qed.

Lemma tracked_clearTabState tabId w : tracked w -> tracked (clearTabState tabId w).
Proof.
  intros Hw. apply (tracked_remove tabId w); [done|apply clearTabState_navByTab| |].
  - apply clearTabState_stores.
  - intros i. rewrite clearTabState_timers.
    destruct (navByTab w !! tabId) as [st|] eqn:Hst; [|by left].
    destruct (decide (i = timerId st)) as [->|Hne].
    + right. rewrite lookup_delete_eq. split; [done|].
      apply Hw in Hst. apply tracksTimer_lookup in Hst as [d Hd]. eauto.
    + left. by apply lookup_delete_ne.
Qed.

Lemma tracked_schedule tabId url delay now err w :
  tracked w ->
  tracked
    (with_navByTab
       (<[tabId := {| nav_url := url; completedAt := now; errored := err;
                      timerId := nextTimer w |}]> (navByTab w))
       (with_nextTimer (Pos.succ (nextTimer w))
          (with_timers (<[nextTimer w := mkTask tabId url delay]> (timers w)) w))).
Proof.
  intros [Hnav Hids].
  assert (Hfresh : timers w !! nextTimer w = None).
  { destruct (timers w !! nextTimer w) eqn:Hl; [|done]. apply Hids in Hl. lia. }
  split; cbn.
  - apply map_Forall_insert_2.
    + apply tracksTimer_lookup. cbn. rewrite lookup_insert_eq. eauto.
    + intros t st Hst. apply Hnav in Hst as Htr.
      apply tracksTimer_lookup in Htr as [d Hd]. apply tracksTimer_lookup. cbn.
      exists d. rewrite lookup_insert_ne; [done|]. intros Heq. by rewrite <- Heq, Hfresh in Hd.
  - apply map_Forall_insert_2; [lia|]. intros i task Hi. apply Hids in Hi. lia.
Qed.

Section Tracking.
Context `{Platform}.

Lemma tracked_onCompleted frameId tabId url w :
  tracked w -> tracked (run (onCompleted frameId tabId url) w).
Proof.
  intros Hw. unfold run, onCompleted.
  destruct (frameId =? 0); cbn [negb]; [|done].
  destruct (isHttpUrl url); cbn [negb]; [|done].
  unfold bind at 1. unfold getSettings at 1, gets at 1. unfold bind at 1. unfold gets at 1.
  destruct (match erroredTabUrl _ !! tabId with Some u => String.eqb u url | None => false end).
  { unfold modify. cbn [snd]. by apply tracked_clearTabState. }
  unfold bind at 1. rewrite shouldArchiveUrl_run.
  destruct (eligible url _); cbn [negb].
  2: { unfold modify. cbn [snd]. by apply tracked_clearTabState. }
  unfold bind, setTimeout, Date_now, gets, modify. cbn [snd].
  apply (tracked_schedule tabId url (minStayMs (normalize (pw_settings w))) (clock w) false), Hw.
Qed.

Lemma tracked_fireTimer id w : tracked w -> tracked (fireTimer id w).
Proof.
  intros Hw. destruct (timers w !! id) as [task|] eqn:Hid.
  2: { unfold fireTimer. by rewrite Hid. }
  rewrite (fireTimer_run id task) by done.
  pose proof (archiveAttempt_frame (task_tabId task) (task_url task)
                (with_timers (delete id (timers w)) w)) as Hf.
  cbv zeta in Hf. destruct Hf as (_ & Hnav & _ & Htim & Hnext & _).
  set (w1 := (archiveAttempt _ _ _).2) in *. cbn in Hnav, Htim, Hnext.
  apply (tracked_remove (task_tabId task) w); [done| | |].
  - by rewrite clearTabState_navByTab, Hnav.
  - destruct (clearTabState_stores (task_tabId task) w1) as (_ & _ & _ & ->). done.
  - intros i. rewrite clearTabState_timers, Hnav, Htim.
    destruct (decide (i = id)) as [->|Hne].
    { right. split; [|eauto].
      destruct (navByTab w !! task_tabId task) as [st|].
      - destruct (decide (id = timerId st)) as [->|?];
          [apply lookup_delete_eq|rewrite lookup_delete_ne by done; apply lookup_delete_eq].
      - apply lookup_delete_eq. }
    destruct (navByTab w !! task_tabId task) as [st|] eqn:Hst.
    2: { left. by apply lookup_delete_ne. }
    destruct (decide (i = timerId st)) as [->|Hne'].
    + right. rewrite lookup_delete_eq. split; [done|].
      apply Hw in Hst. apply tracksTimer_lookup in Hst as [d Hd]. eauto.
    + left. by rewrite !lookup_delete_ne.
Qed.

Lemma onMessage_frame msg w :
  navByTab (onMessage msg w).2 = navByTab w
  /\ timers (onMessage msg w).2 = timers w
  /\ nextTimer (onMessage msg w).2 = nextTimer w.
Proof. by destruct msg. Qed.

Lemma tracked_step e w : tracked w -> tracked (step e w).
Proof.
  intros Hw. destruct e as [f t u|f t u|f t u|t|id|msg]; cbn [step].
  - unfold onCommitted. repeat case_match; try done. by apply tracked_clearTabState.
  - unfold onErrorOccurred. case_match; [done|]. by apply (tracked_same w).
  - by apply tracked_onCompleted.
  - by apply tracked_clearTabState.
  - by apply tracked_fireTimer.
  - destruct (onMessage_frame msg w) as (? & ? & ?). by apply (tracked_same w).
Qed.

End Tracking.

Section Navigation.
Context `{Platform}.

Lemma onCompleted_schedules tabId url w :
  isHttpUrl url = true ->
  eligible url (normalize (pw_settings w)) = true ->
  erroredTabUrl w !! tabId <> Some url ->
  run (onCompleted 0 tabId url) w
  = with_navByTab
      (<[tabId := {| nav_url := url; completedAt := clock w; errored := false;
                     timerId := nextTimer w |}]> (navByTab w))
      (emit (ESetTimeout (nextTimer w)
               (mkTask tabId url (minStayMs (normalize (pw_settings w)))))
         (with_nextTimer (Pos.succ (nextTimer w))
            (with_timers
               (<[nextTimer w := mkTask tabId url (minStayMs (normalize (pw_settings w)))]>
                  (timers w)) w))).
Proof.
  intros Hhttp Hel Herr. unfold run, onCompleted. rewrite Hhttp. cbn [Z.eqb negb].
  unfold bind at 1. unfold getSettings at 1, gets at 1. unfold bind at 1. unfold gets at 1.
  assert (Hm : match erroredTabUrl w !! tabId with
               | Some u => String.eqb u url
               | None => false
               end = false).
  { destruct (erroredTabUrl w !! tabId) as [u|]; [|done].
    destruct (String.eqb_spec u url) as [->|]; [by destruct Herr|done]. }
  rewrite Hm. unfold bind at 1. rewrite shouldArchiveUrl_run, Hel. cbn [negb].
  by unfold bind, setTimeout, Date_now, gets, modify.
Qed.

(** X14: a completed top-level navigation to an eligible URL that is not
    marked as failed schedules one timer, with the next free handle, for
    this tab and URL and with the dwell time of the current settings, and
    records it for the tab.  It cancels nothing: every timer that was
    pending is still pending, also an earlier one of the same tab; and it
    writes nothing to the archive. *)
Theorem completion_schedules_without_cancelling tabId url w :
  let s := normalize (pw_settings w) in
  let w' := run (onCompleted 0 tabId url) w in
  let id := nextTimer w in
  tracked w ->
  isHttpUrl url = true ->
  eligible url s = true ->
  erroredTabUrl w !! tabId <> Some url ->
  timers w' !! id = Some (mkTask tabId url (minStayMs s))
  /\ timers w !! id = None
  /\ (forall i, i <> id -> timers w' !! i = timers w !! i)
  /\ navByTab w' !! tabId = Some (mkNavState url (clock w) false id)
  /\ trace w' = trace w ++ [ESetTimeout id (mkTask tabId url (minStayMs s))]
  /\ pages w' = pages w /\ visits w' = visits w.
Proof.
  cbv zeta. intros [_ Hids] Hhttp Hel Herr. rewrite onCompleted_schedules by done. cbn.
  split; [apply lookup_insert_eq|]. split.
  { destruct (timers w !! nextTimer w) eqn:Hl; [|done]. apply Hids in Hl. lia. }
  split; [intros i Hi; by apply lookup_insert_ne|].
  split; [apply lookup_insert_eq|done].
Qed.

Lemma fireTimer_not_pending id w : timers w !! id = None -> fireTimer id w = w.
Proof. intros Hid. unfold fireTimer. by rewrite Hid. Qed.

(** X15: leaving in time cancels the capture.  After a completed navigation
    has scheduled its timer, a top-level commit to an http(s) URL in the
    tab or the removal of the tab takes the timer out of the pending set;
    if the expiry is delivered all the same it does nothing, and the
    archive is as it was before the navigation. *)
Theorem bounce_cancels_capture tabId url url' w :
  let w1 := run (onCompleted 0 tabId url) w in
  let id := nextTimer w in
  let moved := onCommitted 0 tabId url' w1 in
  let closed := onRemoved tabId w1 in
  isHttpUrl url = true ->
  eligible url (normalize (pw_settings w)) = true ->
  erroredTabUrl w !! tabId <> Some url ->
  isHttpUrl url' = true ->
  timers w1 !! id = Some (mkTask tabId url (minStayMs (normalize (pw_settings w))))
  /\ timers moved !! id = None /\ timers closed !! id = None
  /\ fireTimer id moved = moved /\ fireTimer id closed = closed
  /\ pages moved = pages w /\ visits moved = visits w
  /\ pages closed = pages w /\ visits closed = visits w.
Proof.
  cbv zeta. intros Hhttp Hel Herr Hhttp'.
  unfold onCommitted, onRemoved. rewrite Hhttp'. cbn [Z.eqb negb].
  rewrite onCompleted_schedules by done.
  set (w1 := with_navByTab _ _).
  assert (Hgone : timers (clearTabState tabId w1) !! nextTimer w = None).
  { rewrite clearTabState_timers. subst w1. cbn. rewrite lookup_insert_eq. cbn.
    apply lookup_delete_eq. }
  destruct (clearTabState_stores tabId w1) as (Hp & Hv & _).
  split; [subst w1; cbn; apply lookup_insert_eq|].
  rewrite !fireTimer_not_pending by done. by rewrite Hp, Hv.
Qed.

(** X16: an expiring timer only ever shrinks the bookkeeping.  Whatever
    happens in the callback, no timer is scheduled, no tab gains a
    [navByTab] or [erroredTabUrl] entry, entries of other tabs are kept,
    and the settings and the handle counter are not touched. *)
Theorem timer_fire_only_shrinks_tracking id w :
  let w' := fireTimer id w in
  timers w' ⊆ timers w
  /\ navByTab w' ⊆ navByTab w
  /\ erroredTabUrl w' ⊆ erroredTabUrl w
  /\ (forall task t, timers w !! id = Some task -> t <> task_tabId task ->
        navByTab w' !! t = navByTab w !! t
        /\ erroredTabUrl w' !! t = erroredTabUrl w !! t)
  /\ pw_settings w' = pw_settings w
  /\ nextTimer w' = nextTimer w.
Proof.
  cbv zeta. destruct (timers w !! id) as [task|] eqn:Hid.
  2: { rewrite fireTimer_not_pending by done. repeat split; done. }
  rewrite (fireTimer_run id task) by done.
  pose proof (archiveAttempt_frame (task_tabId task) (task_url task)
                (with_timers (delete id (timers w)) w)) as Hf.
  cbv zeta in Hf. destruct Hf as (_ & Hnav & Herr & Htim & Hnext & _ & Hset & _).
  set (w1 := (archiveAttempt _ _ _).2) in *. cbn in Hnav, Herr, Htim, Hnext, Hset.
  destruct (clearTabState_stores (task_tabId task) w1) as (_ & _ & Hs & Hn).
  rewrite clearTabState_timers, clearTabState_navByTab, clearTabState_erroredTabUrl.
  rewrite Hs, Hn, Hnav, Herr, Htim, Hset, Hnext.
  split.
  { destruct (navByTab w !! task_tabId task).
    - etrans; [apply delete_subseteq|apply delete_subseteq].
    - apply delete_subseteq. }
  split; [apply delete_subseteq|]. split; [apply delete_subseteq|].
  split; [|done]. intros task' t [= <-] Ht. by rewrite !lookup_delete_ne.
Qed.

(** X17: when [logVisit] returns, the visit it made is in the store under
    its fresh id, stamped with the current time, and no stored visit is
    older than thirty days; the visits that were stored and are not older
    are kept. *)
Theorem logVisit_keeps_thirty_days args w :
  let r := logVisit args w in
  let id := randomUUID (uuids w) in
  r.1 = Ok tt ->
  visits r.2 !! id
  = Some (mkVisit id (a_url args) (a_urlKey args) (clock w)
            (orDefault (a_transitionType args) "") (a_tabId args))
  /\ (forall k v, visits r.2 !! k = Some v -> clock w - DAYS_30_MS <= visitAt v)
  /\ (forall k v, k <> id -> visits w !! k = Some v ->
        clock w - DAYS_30_MS <= visitAt v -> visits r.2 !! k = Some v).
Proof.
  cbv zeta. unfold logVisit, putVisit, purgeVisitsOlderThan, bind, crypto_randomUUID,
    Date_now, gets, modify, external, throw. proj.
  destruct (fault OpPutVisit (tick w)); cbn [negb]; [done|]. proj.
  destruct (fault OpPurgeVisits (S (tick w))); cbn [negb]; [done|]. proj.
  intros _. split; [|split].
  - by apply (fresh_visit_survives_purge (mkVisit _ _ _ _ _ _)).
  - intros k v. rewrite purge_lookup. destruct (_ !! k) as [v'|]; [|done].
    destruct (visitAt v' <? _) eqn:Hc; [done|]. intros [= <-]. by apply Z.ltb_ge.
  - intros k v Hk Hv Hage. rewrite purge_lookup. unfold Db.putVisit.
    rewrite lookup_insert_ne by done. rewrite Hv.
    by rewrite (proj2 (Z.ltb_ge _ _) Hage).
Qed.

End Navigation.

(** ** The stable sort and filters *)

Section SortFilter.
Context {A : Type} (le : A -> A -> bool) (P : A -> Prop) `{!forall x, Decision (P x)}.
Context `{!Total (rel_of le), !Transitive (rel_of le)}.

Lemma filter_insert_by x l :
  StronglySorted (rel_of le) l ->
  filter P (insert_by le x l)
  = if decide (P x) then insert_by le x (filter P l) else filter P l.
Proof.
  induction 1 as [|y l Hl IH Hy]; cbn [insert_by].
  { rewrite filter_cons. by destruct (decide (P x)). }
  destruct (le x y) eqn:Hxy.
  - rewrite filter_cons. destruct (decide (P x)); [|done].
    symmetry. apply insert_by_head.
    assert (Hall : Forall (rel_of le x) (filter P (y :: l))).
    { apply Forall_forall. intros z [_ Hz]%list_elem_of_filter.
      apply elem_of_cons in Hz as [->|Hz]; [done|].
      rewrite Forall_forall in Hy. by trans y; [|apply Hy]. }
    destruct (filter P (y :: l)); constructor. by apply Forall_cons in Hall as [? _].
  - rewrite !(filter_cons _ y). destruct (decide (P y)).
    + rewrite IH. destruct (decide (P x)); [|done]. cbn [insert_by]. by rewrite Hxy.
    + done.
Qed.

Lemma sort_by_filter l : sort_by le (filter P l) = filter P (sort_by le l).
Proof.
  induction l as [|x l IH]; [done|].
  change (sort_by le (x :: l)) with (insert_by le x (sort_by le l)).
  rewrite filter_insert_by
    by (apply Sorted_StronglySorted; [done|apply sort_by_Sorted, _]).
  rewrite filter_cons. destruct (decide (P x)); [|done].
  change (sort_by le (x :: filter P l)) with (insert_by le x (sort_by le (filter P l))).
  by rewrite IH.
Qed.

End SortFilter.

(** ** The pages store *)

#[local] Instance key_leb_total {V} : Total (rel_of (@Db.key_leb V)).
Proof. intros a b. apply String.leb_total. Qed.

#[local] Instance key_leb_trans {V} : Transitive (rel_of (@Db.key_leb V)).
Proof. intros a b c. apply leb_transitive. Qed.

Lemma records_delete {V} k (m : gmap string V) :
  Db.records (delete k m) = filter (fun kv => kv.1 <> k) (Db.records m).
Proof.
  unfold Db.records.
  apply (Sorted_unique_strong (rel_of Db.key_leb)).
  - intros [i x] [j y] Hx [_ Hy]%list_elem_of_filter Hij Hji.
    rewrite elem_of_sort_by in Hx, Hy.
    apply elem_of_map_to_list in Hx, Hy. apply lookup_delete_Some in Hx as [_ Hx].
    assert (i = j) as -> by by apply (anti_symm (rel_of String.leb)).
    congruence.
  - apply sort_by_Sorted, _.
  - apply StronglySorted_Sorted, StronglySorted_filter, Sorted_StronglySorted; [apply _|].
    apply sort_by_Sorted, _.
  - rewrite !sort_by_Permutation. apply NoDup_Permutation.
    + apply NoDup_map_to_list.
    + apply NoDup_filter, NoDup_map_to_list.
    + intros [i x]. rewrite list_elem_of_filter, !elem_of_map_to_list, lookup_delete_Some.
      cbn. split; (intros [? ?]; split; [congruence|done]).
Qed.

Lemma fmap_snd_filter_key id (l : list (string * PageVersion)) :
  Forall (fun kv => versionId kv.2 = kv.1) l ->
  snd <$> filter (fun kv => kv.1 <> id) l
  = filter (fun p => versionId p <> id) (snd <$> l).
Proof.
  induction 1 as [|[k p] l Hk Hl IH]; [done|]. cbn in Hk.
  rewrite fmap_cons, !filter_cons. cbn. rewrite Hk.
  destruct (decide (k <> id)); [|done]. by rewrite fmap_cons, IH.
Qed.

Lemma filter_swap {A} (P Q : A -> Prop) `{!forall x, Decision (P x), !forall x, Decision (Q x)}
    (l : list A) :
  filter P (filter Q l) = filter Q (filter P l).
Proof.
  induction l as [|x l IH]; [done|]. rewrite !filter_cons.
  destruct (decide (Q x)), (decide (P x)); rewrite ?filter_cons;
    repeat (case_decide; try done); by rewrite IH.
Qed.

(** X18: the listing of a URL key holds exactly the stored versions with
    that key, newest capture first; with no such version it is empty. *)
Theorem versions_listing_is_newest_first key (pages : gmap string PageVersion) :
  let versions := Db.getVersionsByUrlKey key pages in
  StronglySorted (fun a b => capturedAt b <= capturedAt a) versions
  /\ (forall p, p ∈ versions <-> pv_urlKey p = key /\ exists k, pages !! k = Some p)
  /\ (versions = [] <-> forall k p, pages !! k = Some p -> pv_urlKey p <> key).
Proof.
  cbv zeta. split; [|split].
  - unfold Db.getVersionsByUrlKey.
    pose proof (sort_by_Sorted Db.newestFirst (Db.by_urlKey_getAll key pages)) as Hs.
    apply Sorted_StronglySorted in Hs; [|apply _].
    induction Hs as [|a l Hl IH Ha]; constructor; [done|].
    eapply Forall_impl; [exact Ha|].
    intros b. unfold rel_of, Db.newestFirst. by rewrite Z.leb_le.
  - apply elem_of_getVersionsByUrlKey.
  - split.
    + intros Hnil k p Hp Hk.
      assert (Hin : p ∈ Db.getVersionsByUrlKey key pages)
        by (apply elem_of_getVersionsByUrlKey; eauto).
      rewrite Hnil in Hin. by apply elem_of_nil in Hin.
    + intros Hnone. destruct (Db.getVersionsByUrlKey key pages) as [|p l] eqn:Hv; [done|].
      assert (Hin : p ∈ Db.getVersionsByUrlKey key pages) by (rewrite Hv; left).
      apply elem_of_getVersionsByUrlKey in Hin as [Hk [k Hp]]. by destruct (Hnone k p).
Qed.

Lemma put_newer_is_head v (pages : gmap string PageVersion) :
  (forall k p, pages !! k = Some p -> pv_urlKey p = pv_urlKey v ->
               capturedAt p < capturedAt v) ->
  head (Db.getVersionsByUrlKey (pv_urlKey v) (Db.putPageVersion v pages)) = Some v.
Proof.
  intros Hnew.
  assert (Hv : v ∈ Db.getVersionsByUrlKey (pv_urlKey v) (Db.putPageVersion v pages)).
  { apply elem_of_getVersionsByUrlKey. split; [done|].
    exists (versionId v). apply lookup_insert_eq. }
  destruct (head _) as [l|] eqn:Hhd.
  2: { destruct (Db.getVersionsByUrlKey _ _); [by apply elem_of_nil in Hv|done]. }
  unfold Db.getVersionsByUrlKey in Hhd, Hv.
  apply (sort_by_head Db.newestFirst) in Hhd as [Hin Hmax].
  rewrite sort_by_Permutation in Hv. specialize (Hmax v Hv).
  unfold Db.newestFirst in Hmax. apply Z.leb_le in Hmax.
  assert (Hl : l ∈ Db.getVersionsByUrlKey (pv_urlKey v) (Db.putPageVersion v pages))
    by (unfold Db.getVersionsByUrlKey; by rewrite sort_by_Permutation).
  apply elem_of_getVersionsByUrlKey in Hl as [Hk [k Hst]].
  unfold Db.putPageVersion in Hst. apply lookup_insert_Some in Hst as [[_ ->]|[_ Hst]]; [done|].
  specialize (Hnew k l Hst Hk). lia.
Qed.

(** X19: a version written with a capture time later than that of every
    stored version of its URL key is what the listing of the key then
    starts with, and what [getVersion] returns for its id. *)
Theorem new_version_becomes_latest v (pages : gmap string PageVersion) :
  (forall k p, pages !! k = Some p -> pv_urlKey p = pv_urlKey v ->
               capturedAt p < capturedAt v) ->
  head (Db.getVersionsByUrlKey (pv_urlKey v) (Db.putPageVersion v pages)) = Some v
  /\ getVersion (versionId v) (Db.putPageVersion v pages) = Some v.
Proof.
  intros Hnew. split; [by apply put_newer_is_head|apply lookup_insert_eq].
Qed.

(** X20: when every version is stored under its own id, [deleteVersion]
    takes exactly that version out: [getVersion] no longer finds the id,
    finds every other id as before, and the listing of each URL key is the
    former listing without the version, in the same order. *)
Theorem delete_version_unlists_exactly_it id key (pages : gmap string PageVersion) :
  (forall k p, pages !! k = Some p -> versionId p = k) ->
  getVersion id (deleteVersion id pages) = None
  /\ (forall k, k <> id -> getVersion k (deleteVersion id pages) = getVersion k pages)
  /\ Db.getVersionsByUrlKey key (deleteVersion id pages)
     = filter (fun p => versionId p <> id) (Db.getVersionsByUrlKey key pages).
Proof.
  intros Hkey. unfold getVersion, deleteVersion.
  split; [apply lookup_delete_eq|]. split; [intros k Hk; by apply lookup_delete_ne|].
  unfold Db.getVersionsByUrlKey, Db.by_urlKey_getAll.
  rewrite records_delete, fmap_snd_filter_key.
  - rewrite filter_swap. apply sort_by_filter; apply _.
  - apply Forall_forall. intros [k p] Hin. unfold Db.records in Hin.
    rewrite elem_of_sort_by in Hin. apply elem_of_map_to_list in Hin. by apply Hkey.
Qed.

(** ** Pages of the visit log *)

#[local] Instance visitAt_leb_total : Total (rel_of Db.visitAt_leb).
Proof.
  intros [i a] [j b]. unfold rel_of, Db.visitAt_leb. cbn.
  destruct (String.leb_total i j) as [Hij|Hji].
  - destruct (Z.lt_trichotomy (visitAt a) (visitAt b)) as [Hlt|[Heq|Hgt]].
    + left. by rewrite (proj2 (Z.ltb_lt _ _) Hlt).
    + left. rewrite (proj2 (Z.eqb_eq _ _) Heq), Hij. by rewrite orb_true_r.
    + right. by rewrite (proj2 (Z.ltb_lt _ _) Hgt).
  - destruct (Z.lt_trichotomy (visitAt a) (visitAt b)) as [Hlt|[Heq|Hgt]].
    + left. by rewrite (proj2 (Z.ltb_lt _ _) Hlt).
    + right. symmetry in Heq. rewrite (proj2 (Z.eqb_eq _ _) Heq), Hji. by rewrite orb_true_r.
    + right. by rewrite (proj2 (Z.ltb_lt _ _) Hgt).
Qed.

Lemma visitAt_leb_le a b : Db.visitAt_leb a b = true -> visitAt a.2 <= visitAt b.2.
Proof.
  unfold Db.visitAt_leb. intros [Hlt%Z.ltb_lt|[Heq%Z.eqb_eq _]%andb_true_iff]%orb_true_iff; lia.
Qed.

#[local] Instance visitAt_leb_trans : Transitive (rel_of Db.visitAt_leb).
Proof.
  intros [i a] [j b] [k c]. unfold rel_of, Db.visitAt_leb. cbn.
  rewrite !orb_true_iff, !andb_true_iff, !Z.ltb_lt, !Z.eqb_eq.
  intros [?|[? Hij]] [?|[? Hjk]]; try (left; lia).
  right. split; [lia|]. by apply (leb_transitive i j k).
Qed.

Lemma elem_of_by_visitAt_prev before (visits : gmap string Visit) v :
  v ∈ (snd <$> by_visitAt_prev before visits)
  <-> (exists k, visits !! k = Some v) /\ inCursorRange before (visitAt v) = true.
Proof.
  unfold by_visitAt_prev. rewrite list_elem_of_fmap. split.
  - intros ([k v'] & -> & Hin). rewrite elem_of_reverse, elem_of_sort_by in Hin.
    apply list_elem_of_filter in Hin as [Hr Hin]. apply elem_of_map_to_list in Hin. eauto.
  - intros [[k Hk] Hr]. exists (k, v). split; [done|].
    rewrite elem_of_reverse, elem_of_sort_by. apply list_elem_of_filter. split; [done|].
    by apply elem_of_map_to_list.
Qed.

Lemma by_visitAt_prev_sorted before (visits : gmap string Visit) :
  StronglySorted newerFirst (snd <$> by_visitAt_prev before visits).
Proof.
  unfold by_visitAt_prev.
  apply (StronglySorted_fmap snd (flip (rel_of Db.visitAt_leb))).
  { intros a b Hab. by apply visitAt_leb_le. }
  apply Sorted_StronglySorted.
  { intros a b c Hab Hbc. unfold flip in *. by trans b. }
  apply Sorted_reverse, sort_by_Sorted, _.
Qed.

Lemma Qle_bool_inject a b :
  QArith_base.Qle_bool (QArith_base.inject_Z a) (QArith_base.inject_Z b) = (a <=? b).
Proof.
  apply eq_true_iff_eq. rewrite QArith_base.Qle_bool_iff, <- QArith_base.Zle_Qle.
  by rewrite Z.leb_le.
Qed.

Lemma Math_max_ofZ a b : Math_max (ofZ a) (ofZ b) = ofZ (Z.max a b).
Proof.
  unfold Math_max, ofZ. rewrite Qle_bool_inject. destruct (a <=? b) eqn:Hle.
  - apply Z.leb_le in Hle. f_equal. f_equal. lia.
  - apply Z.leb_gt in Hle. f_equal. f_equal. lia.
Qed.

Lemma pageSize_cases limit :
  pageSize limit
  = match limit with
    | None => Some 50%nat
    | Some (Finite q) => Some (Z.to_nat (Z.max 1 (Qround.Qfloor q)))
    | Some NegInf => Some 1%nat
    | Some _ => None
    end.
Proof.
  unfold pageSize. destruct limit as [[| | |q]|]; try done.
  cbn [default from_option id Math_floor]. rewrite Math_max_ofZ. unfold ofZ.
  by rewrite Qround.Qfloor_Z.
Qed.

Lemma collectRows_unbounded limit cursor rows :
  limit = NaN \/ limit = PosInf ->
  collectRows limit cursor rows = rows ++ (snd <$> cursor).
Proof.
  intros Hl. revert rows. induction cursor as [|kv rest IH]; intros rows.
  { by rewrite app_nil_r. }
  cbn [collectRows]. assert (Num_ge (ofZ (Z.of_nat (length rows))) limit = false) as ->
    by by destruct Hl as [-> | ->].
  rewrite IH, <- app_assoc. done.
Qed.

Lemma collectRows_bounded n cursor rows :
  collectRows (ofZ n) cursor rows
  = rows ++ take (Z.to_nat (n - Z.of_nat (length rows))) (snd <$> cursor).
Proof.
  revert rows. induction cursor as [|kv rest IH]; intros rows.
  { by rewrite fmap_nil, take_nil, app_nil_r. }
  cbn [collectRows].
  change (Num_ge (ofZ ?a) (ofZ ?b))
    with (QArith_base.Qle_bool (QArith_base.inject_Z b) (QArith_base.inject_Z a)).
  rewrite Qle_bool_inject.
  destruct (n <=? Z.of_nat (length rows)) eqn:Hle.
  - apply Z.leb_le in Hle. replace (Z.to_nat _) with 0%nat by lia. by rewrite app_nil_r.
  - apply Z.leb_gt in Hle. rewrite IH, length_app, <- app_assoc. cbn [length].
    replace (Z.to_nat (n - Z.of_nat (length rows)))
      with (S (Z.to_nat (n - Z.of_nat (length rows + 1)))) by lia.
    done.
Qed.

Lemma getVisitsPage_rows limit before (visits : gmap string Visit) :
  let all := snd <$> by_visitAt_prev before visits in
  let found := match pageSize limit with
               | Some n => take n all
               | None => all
               end in
  getVisitsPage limit before visits
  = match before with
    | Some NaN => Throw "DataError"
    | _ => Ok {| rows := found; nextBefore := visitAt <$> last found |}
    end.
Proof.
  cbv zeta. unfold getVisitsPage, pageSize.
  assert (Hrows : collectRows (Math_max (ofZ 1) (Math_floor (default (ofZ 50) limit)))
                    (by_visitAt_prev before visits) []
                  = match Math_max (ofZ 1) (Math_floor (default (ofZ 50) limit)) with
                    | Finite q => take (Z.to_nat (Qround.Qfloor q))
                                    (snd <$> by_visitAt_prev before visits)
                    | _ => snd <$> by_visitAt_prev before visits
                    end).
  { destruct limit as [[| | |q]|]; cbn [default from_option id Math_floor].
    - by rewrite collectRows_unbounded by by left.
    - by rewrite collectRows_unbounded by by right.
    - change (Math_max (ofZ 1) NegInf) with (ofZ 1).
      rewrite collectRows_bounded. unfold ofZ. by rewrite Qround.Qfloor_Z, Z.sub_0_r.
    - change (Finite (QArith_base.inject_Z (Qround.Qfloor q))) with (ofZ (Qround.Qfloor q)).
      rewrite Math_max_ofZ, collectRows_bounded. unfold ofZ.
      by rewrite Qround.Qfloor_Z, Z.sub_0_r.
    - change (Math_max (ofZ 1) (Math_floor (ofZ 50))) with (ofZ 50).
      rewrite collectRows_bounded. unfold ofZ. by rewrite Qround.Qfloor_Z, Z.sub_0_r. }
  rewrite Hrows. by destruct before as [[| | |q]|], (Math_max _ _).
Qed.

Lemma take_nil_inv {A} n (l : list A) : (0 < n)%nat -> take n l = [] -> l = [].
Proof. intros Hn Ht. destruct n; [lia|]. by destruct l. Qed.

Lemma pageSize_positive limit n : pageSize limit = Some n -> (0 < n)%nat.
Proof.
  rewrite pageSize_cases. destruct limit as [[| | |q]|]; intros [= <-]; lia.
Qed.

Lemma last_is_oldest (l : list Visit) x r :
  StronglySorted newerFirst l -> last l = Some x -> r ∈ l -> visitAt x <= visitAt r.
Proof.
  intros Hs [l' ->]%last_Some Hr.
  apply StronglySorted_app in Hs as (Hcross & _ & _).
  apply elem_of_app in Hr as [Hr|Hr].
  - apply (Hcross r x); [done|]. apply list_elem_of_here.
  - apply list_elem_of_singleton in Hr as ->. lia.
Qed.

(** X21: a page of the visit log.  [getVisitsPage] fails only when
    [before] is NaN.  Otherwise its rows are stored visits below [before],
    newest first, and no stored visit below [before] that is missing from
    the page is newer than a row of it.  The page holds at most the limit
    of rows, where the limit is 50 when absent, is rounded down, and is
    raised to 1 when smaller; NaN and Infinity put no bound.  A page with
    fewer rows than the limit holds every stored visit below [before].
    [nextBefore] is the time of the last row, and the page is empty only
    when no stored visit lies below [before]. *)
Theorem visits_page_is_newest_prefix limit before (visits : gmap string Visit) :
  match getVisitsPage limit before visits with
  | Throw _ => before = Some NaN
  | Ok page =>
      before <> Some NaN
      /\ StronglySorted newerFirst (rows page)
      /\ (forall r, r ∈ rows page ->
            (exists k, visits !! k = Some r) /\ inCursorRange before (visitAt r) = true)
      /\ (forall k v r, visits !! k = Some v -> inCursorRange before (visitAt v) = true ->
            v ∉ rows page -> r ∈ rows page -> visitAt v <= visitAt r)
      /\ match limit with
         | None => (length (rows page) <= 50)%nat
         | Some (Finite q) =>
             (length (rows page) <= Z.to_nat (Z.max 1 (Qround.Qfloor q)))%nat
         | Some NegInf => (length (rows page) <= 1)%nat
         | Some _ => True
         end
      /\ (match limit with
          | None => length (rows page) = 50%nat
          | Some (Finite q) => length (rows page) = Z.to_nat (Z.max 1 (Qround.Qfloor q))
          | Some NegInf => length (rows page) = 1%nat
          | Some _ => False
          end
          \/ forall k v, visits !! k = Some v -> inCursorRange before (visitAt v) = true ->
                v ∈ rows page)
      /\ nextBefore page = visitAt <$> last (rows page)
      /\ (rows page = []
          <-> forall k v, visits !! k = Some v -> inCursorRange before (visitAt v) = false)
  end.
Proof.
  rewrite getVisitsPage_rows. cbv zeta.
  set (all := snd <$> by_visitAt_prev before visits).
  set (found := match pageSize limit with Some n => take n all | None => all end).
  assert (Hpre : exists rest, all = found ++ rest).
  { subst found. destruct (pageSize limit) as [n|].
    - exists (drop n all). by rewrite take_drop.
    - exists []. by rewrite app_nil_r. }
  destruct Hpre as [rest Hall].
  assert (Hsorted : StronglySorted newerFirst (found ++ rest))
    by (rewrite <- Hall; apply by_visitAt_prev_sorted).
  assert (Hin : forall r, r ∈ found ->
            (exists k, visits !! k = Some r) /\ inCursorRange before (visitAt r) = true).
  { intros r Hr. apply elem_of_by_visitAt_prev. fold all. rewrite Hall.
    apply elem_of_app. by left. }
  assert (Hbody :
    before <> Some NaN ->
    before <> Some NaN
    /\ StronglySorted newerFirst found
    /\ (forall r, r ∈ found ->
          (exists k, visits !! k = Some r) /\ inCursorRange before (visitAt r) = true)
    /\ (forall k v r, visits !! k = Some v -> inCursorRange before (visitAt v) = true ->
          v ∉ found -> r ∈ found -> visitAt v <= visitAt r)
    /\ match limit with
       | None => (length found <= 50)%nat
       | Some (Finite q) => (length found <= Z.to_nat (Z.max 1 (Qround.Qfloor q)))%nat
       | Some NegInf => (length found <= 1)%nat
       | Some _ => True
       end
    /\ (match limit with
        | None => length found = 50%nat
        | Some (Finite q) => length found = Z.to_nat (Z.max 1 (Qround.Qfloor q))
        | Some NegInf => length found = 1%nat
        | Some _ => False
        end
        \/ forall k v, visits !! k = Some v -> inCursorRange before (visitAt v) = true ->
              v ∈ found)
    /\ visitAt <$> last found = visitAt <$> last found
    /\ (found = []
        <-> forall k v, visits !! k = Some v -> inCursorRange before (visitAt v) = false)).
  { intros Hb. split; [done|]. split; [by apply StronglySorted_app in Hsorted as (_ & ? & _)|].
    split; [done|]. split; [|split; [|split; [|split; [done|]]]].
    - intros k v r Hk Hr Hout Hrow.
      assert (Hv : v ∈ all) by (apply elem_of_by_visitAt_prev; eauto).
      rewrite Hall in Hv. apply elem_of_app in Hv as [Hv|Hv]; [done|].
      apply StronglySorted_app in Hsorted as (Hcross & _ & _). by apply (Hcross r v).
    - subst found. rewrite pageSize_cases.
      destruct limit as [[| | |q]|]; try done; rewrite length_take; lia.
    - assert (Hcomplete : found = all ->
                forall k v, visits !! k = Some v ->
                            inCursorRange before (visitAt v) = true -> v ∈ found).
      { intros -> k v Hk Hr. apply elem_of_by_visitAt_prev. eauto. }
      subst found. rewrite pageSize_cases in *.
      destruct limit as [[| | |q]|]; try (right; by apply Hcomplete).
      + destruct (decide (1 <= length all)%nat).
        * left. rewrite length_take. lia.
        * right. apply Hcomplete, take_ge. lia.
      + destruct (decide (Z.to_nat (Z.max 1 (Qround.Qfloor q)) <= length all)%nat).
        * left. rewrite length_take. lia.
        * right. apply Hcomplete, take_ge. lia.
      + destruct (decide (50 <= length all)%nat).
        * left. rewrite length_take. lia.
        * right. apply Hcomplete, take_ge. lia.
    - split.
      + intros Hnil k v Hk. destruct (inCursorRange before (visitAt v)) eqn:Hr; [|done].
        assert (Hv : v ∈ all) by (apply elem_of_by_visitAt_prev; eauto).
        assert (Hempty : all = []).
        { subst found. destruct (pageSize limit) as [n|] eqn:Hn; [|done].
          eapply take_nil_inv; [|done]. by eapply pageSize_positive. }
        rewrite Hempty in Hv. by apply elem_of_nil in Hv.
      + intros Hnone. destruct found as [|r l] eqn:Hf; [done|].
        destruct (Hin r) as [[k Hk] Hr]; [left|]. by rewrite (Hnone k r Hk) in Hr. }
  destruct before as [[| | |q]|]; [done|by apply Hbody..].
Qed.

(** X22: paging never shows a visit twice.  When a page ends with
    [nextBefore] at some time, asking for the page before that time
    succeeds, and all its rows are older than that time, which no row of
    the first page is. *)
Theorem next_visits_page_is_strictly_older limit limit' before
    (visits : gmap string Visit) page b :
  getVisitsPage limit before visits = Ok page ->
  nextBefore page = Some b ->
  exists page',
    getVisitsPage limit' (Some (ofZ b)) visits = Ok page'
    /\ forall r r', r ∈ rows page -> r' ∈ rows page' ->
                    visitAt r' < b /\ b <= visitAt r /\ r <> r'.
Proof.
  intros Hpage Hnext.
  pose proof (visits_page_rows_spec := getVisitsPage_rows limit' (Some (ofZ b)) visits).
  cbv zeta in visits_page_rows_spec. eexists. split; [exact visits_page_rows_spec|].
  cbn [rows]. intros r r' Hr Hr'.
  assert (Hold : visitAt r' < b).
  { assert (Hall : r' ∈ (snd <$> by_visitAt_prev (Some (ofZ b)) visits)).
    { destruct (pageSize limit'); [by eapply subseteq_take|done]. }
    apply elem_of_by_visitAt_prev in Hall as [_ Hrange].
    cbn [inCursorRange] in Hrange.
    change (Num_lt (ofZ ?x) (ofZ ?y))
      with (negb (QArith_base.Qle_bool (QArith_base.inject_Z y) (QArith_base.inject_Z x)))
      in Hrange.
    rewrite Qle_bool_inject in Hrange. apply negb_true_iff, Z.leb_gt in Hrange. lia. }
  assert (Hnew : b <= visitAt r).
  { rewrite getVisitsPage_rows in Hpage. cbv zeta in Hpage.
    assert (Hok : Ok {| rows := match pageSize limit with
                                | Some n => take n (snd <$> by_visitAt_prev before visits)
                                | None => snd <$> by_visitAt_prev before visits
                                end;
                        nextBefore := visitAt <$> last (match pageSize limit with
                                | Some n => take n (snd <$> by_visitAt_prev before visits)
                                | None => snd <$> by_visitAt_prev before visits
                                end) |} = Ok page)
      by by destruct before as [[| | |q]|].
    injection Hok as <-. cbn [rows nextBefore] in *.
    set (found := match pageSize limit with Some n => _ | None => _ end) in *.
    destruct (last found) as [x|] eqn:Hlast; [|done]. injection Hnext as <-.
    apply (last_is_oldest found); [|done..].
    subst found. pose proof (by_visitAt_prev_sorted before visits) as Hs.
    destruct (pageSize limit) as [n|]; [|done].
    rewrite <- (take_drop n) in Hs. by apply StronglySorted_app in Hs as (_ & ? & _). }
  split; [done|]. split; [done|]. intros ->. lia.
Qed.

(** ** Hex fingerprints *)

Lemma append_assoc (a b c : string) : (a +:+ b) +:+ c = a +:+ (b +:+ c).
Proof. induction a as [|x a IH]; [done|]. by rewrite !append_cons, IH. Qed.

Lemma append_nil_r (a : string) : a +:+ "" = a.
Proof. induction a as [|x a IH]; [done|]. by rewrite append_cons, IH. Qed.

Lemma length_append (a b : string) :
  String.length (a +:+ b) = (String.length a + String.length b)%nat.
Proof. induction a as [|x a IH]; [done|]. rewrite append_cons. cbn. by rewrite IH. Qed.

Lemma allChars_append p (a b : string) :
  allChars p (a +:+ b) = allChars p a && allChars p b.
Proof.
  induction a as [|x a IH]; [done|]. rewrite append_cons. cbn. by rewrite IH, andb_assoc.
Qed.

Lemma hexOfBytes_fold bytes acc :
  fold_left (fun hex b => hex +:+ padStart 2 "0" (toString16 b)) bytes acc
  = acc +:+ hexOfBytes bytes.
Proof.
  unfold hexOfBytes. revert acc. induction bytes as [|b bytes IH]; intros acc.
  { by rewrite append_nil_r. }
  cbn [fold_left]. rewrite IH, (IH ("" +:+ _)), append_nil. by rewrite append_assoc.
Qed.

Lemma hexOfBytes_cons b bytes : hexOfBytes (b :: bytes) = hexOfByte b +:+ hexOfBytes bytes.
Proof.
  unfold hexOfBytes at 1. cbn [fold_left]. by rewrite hexOfBytes_fold, append_nil.
Qed.

Lemma hexOfByte_shape b :
  exists h l, hexOfByte b = String h (String l "")
              /\ isHexDigit h = true /\ isHexDigit l = true.
Proof. destruct b; vm_compute; eauto. Qed.

Lemma hexOfByte_inj a b : hexOfByte a = hexOfByte b -> a = b.
Proof.
  intros Heq.
  assert (Hn : forall x, Byte.of_N
                 (match hexOfByte x with
                  | String h (String l _) =>
                      let v c := match String.index 0 (String c "") "0123456789abcdef" with
                                 | Some i => N.of_nat i
                                 | None => 0%N
                                 end in
                      v h * 16 + v l
                  | _ => 0
                  end)%N = Some x).
  { intros x. destruct x; vm_compute; reflexivity. }
  pose proof (Hn a) as Ha. rewrite Heq, Hn in Ha. by injection Ha.
Qed.

(** X23: the hex form of a digest has two characters per byte, all from
    [0123456789abcdef], and tells digests apart: two byte sequences with
    the same hex form are the same.  So two texts have equal fingerprints
    exactly when their digests are equal. *)
Theorem hex_fingerprint_is_faithful `{Platform} (bytes bytes' : list Byte.byte)
    (text text' : string) :
  String.length (hexOfBytes bytes) = (2 * length bytes)%nat
  /\ allChars isHexDigit (hexOfBytes bytes) = true
  /\ (hexOfBytes bytes = hexOfBytes bytes' <-> bytes = bytes')
  /\ (fingerprint text = fingerprint text' <-> subtle_digest text = subtle_digest text').
Proof.
  assert (Hinj : forall a b, hexOfBytes a = hexOfBytes b -> a = b).
  { induction a as [|x a IH]; intros [|y b].
    - done.
    - rewrite hexOfBytes_cons. destruct (hexOfByte_shape y) as (h & l & -> & _). done.
    - rewrite hexOfBytes_cons. destruct (hexOfByte_shape x) as (h & l & -> & _). done.
    - rewrite !hexOfBytes_cons.
      destruct (hexOfByte_shape x) as (h & l & Hx & _).
      destruct (hexOfByte_shape y) as (h' & l' & Hy & _).
      rewrite Hx, Hy, !append_cons, !append_nil. intros [= -> -> Hrest].
      f_equal; [|by apply IH]. apply hexOfByte_inj. by rewrite Hx, Hy. }
  split; [|split; [|split; [|split]]].
  - induction bytes as [|b bytes IH]; [done|]. rewrite hexOfBytes_cons, length_append, IH.
    destruct (hexOfByte_shape b) as (h & l & -> & _). cbn. lia.
  - induction bytes as [|b bytes IH]; [done|]. rewrite hexOfBytes_cons, allChars_append, IH.
    destruct (hexOfByte_shape b) as (h & l & -> & Hh & Hl). cbn [allChars]. by rewrite Hh, Hl.
  - split; [apply Hinj|by intros ->].
  - apply Hinj.
  - unfold fingerprint. by intros ->.
Qed.

(** ** Escaped markup *)

Lemma replaceAll_append c r (a b : string) :
  replaceAll c r (a +:+ b) = replaceAll c r a +:+ replaceAll c r b.
Proof.
  induction a as [|x a IH]; [done|]. rewrite append_cons. cbn [replaceAll].
  destruct (Ascii.eqb x c); by rewrite IH, ?append_assoc, ?append_cons.
Qed.

Lemma replaceAll_one c r d :
  replaceAll c r (String d "") = if Ascii.eqb d c then r else String d "".
Proof. cbn [replaceAll]. destruct (Ascii.eqb d c); [apply append_nil_r|done]. Qed.

Lemma escapeAll_append a b : escapeAll (a +:+ b) = escapeAll a +:+ escapeAll b.
Proof. unfold escapeAll. by rewrite !replaceAll_append. Qed.

Lemma escapeAll_one d : escapeAll (String d "") = escapeChar d.
Proof.
  unfold escapeAll, escapeChar. rewrite replaceAll_one.
  destruct (Ascii.eqb_spec d "&") as [->|_]; [done|]. rewrite replaceAll_one.
  destruct (Ascii.eqb_spec d "<") as [->|_]; [done|]. rewrite replaceAll_one.
  destruct (Ascii.eqb_spec d ">") as [->|_]; [done|]. rewrite replaceAll_one.
  destruct (Ascii.eqb_spec d "034") as [->|_]; [done|]. rewrite replaceAll_one.
  by destruct (Ascii.eqb_spec d "'") as [->|_].
Qed.

Lemma escapeAll_chars s : escapeAll s = escapeChars s.
Proof.
  induction s as [|d s IH]; [done|].
  change (String d s) with (String d "" +:+ s).
  rewrite escapeAll_append, escapeAll_one, IH. done.
Qed.

Lemma escapeHtml_chars s : escapeHtml (Some s) = escapeChars s.
Proof.
  unfold escapeHtml. fold (escapeAll (orDefault (Some s) "")).
  by rewrite orDefault_id, escapeAll_chars.
Qed.

Ltac by_character c :=
  unfold escapeChar, isMarkup;
  destruct (Ascii.eqb_spec c "&") as [->|?];
  [|destruct (Ascii.eqb_spec c "<") as [->|?];
    [|destruct (Ascii.eqb_spec c ">") as [->|?];
      [|destruct (Ascii.eqb_spec c "034") as [->|?];
        [|destruct (Ascii.eqb_spec c "'") as [->|?]]]]].

Lemma escapeChar_clean c : allChars (fun d => negb (isMarkup d)) (escapeChar c) = true.
Proof.
  by_character c; try done. cbn [allChars].
  by rewrite !(proj2 (Ascii.eqb_neq _ _)) by done.
Qed.

Lemma escapeChar_plain c :
  isMarkup c = false -> Ascii.eqb c "&" = false -> escapeChar c = String c "".
Proof.
  unfold isMarkup, escapeChar. intros Hm ->.
  apply orb_false_iff in Hm as [Hm ->]. apply orb_false_iff in Hm as [Hm ->].
  by apply orb_false_iff in Hm as [-> ->].
Qed.

Lemma escapeChars_inj a b : escapeChars a = escapeChars b -> a = b.
Proof.
  revert b. induction a as [|c a IH]; intros [|d b]; cbn [escapeChars].
  - done.
  - by_character d; rewrite ?append_cons; done.
  - by_character c; rewrite ?append_cons; done.
  - by_character c; by_character d; rewrite ?append_cons, ?append_nil;
      intros Heq; try discriminate;
      try (injection Heq as Heq; f_equal; by apply IH);
      try (injection Heq as Hc Heq; congruence);
      try (injection Heq as -> Heq; f_equal; by apply IH).
Qed.

(** X24: what [escapeHtml] returns is safe to put into markup or into a
    quoted attribute: it contains no [<], [>], double or single quote.
    Text without these characters and without [&] is returned as it is, a
    missing text gives the empty string, and different texts stay
    different. *)
Theorem escaped_text_has_no_markup (s s' : string) :
  allChars (fun c => negb (isMarkup c)) (escapeHtml (Some s)) = true
  /\ (allChars (fun c => negb (isMarkup c) && negb (Ascii.eqb c "&")) s = true ->
      escapeHtml (Some s) = s)
  /\ escapeHtml None = ""
  /\ (escapeHtml (Some s) = escapeHtml (Some s') <-> s = s').
Proof.
  rewrite !escapeHtml_chars. split; [|split; [|split; [done|]]].
  - induction s as [|c s IH]; [done|]. cbn [escapeChars].
    by rewrite allChars_append, escapeChar_clean, IH.
  - induction s as [|c s IH]; [done|]. cbn [allChars escapeChars].
    intros [[Hm%negb_true_iff Ha%negb_true_iff]%andb_true_iff Hs]%andb_true_iff.
    rewrite escapeChar_plain, IH by done. by rewrite append_cons, append_nil.
  - split; [apply escapeChars_inj|by intros ->].
Qed.

Section Capture.
Context `{Platform}.

(** X25: a capture that goes through leaves the page's content as the
    latest version.  When no platform call fails, the tab still shows the
    URL of the expiring timer, its content script answers, the URL is
    eligible and every stored version of the URL is older than now, then
    after the expiry the visit is in the log and the listing of the URL
    starts with a version that carries the fingerprint of the answered
    markup: the one that was there when the content is unchanged, a new
    one otherwise. *)
Theorem successful_capture_makes_content_latest id task w t r :
  let tabId := task_tabId task in
  let url := task_url task in
  let h := fingerprint (orDefault (r_html r) "") in
  let w' := fireTimer id w in
  (forall op n, fault op n = false) ->
  timers w !! id = Some task ->
  tabs w !! tabId = Some t ->
  tab_url t = Some url ->
  url <> "" ->
  tab_reply t = Some r ->
  ok r = true ->
  eligible url (normalize (pw_settings w)) = true ->
  (forall k p, pages w !! k = Some p -> pv_urlKey p = toUrlKey url ->
               capturedAt p < clock w) ->
  (exists l, head (Db.getVersionsByUrlKey (toUrlKey url) (pages w')) = Some l
             /\ hash l = h)
  /\ visits w' !! randomUUID (uuids w)
     = Some (mkVisit (randomUUID (uuids w)) url (toUrlKey url) (clock w) "" tabId).
Proof.
  cbv zeta. intros Hfine Hid Htab Hurl Hne Hr Hok Hel Hold.
  rewrite (fireTimer_run _ _ _ Hid).
  set (w0 := with_timers (delete id (timers w)) w).
  destruct (clearTabState_stores (task_tabId task)
              (archiveAttempt (task_tabId task) (task_url task) w0).2) as (-> & -> & _).
  subst w0. unfold toUrlKey in *. unfold_sw. proj. rewrite !Hfine. proj. rewrite Htab. proj.
  rewrite Hurl, String.eqb_refl. rewrite (proj2 (String.eqb_neq _ _) Hne).
  cbn [orb negb]. proj.
  repeat (first [rewrite Hfine | rewrite shouldArchiveUrl_run | rewrite Htab
                | rewrite Hr | rewrite Hok | rewrite Hel]; proj).
  destruct (head (Db.getVersionsByUrlKey (task_url task) (pages w))) as [l|] eqn:Hhd.
  - destruct (String.eqb_spec (hash l) (fingerprint (orDefault (r_html r) ""))) as [Hh|Hh];
      proj.
    + split; [eauto|]. by apply (fresh_visit_survives_purge (mkVisit _ _ _ _ _ _)).
    + rewrite Hfine. proj. split; [|by apply (fresh_visit_survives_purge (mkVisit _ _ _ _ _ _))].
      eexists. split; [apply (put_newer_is_head (mkPageVersion _ _ _ _ _ _ _ _)), Hold|done].
  - rewrite Hfine. proj. split; [|by apply (fresh_visit_survives_purge (mkVisit _ _ _ _ _ _))].
    eexists. split; [apply (put_newer_is_head (mkPageVersion _ _ _ _ _ _ _ _)), Hold|done].
Qed.
End Capture.

Section Failure.
Context `{Platform}.

Lemma cleared_leaves_pages tabId w :
  forallb (fun e => negb (touchesPages e)) (cleared tabId w) = true.
Proof. unfold cleared. by destruct (navByTab w !! tabId). Qed.

(** X26: a page that cannot be captured is still a visit.  When the timer
    fires, the tab shows its URL, the visit is logged and the URL is
    eligible, but the content script cannot be injected, does not answer,
    or answers without [ok], then the failure is swallowed: the visit
    stays in the log, the pages store is neither read nor written, and
    the tab's state is cleared as on every other path. *)
Theorem failed_snapshot_keeps_visit_only id task w t :
  let tabId := task_tabId task in
  let url := task_url task in
  let w' := fireTimer id w in
  timers w !! id = Some task ->
  tabs w !! tabId = Some t ->
  tab_url t = Some url ->
  url <> "" ->
  fault OpTabsGet (tick w) = false ->
  fault OpPutVisit (S (tick w)) = false ->
  fault OpPurgeVisits (S (S (tick w))) = false ->
  eligible url (normalize (pw_settings w)) = true ->
  fault OpExecuteScript (S (S (S (tick w)))) = true
  \/ fault OpSendMessage (S (S (S (S (tick w))))) = true
  \/ match tab_reply t with
     | Some r => ok r = false
     | None => True
     end ->
  visits w' !! randomUUID (uuids w)
  = Some (mkVisit (randomUUID (uuids w)) url (toUrlKey url) (clock w) "" tabId)
  /\ pages w' = pages w
  /\ navByTab w' !! tabId = None
  /\ exists evs, trace w' = trace w ++ evs
                 /\ forallb (fun e => negb (touchesPages e)) evs = true.
Proof.
  cbv zeta. intros Hid Htab Hurl Hne Hf0 Hf1 Hf2 Hel Hfail.
  rewrite (fireTimer_run _ _ _ Hid).
  set (w0 := with_timers (delete id (timers w)) w).
  destruct (clearTabState_stores (task_tabId task)
              (archiveAttempt (task_tabId task) (task_url task) w0).2) as (-> & -> & _).
  rewrite clearTabState_trace, clearTabState_navByTab, lookup_delete_eq.
  generalize (cleared_leaves_pages (task_tabId task)
                (archiveAttempt (task_tabId task) (task_url task) w0).2).
  generalize (cleared (task_tabId task)
                (archiveAttempt (task_tabId task) (task_url task) w0).2).
  intros cl Hcl. subst w0.
  unfold toUrlKey in *. unfold_sw. proj. rewrite Htab. proj. rewrite Hf0. proj. rewrite Hurl.
  rewrite String.eqb_refl. rewrite (proj2 (String.eqb_neq _ _) Hne).
  cbn [orb negb]. proj. rewrite Hf1. proj. rewrite Hf2. proj.
  rewrite shouldArchiveUrl_run. proj. rewrite Hel. cbn [negb]. proj. rewrite Htab. proj.
  assert (Hv := fresh_visit_survives_purge
                  (mkVisit (randomUUID (uuids w)) (task_url task) (task_url task) (clock w)
                     (orDefault (Some "") "") (task_tabId task)) (visits w) (clock w) eq_refl).
  destruct (fault OpExecuteScript _) eqn:He; proj.
  { split; [exact Hv|]. split; [done|]. split; [done|].
    eexists. split; [rewrite <- !app_assoc; reflexivity|]. cbn. exact Hcl. }
  rewrite Htab. proj.
  destruct (fault OpSendMessage _) eqn:Hs; proj.
  { split; [exact Hv|]. split; [done|]. split; [done|].
    eexists. split; [rewrite <- !app_assoc; reflexivity|]. cbn. exact Hcl. }
  destruct Hfail as [Hfail|[Hfail|Hfail]]; [done..|].
  destruct (tab_reply t) as [r|]; [rewrite Hfail|]; proj.
  all: split; [exact Hv|]; split; [done|]; split; [done|].
  all: eexists; split; [rewrite <- !app_assoc; reflexivity|]; cbn; exact Hcl.
Qed.

End Failure.

(** * Handlers that are suspended and go on *)

Ltac quiet_op :=
  unfold quiet; intros; unfold_sw;
  cbv [getSettings setSettings bind gets modify ret lift throw external];
  repeat case_match; done.

Ltac head_of t :=
  lazymatch t with
  | ?f _ => head_of f
  | _ => t
  end.

(** ** Handlers in turns *)

Section Wp.
Context (I : World -> Prop).

Lemma wp_mono {A} (p : Async A) (Q Q' : Exc A -> World -> Prop) w :
  (forall r w', Q r w' -> Q' r w') -> wp I p Q w -> wp I p Q' w.
Proof.
  intros HQ. revert w. induction p as [r|X op k IH|X op k IH]; intros w; cbn [wp].
  - apply HQ.
  - destruct (op w) as [r w']. apply IH.
  - destruct (op w) as [r w']. intros [Hw' Hk]. split; [done|]. intros w'' Hw''.
    by apply IH, Hk.
Qed.

Lemma gentle_wp {A} (p : Async A) (Q : Exc A -> World -> Prop) w :
  gentle I p -> (forall r w', I w' -> Q r w') -> I w -> wp I p Q w.
Proof.
  intros Hp HQ. revert w. induction p as [r|X op k IH|X op k IH]; intros w Hw; cbn [wp].
  - by apply HQ.
  - destruct Hp as [Hop Hk]. specialize (Hop w Hw). destruct (op w) as [r w'].
    by apply IH.
  - destruct Hp as [Hop Hk]. specialize (Hop w Hw). destruct (op w) as [r w'].
    split; [done|]. intros w'' Hw''. by apply IH.
Qed.

Lemma wp_bindA {A B} (p : Async A) (f : A -> Async B) (Q : Exc B -> World -> Prop) w :
  wp I p (fun r w' => match r with
                      | Ok a => wp I (f a) Q w'
                      | Throw msg => Q (Throw msg) w'
                      end) w ->
  wp I (bindA p f) Q w.
Proof.
  revert w. induction p as [[a|msg]|X op k IH|X op k IH]; intros w; cbn [wp bindA]; try done.
  - destruct (op w) as [r w']. apply IH.
  - destruct (op w) as [r w']. intros [Hw' Hk]. split; [done|]. intros w'' Hw''.
    by apply IH, Hk.
Qed.

Lemma gentle_bindA {A B} (p : Async A) (f : A -> Async B) :
  gentle I p -> (forall a, gentle I (f a)) -> gentle I (bindA p f).
Proof.
  intros Hp Hf. induction p as [[a|msg]|X op k IH|X op k IH]; cbn [gentle bindA] in *;
    try done; destruct Hp as [Hop Hk]; split; auto.
Qed.

Lemma gentle_try_catchA {A} (p : Async A) (h : string -> Async A) :
  gentle I p -> (forall msg, gentle I (h msg)) -> gentle I (try_catchA p h).
Proof.
  intros Hp Hh. induction p as [[a|msg]|X op k IH|X op k IH];
    cbn [gentle try_catchA] in *; try done; destruct Hp as [Hop Hk]; split; auto.
Qed.

Lemma gentle_try_finallyA {A} (p : Async A) (cleanup : World -> World) :
  gentle I p -> (forall w, I w -> I (cleanup w)) -> gentle I (try_finallyA p cleanup).
Proof.
  intros Hp Hc. induction p as [r|X op k IH|X op k IH];
    cbn [gentle try_finallyA] in *.
  - split; [|done]. intros w Hw. by apply Hc.
  - destruct Hp as [Hop Hk]; split; auto.
  - destruct Hp as [Hop Hk]; split; auto.
Qed.

Lemma gentle_awaitCall {A} (p : Async A) : gentle I p -> gentle I (awaitCall p).
Proof.
  intros Hp. induction p as [r|X op k IH|X op k IH]; cbn [gentle awaitCall] in *.
  - split; [|done]. by intros w Hw.
  - destruct Hp as [Hop Hk]; split; auto.
  - destruct Hp as [Hop Hk]; split; auto.
Qed.

Lemma gentle_sync {X} (op : M X) : (forall w, I w -> I (op w).2) -> gentle I (sync op).
Proof. intros Hop. by split. Qed.

Lemma gentle_await {X} (op : M X) : (forall w, I w -> I (op w).2) -> gentle I (await op).
Proof. intros Hop. by split. Qed.

(** A turn of a handler that keeps [I] at every suspension: [I] holds
    after it, and the rest of the handler keeps [I] as well. *)
Lemma advance_wp {A} (p : Async A) w :
  wp I p (fun _ w' => I w') w ->
  I (advance p w).2 /\ forall w'', I w'' -> wp I (advance p w).1 (fun _ w' => I w') w''.
Proof.
  revert w. induction p as [r|X op k IH|X op k IH]; intros w; cbn [wp advance].
  - done.
  - destruct (op w) as [r w']. apply IH.
  - by destruct (op w) as [r w'].
Qed.

End Wp.

(** ** Operations that do not touch the timers *)

Lemma tabsOwnTimers_same w w' :
  navByTab w' = navByTab w -> timers w' = timers w -> nextTimer w' = nextTimer w ->
  tabsOwnTimers w -> tabsOwnTimers w'.
Proof.
  intros Hn Ht Hx [Hnav Hids]. unfold tabsOwnTimers, ownsTimer in *.
  by rewrite Hn, Ht, Hx.
Qed.

Lemma quiet_keeps {X} (op : M X) w : quiet op -> tabsOwnTimers w -> tabsOwnTimers (op w).2.
Proof. intros Hq. destruct (Hq w) as (? & ? & ?). by apply tabsOwnTimers_same. Qed.

Lemma ownsTimer_lookup w tabId st :
  ownsTimer w tabId st = true
  <-> forall task, timers w !! timerId st = Some task ->
                   task_tabId task = tabId /\ task_url task = nav_url st.
Proof.
  unfold ownsTimer. split.
  - intros Ho task Ht. rewrite Ht in Ho.
    apply andb_true_iff in Ho as [->%Z.eqb_eq ->%String.eqb_eq]. done.
  - intros Ho. destruct (timers w !! timerId st) as [task|]; [|done].
    destruct (Ho task eq_refl) as [-> ->]. by rewrite Z.eqb_refl, String.eqb_refl.
Qed.

(** Timers leave the pending set, and a tab may be forgotten. *)
Lemma tabsOwnTimers_shrink w w' :
  navByTab w' ⊆ navByTab w -> timers w' ⊆ timers w -> nextTimer w' = nextTimer w ->
  tabsOwnTimers w -> tabsOwnTimers w'.
Proof.
  intros Hn Ht Hx [Hnav Hids]. split.
  - intros t st Hst. eapply lookup_weaken in Hst; [|exact Hn].
    destruct (Hnav t st Hst) as [Hown Hlt]. rewrite Hx. split; [|done].
    apply ownsTimer_lookup. intros task Htask.
    eapply lookup_weaken in Htask; [|exact Ht]. by eapply ownsTimer_lookup in Hown.
  - rewrite Hx. intros i task Hi. eapply lookup_weaken in Hi; [|exact Ht].
    by eapply Hids.
Qed.

Section Keeps.
Context `{Platform}.

Lemma clearTabState_keeps tabId w : tabsOwnTimers w -> tabsOwnTimers (clearTabState tabId w).
Proof.
  apply tabsOwnTimers_shrink.
  - rewrite clearTabState_navByTab. apply delete_subseteq.
  - rewrite clearTabState_timers. destruct (navByTab w !! tabId); [apply delete_subseteq|done].
  - apply clearTabState_stores.
Qed.

Lemma expire_keeps id w : tabsOwnTimers w -> tabsOwnTimers (expire id w).2.
Proof.
  unfold expire. destruct (timers w !! id); [|done]. cbn [snd].
  apply tabsOwnTimers_shrink; [done|apply delete_subseteq|done].
Qed.

Lemma setTimeout_keeps task w : tabsOwnTimers w -> tabsOwnTimers (setTimeout task w).2.
Proof.
  intros [Hnav Hids]. unfold setTimeout. cbn [snd].
  assert (Hfresh : timers w !! nextTimer w = None).
  { destruct (timers w !! nextTimer w) eqn:Hl; [|done]. apply Hids in Hl. lia. }
  split; proj.
  - intros t st Hst. destruct (Hnav t st Hst) as [Hown Hlt]. split; [|lia].
    apply ownsTimer_lookup. proj. rewrite lookup_insert_ne by lia.
    by apply ownsTimer_lookup.
  - apply map_Forall_insert_2; [lia|]. intros i x Hi. apply Hids in Hi. lia.
Qed.

(** The tail of [onCompleted]: the timer just scheduled is recorded. *)
Lemma record_keeps tabId url minStay w :
  tabsOwnTimers w ->
  tabsOwnTimers
    (with_navByTab
       (<[tabId := {| nav_url := url; completedAt := clock w; errored := false;
                      timerId := nextTimer w |}]> (navByTab w))
       (setTimeout (mkTask tabId url minStay) w).2).
Proof.
  intros Hw. pose proof (setTimeout_keeps (mkTask tabId url minStay) w Hw) as [Hnav Hids].
  unfold setTimeout in *. split; [|done]. proj. apply map_Forall_insert_2; [|done].
  cbn [timerId nav_url]. split; [|lia]. apply ownsTimer_lookup. proj.
  cbn [timerId nav_url]. rewrite lookup_insert_eq. by intros task [= <-].
Qed.

End Keeps.

Section Handlers.
Context `{Platform}.

Lemma onCommitted_keeps frameId tabId url w :
  tabsOwnTimers w -> tabsOwnTimers (onCommitted frameId tabId url w).
Proof. unfold onCommitted. repeat case_match; [done..|]. apply clearTabState_keeps. Qed.

Lemma onErrorOccurred_keeps frameId tabId url w :
  tabsOwnTimers w -> tabsOwnTimers (onErrorOccurred frameId tabId url w).
Proof. unfold onErrorOccurred. case_match; [done|]. by apply tabsOwnTimers_same. Qed.

(** An operation keeps [tabsOwnTimers] when it is quiet or one of the
    operations on timers shown above to keep it. *)
Ltac keeps_op :=
  let w := fresh "w" in
  let Hw := fresh "Hw" in
  intros w Hw;
  first [ by apply clearTabState_keeps
        | by apply expire_keeps
        | by apply onCommitted_keeps
        | by apply onErrorOccurred_keeps
        | apply quiet_keeps; [quiet_op|done] ].

Ltac gentle_go :=
  repeat (intros;
          lazymatch goal with
          | |- gentle _ (bindA _ _) => apply gentle_bindA
          | |- gentle _ (try_catchA _ _) => apply gentle_try_catchA
          | |- gentle _ (try_finallyA _ _) => apply gentle_try_finallyA
          | |- gentle _ (awaitCall _) => apply gentle_awaitCall
          | |- gentle _ (sync _) => apply gentle_sync; keeps_op
          | |- gentle _ (await _) => apply gentle_await; keeps_op
          | |- tabsOwnTimers (clearTabState _ _) => by apply clearTabState_keeps
          | |- gentle _ (Return _) => exact Logic.I
          | |- gentle _ (if ?x then _ else _) => destruct x
          | |- gentle _ (match ?x with _ => _ end) => destruct x
          | |- gentle _ (let _ := _ in _) => cbv zeta
          | |- gentle _ ?p => let h := head_of p in unfold h
          end).

Lemma logVisitA_gentle args : gentle tabsOwnTimers (logVisitA args).
Proof. gentle_go. Qed.

Lemma shouldArchiveUrlA_gentle url : gentle tabsOwnTimers (shouldArchiveUrlA url).
Proof. gentle_go. Qed.

Lemma archiveTimerA_gentle tabId url : gentle tabsOwnTimers (archiveTimerA tabId url).
Proof. gentle_go. Qed.

Lemma onMessageA_gentle msg : gentle tabsOwnTimers (onMessageA msg).
Proof. gentle_go. Qed.

Lemma commandsA_gentle v pattern :
  gentle tabsOwnTimers (onSetMinStayMsA v)
  /\ gentle tabsOwnTimers (onAddUrlPatternA pattern)
  /\ gentle tabsOwnTimers (onRemoveUrlPatternA pattern).
Proof. split; [|split]; gentle_go. Qed.

End Handlers.

Lemma gentle_wp_bindA (I : World -> Prop) {A B} (p : Async A) (f : A -> Async B)
    (Q : Exc B -> World -> Prop) w :
  gentle I p ->
  (forall a w', I w' -> wp I (f a) Q w') ->
  (forall msg w', I w' -> Q (Throw msg) w') ->
  I w -> wp I (bindA p f) Q w.
Proof.
  intros Hp Hf Hthrow Hw. apply wp_bindA, gentle_wp; [done| |done].
  intros [a|msg] w' Hw'; auto.
Qed.

Section Loop.
Context `{Platform}.

Lemma onCompletedA_keeps frameId tabId url w :
  tabsOwnTimers w ->
  wp tabsOwnTimers (onCompletedA frameId tabId url) (fun _ w' => tabsOwnTimers w') w.
Proof.
  intros Hw. unfold onCompletedA.
  destruct (negb (frameId =? 0)); [done|]. destruct (negb (isHttpUrl url)); [done|].
  apply gentle_wp_bindA; [apply gentle_awaitCall, gentle_await; intros w0 Hw0;
                          apply quiet_keeps; [by intros ?|done]| |done..].
  intros settings w1 Hw1. cbn [bindA sync wp gets].
  destruct (match erroredTabUrl w1 !! tabId with
            | Some u => String.eqb u url
            | None => false
            end).
  { cbn [wp modify sync]. by apply clearTabState_keeps. }
  apply gentle_wp_bindA; [apply gentle_awaitCall, shouldArchiveUrlA_gentle| |done..].
  intros should w2 Hw2. destruct (negb should).
  { cbn [wp modify sync]. by apply clearTabState_keeps. }
  cbn [bindA sync wp]. unfold setTimeout at 1. cbn [bindA wp Date_now gets modify].
  by apply (record_keeps tabId url (minStayMs settings)) in Hw2.
Qed.

Lemma listener_keeps a w :
  tabsOwnTimers w -> wp tabsOwnTimers (listener a) (fun _ w' => tabsOwnTimers w') w.
Proof.
  intros Hw. destruct a as [[f t u|f t u|f t u|t|id|msg]|v|p|p|tabs now|vid]; cbn [listener].
  - cbn. by apply onCommitted_keeps.
  - cbn. by apply onErrorOccurred_keeps.
  - by apply onCompletedA_keeps.
  - cbn. by apply clearTabState_keeps.
  - apply gentle_wp; [|done..]. apply gentle_bindA.
    + apply gentle_sync. intros w0 Hw0. by apply expire_keeps.
    + intros [task|]; [apply archiveTimerA_gentle|done].
  - apply gentle_wp; [|done..]. apply gentle_bindA; [apply onMessageA_gentle|done].
  - apply gentle_wp; [|done..]. apply gentle_bindA; [apply (commandsA_gentle v None)|done].
  - apply gentle_wp; [|done..]. apply gentle_bindA; [apply (commandsA_gentle NaN p)|done].
  - apply gentle_wp; [|done..]. apply gentle_bindA; [apply (commandsA_gentle NaN p)|done].
  - cbn. by apply (tabsOwnTimers_same w).
  - cbn. by apply (tabsOwnTimers_same w).
Qed.

(** The loop invariant: the world has the property and every suspended
    handler keeps it. *)
Lemma turn_keeps t s :
  tabsOwnTimers (sys_world s) ->
  Forall (fun p => forall w, tabsOwnTimers w ->
                             wp tabsOwnTimers p (fun _ w' => tabsOwnTimers w') w)
         (sys_suspended s) ->
  tabsOwnTimers (sys_world (turn t s))
  /\ Forall (fun p => forall w, tabsOwnTimers w ->
                                wp tabsOwnTimers p (fun _ w' => tabsOwnTimers w') w)
            (sys_suspended (turn t s)).
Proof.
  intros Hw Hpool. destruct t as [a|i]; cbn [turn].
  - pose proof (advance_wp tabsOwnTimers (listener a) (sys_world s)
                  (listener_keeps a _ Hw)) as [Hw' Hrest].
    destruct (advance (listener a) (sys_world s)) as [rest w']. cbn in *.
    split; [done|]. apply Forall_app. split; [done|]. by constructor.
  - destruct (sys_suspended s !! i) as [p|] eqn:Hp; [|done].
    assert (Hsafe := Hpool). rewrite Forall_forall in Hsafe.
    specialize (Hsafe p (list_elem_of_lookup_2 _ _ _ Hp) _ Hw).
    pose proof (advance_wp tabsOwnTimers p (sys_world s) Hsafe) as [Hw' Hrest].
    destruct (advance p (sys_world s)) as [rest w']. cbn in *.
    split; [done|]. by apply Forall_insert.
Qed.

Lemma turns_keep ts s :
  tabsOwnTimers (sys_world s) ->
  Forall (fun p => forall w, tabsOwnTimers w ->
                             wp tabsOwnTimers p (fun _ w' => tabsOwnTimers w') w)
         (sys_suspended s) ->
  tabsOwnTimers (sys_world (turns ts s))
  /\ Forall (fun p => forall w, tabsOwnTimers w ->
                                wp tabsOwnTimers p (fun _ w' => tabsOwnTimers w') w)
            (sys_suspended (turns ts s)).
Proof.
  unfold turns. revert s. induction ts as [|t ts IH]; intros s Hw Hpool; [done|].
  cbn [fold_left]. destruct (turn_keeps t s Hw Hpool) as [Hw' Hpool']. by apply IH.
Qed.

(** X13: a tab only ever cancels its own timer, however the handlers
    interleave.  Handlers are suspended at every [await]; listeners start
    and suspended handlers go on in any order, and tabs and the clock
    change in between.  If at the start every pending timer held in
    [navByTab] was scheduled for the tab that holds it and for its URL,
    and no handle in use reaches the next one to be handed out, then the
    same is true after every sequence of turns.  So whenever a tab's
    state is cleared, every pending timer scheduled for another tab stays
    pending. *)
Theorem tabs_own_their_timers_in_every_interleaving ts w :
  tabsOwnTimers w ->
  let w' := sys_world (turns ts (mkSystem w [])) in
  tabsOwnTimers w'
  /\ forall tabId id task,
       timers w' !! id = Some task -> task_tabId task <> tabId ->
       timers (clearTabState tabId w') !! id = Some task.
Proof.
  intros Hw. cbv zeta.
  destruct (turns_keep ts (mkSystem w []) Hw (Forall_nil_2 _)) as [Hinv _].
  destruct Hinv as [Hnav Hids]. split; [done|].
  intros tabId id task Hid Hne. rewrite clearTabState_timers.
  destruct (navByTab _ !! tabId) as [st|] eqn:Hst; [|done].
  rewrite lookup_delete_ne; [done|]. intros <-.
  destruct (Hnav tabId st Hst) as [Hown _].
  by destruct (proj1 (ownsTimer_lookup _ _ _) Hown task Hid).
Qed.

End Loop.

(** ** Handlers in one piece

    Run without a suspension, a handler with its awaits is the handler of
    the first part. *)

Lemma inOnePiece_bindA {A B} (p : Async A) (m : M A) (f : A -> Async B) (g : A -> M B) :
  inOnePiece p m -> (forall a, inOnePiece (f a) (g a)) -> inOnePiece (bindA p f) (bind m g).
Proof.
  intros Hp Hf w. unfold bind. rewrite <- Hp. clear Hp. revert w.
  induction p as [[a|msg]|X op k IH|X op k IH]; intros w; cbn [complete bindA].
  - apply Hf.
  - done.
  - destruct (op w) as [r w']. apply IH.
  - destruct (op w) as [r w']. apply IH.
Qed.

Lemma inOnePiece_try_catchA {A} (p : Async A) (m : M A) (h : string -> Async A)
    (g : string -> M A) :
  inOnePiece p m -> (forall msg, inOnePiece (h msg) (g msg)) ->
  inOnePiece (try_catchA p h) (try_catch m g).
Proof.
  intros Hp Hh w. unfold try_catch. rewrite <- Hp. clear Hp. revert w.
  induction p as [[a|msg]|X op k IH|X op k IH]; intros w; cbn [complete try_catchA].
  - done.
  - apply Hh.
  - destruct (op w) as [r w']. apply IH.
  - destruct (op w) as [r w']. apply IH.
Qed.

Lemma inOnePiece_try_finallyA {A} (p : Async A) (m : M A) (cleanup : World -> World) :
  inOnePiece p m -> inOnePiece (try_finallyA p cleanup) (try_finally m cleanup).
Proof.
  intros Hp w. unfold try_finally. rewrite <- Hp. clear Hp. revert w.
  induction p as [r|X op k IH|X op k IH]; intros w; cbn [complete try_finallyA].
  - done.
  - destruct (op w) as [r w']. apply IH.
  - destruct (op w) as [r w']. apply IH.
Qed.

Lemma inOnePiece_awaitCall {A} (p : Async A) (m : M A) :
  inOnePiece p m -> inOnePiece (awaitCall p) m.
Proof.
  intros Hp w. rewrite <- Hp. clear Hp. revert w.
  induction p as [r|X op k IH|X op k IH]; intros w; cbn [complete awaitCall].
  - done.
  - destruct (op w) as [r w']. apply IH.
  - destruct (op w) as [r w']. apply IH.
Qed.

Lemma inOnePiece_sync {X} (op : M X) : inOnePiece (sync op) op.
Proof. intros w. cbn. by destruct (op w). Qed.

Lemma inOnePiece_await {X} (op : M X) : inOnePiece (await op) op.
Proof. intros w. cbn. by destruct (op w). Qed.

Lemma inOnePiece_db {X} (op : M X) : inOnePiece (awaitCall openDb ;;! await op) op.
Proof. intros w. cbn. by destruct (op w). Qed.

Ltac one_piece :=
  repeat (intros;
          lazymatch goal with
          | |- inOnePiece (bindA (awaitCall openDb) _) _ => apply inOnePiece_db
          | |- inOnePiece (bindA _ _) (bind _ _) => apply inOnePiece_bindA
          | |- inOnePiece (try_catchA _ _) (try_catch _ _) => apply inOnePiece_try_catchA
          | |- inOnePiece (try_finallyA _ _) (try_finally _ _) => apply inOnePiece_try_finallyA
          | |- inOnePiece (awaitCall _) _ => apply inOnePiece_awaitCall
          | |- inOnePiece (sync _) _ => apply inOnePiece_sync
          | |- inOnePiece (await _) _ => apply inOnePiece_await
          | |- inOnePiece (Return _) _ => by intros ?
          | |- inOnePiece (if ?x then _ else _) _ => destruct x
          | |- inOnePiece (match ?x with _ => _ end) _ => destruct x
          | |- inOnePiece (let _ := _ in _) _ => cbv zeta
          | |- inOnePiece ?p ?m =>
              let h := head_of p in
              let g := head_of m in
              unfold h, g
          end).

Section OnePiece.
Context `{Platform}.

Lemma logVisitA_inOnePiece args : inOnePiece (logVisitA args) (logVisit args).
Proof. one_piece. Qed.

Lemma shouldArchiveUrlA_inOnePiece url :
  inOnePiece (shouldArchiveUrlA url) (shouldArchiveUrl url).
Proof. one_piece. Qed.

Lemma archiveTimerA_inOnePiece tabId url :
  inOnePiece (archiveTimerA tabId url) (archiveTimer tabId url).
Proof. one_piece. Qed.

Lemma onCompletedA_inOnePiece frameId tabId url :
  inOnePiece (onCompletedA frameId tabId url) (onCompleted frameId tabId url).
Proof. one_piece. Qed.

Lemma onMessageA_inOnePiece msg : inOnePiece (onMessageA msg) (onMessage msg).
Proof. one_piece. Qed.

Lemma commandsA_inOnePiece v pattern :
  inOnePiece (onSetMinStayMsA v) (onSetMinStayMs v)
  /\ inOnePiece (onAddUrlPatternA pattern) (onAddUrlPattern pattern)
  /\ inOnePiece (onRemoveUrlPatternA pattern) (onRemoveUrlPattern pattern).
Proof. split; [|split]; one_piece. Qed.

(** An event of the browser whose listener is never suspended does what
    [step] does. *)
Lemma listener_inOnePiece e w : (complete (listener (Browser e)) w).2 = step e w.
Proof.
  destruct e as [f t u|f t u|f t u|t|id|msg]; cbn [listener step]; try done.
  - unfold run. by rewrite onCompletedA_inOnePiece.
  - unfold fireTimer, expire. cbn [bindA sync complete].
    destruct (timers w !! id) as [task|]; [|done]. cbn [complete bindA].
    unfold run. by rewrite archiveTimerA_inOnePiece.
  - assert (Hm : inOnePiece (onMessageA msg ;;! Return (Ok tt))
                   (bind (onMessage msg) (fun _ => ret tt))).
    { apply inOnePiece_bindA; [apply onMessageA_inOnePiece|by intros ? ?]. }
    rewrite Hm. unfold bind, ret. by destruct (onMessage msg w) as [[?|?] ?].
Qed.

End OnePiece.

(** ** Further worked examples *)

Lemma star_free_patterns_match_exactly_witness :
  urlMatchesPatterns "https://example.com/a"
    ["https://example.com/"; "https://example.com/a"] = Ok true
  /\ urlMatchesPatterns "https://example.com/ab"
       ["https://example.com/"; "https://example.com/a"] = Ok false.
Proof.
  split.
  - exact (star_free_patterns_match_exactly "https://example.com/a"
             ["https://example.com/"; "https://example.com/a"] eq_refl).
  - exact (star_free_patterns_match_exactly "https://example.com/ab"
             ["https://example.com/"; "https://example.com/a"] eq_refl).
Defined.

Lemma denylist_order_is_irrelevant_witness :
  urlMatchesPatterns "https://example.com/a" ["https://a.example/*"; "https://example.com/a*"]
  = urlMatchesPatterns "https://example.com/a"
      ["https://example.com/a*"; "https://a.example/*"; "https://example.com/a*"].
Proof.
  apply denylist_order_is_irrelevant.
  intros p. rewrite !elem_of_cons, !elem_of_nil. tauto.
Defined.

Lemma switching_off_blocks_everything_witness :
  enabled (normalize (pw_settings Sample.fresh)) = true
  /\ shouldArchiveUrl (H := Sample.reliable) "https://example.com/"
       (onMessage (H := Sample.reliable) PW_TOGGLE_ENABLED Sample.fresh).2
     = (Ok false, (onMessage (H := Sample.reliable) PW_TOGGLE_ENABLED Sample.fresh).2).
Proof.
  split; [reflexivity|].
  destruct (switching_off_blocks_everything (H := Sample.reliable) Sample.fresh eq_refl)
    as (_ & _ & Hoff & _).
  exact (Hoff "https://example.com/").
Defined.

Lemma toggled_host_is_blocked_witness :
  nonEmpty (hostOf (H := Sample.reliable) "https://m.example/inbox") = true
  /\ shouldArchiveUrl (H := Sample.reliable) "https://m.example/sent"
       (onMessage (H := Sample.reliable) (PW_TOGGLE_HOST (Some "https://m.example/inbox"))
          Sample.listed).2
     = (Ok false,
        (onMessage (H := Sample.reliable) (PW_TOGGLE_HOST (Some "https://m.example/inbox"))
           Sample.listed).2).
Proof.
  split; [reflexivity|].
  destruct (toggled_host_is_blocked (H := Sample.reliable) "https://m.example/inbox"
              "https://m.example/sent" Sample.listed) as (_ & Hblocked).
  - reflexivity.
  - reflexivity.
  - reflexivity.
  - exact Hblocked.
Defined.

Lemma add_url_pattern_sorted_union_witness :
  trim "  https://a.example/x  " = "https://a.example/x"
  /\ disabledUrlPatterns
       (normalize (pw_settings (onAddUrlPattern (Some "  https://a.example/x  ")
                                  Sample.listed).2))
     = ["https://a.example/x"; "https://private.example/*"]
  /\ (onAddUrlPattern (Some "  https://a.example/x  ")
        (onAddUrlPattern (Some "  https://a.example/x  ") Sample.listed).2).2
     = (onAddUrlPattern (Some "  https://a.example/x  ") Sample.listed).2.
Proof.
  split; [reflexivity|]. split; [reflexivity|].
  destruct (add_url_pattern_sorted_union "  https://a.example/x  " Sample.listed eq_refl)
    as (_ & _ & _ & _ & Hagain).
  exact Hagain.
Defined.

Lemma blank_pattern_is_ignored_witness :
  onAddUrlPattern (Some "   ") Sample.listed
  = (Ok (RespOk (normalize (pw_settings Sample.listed))), Sample.listed).
Proof. exact (blank_pattern_is_ignored (Some "   ") Sample.listed eq_refl). Defined.

Lemma remove_undoes_add_witness :
  disabledUrlPatterns (normalize (pw_settings Sample.listed)) = ["https://private.example/*"]
  /\ normalize
       (pw_settings
          (onRemoveUrlPattern (Some "https://a.example/x")
             (onAddUrlPattern (Some " https://a.example/x ") Sample.listed).2).2)
     = normalize (pw_settings Sample.listed).
Proof.
  split; [reflexivity|].
  destruct (remove_undoes_add " https://a.example/x " Sample.listed) as (_ & Hback & _).
  - reflexivity.
  - reflexivity.
  - apply includes_not_elem_of. reflexivity.
  - exact Hback.
Defined.

Lemma exact_pattern_blocks_url_witness :
  shouldArchiveUrl (H := Sample.reliable) "https://example.com/" Sample.fresh
  = (Ok true, Sample.fresh)
  /\ shouldArchiveUrl (H := Sample.reliable) "https://example.com/"
       (onAddUrlPattern (Some " https://example.com/ ") Sample.fresh).2
     = (Ok false, (onAddUrlPattern (Some " https://example.com/ ") Sample.fresh).2).
Proof.
  split; [vm_compute; reflexivity|].
  exact (exact_pattern_blocks_url (H := Sample.reliable) " https://example.com/ "
           Sample.fresh eq_refl eq_refl).
Defined.

Lemma uncompilable_pattern_changes_no_verdict_witness :
  compiles "*://example.com/*" = false
  /\ disabledUrlPatterns
       (normalize (pw_settings (onAddUrlPattern (Some "*://example.com/*") Sample.fresh).2))
     = ["*://example.com/*"]
  /\ (shouldArchiveUrl (H := Sample.reliable) "https://example.com/"
        (onAddUrlPattern (Some "*://example.com/*") Sample.fresh).2).1
     = Ok true.
Proof.
  split; [reflexivity|]. split; [reflexivity|].
  rewrite (uncompilable_pattern_changes_no_verdict (H := Sample.reliable)
             "*://example.com/*" "https://example.com/" Sample.fresh eq_refl).
  vm_compute. reflexivity.
Defined.

Lemma tracked_fresh : tracked Sample.fresh.
Proof. split; apply map_Forall_empty. Qed.

Lemma completion_schedules_without_cancelling_witness :
  timers Sample.dwelling !! 1%positive = Some Sample.task0
  /\ timers (run (onCompleted (H := Sample.reliable) 0 1 "https://example.com/")
               Sample.dwelling) !! 1%positive = Some Sample.task0
  /\ timers (run (onCompleted (H := Sample.reliable) 0 1 "https://example.com/")
               Sample.dwelling) !! 2%positive = Some Sample.task0.
Proof.
  assert (Ht : timers Sample.dwelling !! 1%positive = Some Sample.task0)
    by (vm_compute; reflexivity).
  destruct (completion_schedules_without_cancelling (H := Sample.reliable) 1
              "https://example.com/" Sample.dwelling) as (Hnew & _ & Hkept & _).
  - apply (tracked_step (H := Sample.reliable)), tracked_fresh.
  - reflexivity.
  - reflexivity.
  - discriminate.
  - split; [exact Ht|]. split; [|exact Hnew].
    rewrite (Hkept 1%positive); [exact Ht|discriminate].
Defined.

Lemma bounce_cancels_capture_witness :
  timers (step (H := Sample.reliable) (Completed 0 1 "https://example.com/") Sample.fresh)
    !! 1%positive = Some Sample.task0
  /\ fireTimer (H := Sample.reliable) 1
       (onCommitted (H := Sample.reliable) 0 1 "https://example.com/next" Sample.dwelling)
     = onCommitted (H := Sample.reliable) 0 1 "https://example.com/next" Sample.dwelling.
Proof.
  destruct (bounce_cancels_capture (H := Sample.reliable) 1 "https://example.com/"
              "https://example.com/next" Sample.fresh) as (Hset & _ & _ & Hnoop & _).
  - reflexivity.
  - reflexivity.
  - discriminate.
  - reflexivity.
  - exact (conj Hset Hnoop).
Defined.

Lemma logVisit_keeps_thirty_days_witness :
  (logVisit (H := Sample.reliable) (mkLogVisitArgs 1 "https://example.com/"
                                      "https://example.com/" None) Sample.fresh).1 = Ok tt
  /\ visits (logVisit (H := Sample.reliable) (mkLogVisitArgs 1 "https://example.com/"
                                                "https://example.com/" None) Sample.fresh).2
       !! "uuid-" = Some Sample.visit0.
Proof.
  split; [reflexivity|].
  destruct (logVisit_keeps_thirty_days (H := Sample.reliable)
              (mkLogVisitArgs 1 "https://example.com/" "https://example.com/" None)
              Sample.fresh eq_refl) as (Hin & _).
  exact Hin.
Defined.

Lemma new_version_becomes_latest_witness :
  head (Db.getVersionsByUrlKey "https://example.com/"
          (Db.putPageVersion
             (mkPageVersion "uuid-ii" "https://example.com/" "https://example.com/" "Example"
                1700000005000 "3c68746d6c3e423c2f68746d6c3e" "text/html" "<html>B</html>")
             {[ "uuid-i" := Sample.version0 ]}))
  = Some (mkPageVersion "uuid-ii" "https://example.com/" "https://example.com/" "Example"
            1700000005000 "3c68746d6c3e423c2f68746d6c3e" "text/html" "<html>B</html>").
Proof.
  destruct (new_version_becomes_latest
              (mkPageVersion "uuid-ii" "https://example.com/" "https://example.com/" "Example"
                 1700000005000 "3c68746d6c3e423c2f68746d6c3e" "text/html" "<html>B</html>")
              {[ "uuid-i" := Sample.version0 ]}) as (Hhead & _).
  - intros k p [_ <-]%lookup_singleton_Some _. reflexivity.
  - exact Hhead.
Defined.

Lemma delete_version_unlists_exactly_it_witness :
  getVersion "uuid-i" (deleteVersion "uuid-i" {[ "uuid-i" := Sample.version0 ]}) = None
  /\ Db.getVersionsByUrlKey "https://example.com/"
       (deleteVersion "uuid-i" {[ "uuid-i" := Sample.version0 ]})
     = filter (fun p => versionId p <> "uuid-i")
         (Db.getVersionsByUrlKey "https://example.com/" {[ "uuid-i" := Sample.version0 ]}).
Proof.
  destruct (delete_version_unlists_exactly_it "uuid-i" "https://example.com/"
              {[ "uuid-i" := Sample.version0 ]}) as (Hgone & _ & Hlist).
  - intros k p [<- <-]%lookup_singleton_Some. reflexivity.
  - exact (conj Hgone Hlist).
Defined.

Lemma next_visits_page_is_strictly_older_witness :
  getVisitsPage (Some (ofZ 2)) None threeVisits
  = Ok (mkVisitsPage [visitAtTime "c" 300; visitAtTime "b" 200] (Some 200))
  /\ exists page',
       getVisitsPage (Some (ofZ 2)) (Some (ofZ 200)) threeVisits = Ok page'
       /\ forall r', r' ∈ rows page' -> visitAt r' < 200.
Proof.
  assert (Hfirst : getVisitsPage (Some (ofZ 2)) None threeVisits
                   = Ok (mkVisitsPage [visitAtTime "c" 300; visitAtTime "b" 200] (Some 200)))
    by (vm_compute; reflexivity).
  split; [exact Hfirst|].
  destruct (next_visits_page_is_strictly_older (Some (ofZ 2)) (Some (ofZ 2)) None threeVisits
              _ 200 Hfirst eq_refl) as (page' & Hnext & Holder).
  exists page'. split; [exact Hnext|].
  intros r' Hr'. apply (Holder (visitAtTime "c" 300) r'); [left|exact Hr'].
Defined.

Lemma successful_capture_makes_content_latest_witness :
  timers laterVisit !! 2%positive = Some Sample.task0
  /\ pages laterVisit !! "uuid-i" = Some Sample.version0
  /\ exists l,
       head (Db.getVersionsByUrlKey "https://example.com/"
               (pages (fireTimer (H := Sample.reliable) 2 laterVisit))) = Some l
       /\ hash l = "3c68746d6c3e413c2f68746d6c3e".
Proof.
  assert (Ht : timers laterVisit !! 2%positive = Some Sample.task0)
    by (vm_compute; reflexivity).
  assert (Hp : pages laterVisit = {[ "uuid-i" := Sample.version0 ]})
    by (vm_compute; reflexivity).
  split; [exact Ht|]. split; [rewrite Hp; apply lookup_singleton_eq|].
  destruct (successful_capture_makes_content_latest (H := Sample.reliable) 2 Sample.task0
              laterVisit (Sample.page "<html>A</html>")
              (mkReply true (Some "Example") (Some "<html>A</html>") None))
    as ((l & Hhead & Hhash) & _).
  - intros op n. reflexivity.
  - exact Ht.
  - vm_compute. reflexivity.
  - reflexivity.
  - discriminate.
  - reflexivity.
  - reflexivity.
  - reflexivity.
  - rewrite Hp. intros k p [_ <-]%lookup_singleton_Some _. reflexivity.
  - exists l. split; [exact Hhead|]. rewrite Hhash. vm_compute. reflexivity.
Defined.

Lemma failed_snapshot_keeps_visit_only_witness :
  timers Sample.dwelling !! 1%positive = Some Sample.task0
  /\ visits (fireTimer (H := Sample.failing OpExecuteScript) 1 Sample.dwelling) !! "uuid-"
     = Some Sample.visit0
  /\ pages (fireTimer (H := Sample.failing OpExecuteScript) 1 Sample.dwelling)
     = pages Sample.dwelling.
Proof.
  assert (Ht : timers Sample.dwelling !! 1%positive = Some Sample.task0)
    by (vm_compute; reflexivity).
  destruct (failed_snapshot_keeps_visit_only (H := Sample.failing OpExecuteScript) 1
              Sample.task0 Sample.dwelling (Sample.page "<html>A</html>"))
    as (Hv & Hp & _).
  - exact Ht.
  - vm_compute. reflexivity.
  - reflexivity.
  - discriminate.
  - reflexivity.
  - reflexivity.
  - reflexivity.
  - reflexivity.
  - left. reflexivity.
  - exact (conj Ht (conj Hv Hp)).
Defined.

Lemma tabsOwnTimers_fresh : tabsOwnTimers Sample.fresh.
Proof. split; apply map_Forall_empty. Qed.

(** While the callback of timer 1 waits for [chrome.tabs.get], the timer
    is no longer pending and [navByTab] still holds it. *)
Lemma expired_timer_is_still_held :
  let s := turns (H := Sample.reliable)
             [Arrive (Browser (Completed 0 1 "https://example.com/"));
              Continue 0; Continue 0; Continue 0; Continue 0; Continue 0;
              Arrive (Browser (TimerFired 1))]
             (mkSystem Sample.fresh []) in
  navByTab (sys_world s) !! 1
  = Some (mkNavState "https://example.com/" 1700000000000 false 1)
  /\ timers (sys_world s) !! 1%positive = None
  /\ tracksTimer (sys_world s) 1 (mkNavState "https://example.com/" 1700000000000 false 1)
     = false
  /\ ownsTimer (sys_world s) 1 (mkNavState "https://example.com/" 1700000000000 false 1)
     = true.
Proof. cbv zeta. repeat apply conj; vm_compute; reflexivity. Qed.

(** The tab moves on while the callback of timer 1 is suspended: the next
    page gets timer 2, and when the callback of timer 1 comes to its
    [finally] it cancels timer 2 and forgets the tab, so the next page is
    not archived. *)
Lemma late_callback_cancels_next_timer :
  let next := "https://example.com/next" in
  let s1 := turns (H := Sample.reliable)
              [Arrive (Browser (Completed 0 1 "https://example.com/"));
               Continue 0; Continue 0; Continue 0; Continue 0; Continue 0;
               Arrive (Browser (TimerFired 1));
               Arrive (Browser (Committed 0 1 next));
               Arrive (Browser (Completed 0 1 next));
               Continue 3; Continue 3; Continue 3; Continue 3; Continue 3]
              (mkSystem Sample.fresh []) in
  let s2 := turns (H := Sample.reliable) (replicate 40 (Continue 1)) s1 in
  timers (sys_world s1) !! 2%positive = Some (mkTask 1 next 2000)
  /\ navByTab (sys_world s1) !! 1 = Some (mkNavState next 1700000000000 false 2)
  /\ sys_suspended s2 !! 1%nat = Some (Return (Ok tt))
  /\ timers (sys_world s2) = ∅
  /\ navByTab (sys_world s2) = ∅.
Proof. cbv zeta. repeat apply conj; vm_compute; reflexivity. Qed.

Lemma tabs_own_their_timers_in_every_interleaving_witness :
  tabsOwnTimers
    (sys_world
       (turns (H := Sample.reliable)
          [Arrive (Browser (Completed 0 1 "https://example.com/"));
           Continue 0; Continue 0; Continue 0; Continue 0; Continue 0;
           Arrive (Browser (TimerFired 1));
           Arrive (Browser (Committed 0 1 "https://example.com/next"));
           Continue 1]
          (mkSystem Sample.fresh []))).
Proof.
  exact (proj1 (tabs_own_their_timers_in_every_interleaving (H := Sample.reliable) _
                  Sample.fresh tabsOwnTimers_fresh)).
Defined.
